(** * avada-translator: segment extraction, integrity validation, reinjection

    A shallow embedding of [segments.py] (stable ids, the segment extractor,
    the applier) and of the validation and retry logic of [translate.py],
    followed by the properties of the specification that were checked
    against it.

    Conventions of the embedding.
    - A Python [str] is a [list ascii]; a character is a code point in
      0..255, with Python's own classification of those code points
      ([\w], [str.lower], [str.isspace]) and their UTF-8 encoding.  Offsets
      are indices into that list, as in Python.
    - Python integers are [Z] or [nat] (offsets and counters never go
      negative, except for the sentinel -1 passed to [stable_id]).
    - A compiled regular expression is embedded as the matcher that the
      backtracking engine implements for that one pattern: a function
      which, given the character before the candidate position and the
      remaining text, returns the captured groups and the length of the
      match.  [finditer] and [search] are generic over such matchers.
    - A [dict] is an association list in insertion order, with Python's
      overwrite-in-place semantics for a repeated key.
    - Exceptions are values of a sum type. *)

From Stdlib Require Import Ascii String.
From Stdlib Require Import List ZArith NArith QArith Lia Bool Arith.
From Stdlib Require Import Permutation.
From Stdlib Require DecimalString DecimalZ.
Import ListNotations.
Close Scope Q_scope.

Set Implicit Arguments.

(** ** Python strings *)

Module Py.

Definition str := list ascii.

Definition lit (s : string) : str := list_ascii_of_string s.

Definition dquote : ascii := "034"%char.

Definition code (c : ascii) : N := N_of_ascii c.

Definition in_range (lo hi n : N) : bool := (N.leb lo n && N.leb n hi)%bool.

(** [re]'s [\w] on a [str] pattern: [c.isalnum() or c == '_']. *)
Definition is_word (c : ascii) : bool :=
  let n := code c in
  (in_range 48 57 n || in_range 65 90 n || N.eqb n 95 || in_range 97 122 n
   || N.eqb n 170 || in_range 178 179 n || N.eqb n 181 || in_range 185 186 n
   || in_range 188 190 n || in_range 192 214 n || in_range 216 246 n
   || in_range 248 255 n)%bool.

(** [str.isspace] on one character. *)
Definition is_space (c : ascii) : bool :=
  let n := code c in
  (in_range 9 13 n || in_range 28 32 n || N.eqb n 133 || N.eqb n 160)%bool.

(** [str.lower] on one character. *)
Definition lower_char (c : ascii) : ascii :=
  let n := code c in
  if (in_range 65 90 n || in_range 192 214 n || in_range 216 222 n)%bool
  then ascii_of_N (n + 32) else c.

Definition lower (s : str) : str := map lower_char s.

Fixpoint lstrip (s : str) : str :=
  match s with
  | c :: s' => if is_space c then lstrip s' else s
  | [] => []
  end.

Definition strip (s : str) : str := rev (lstrip (rev (lstrip s))).

Definition eqc (a b : ascii) : bool := Ascii.eqb a b.

(** [a == b] on strings. *)
Fixpoint str_eqb (a b : str) : bool :=
  match a, b with
  | [], [] => true
  | x :: a', y :: b' => (eqc x y && str_eqb a' b')%bool
  | _, _ => false
  end.

(** [s.startswith(p)], returning what follows the prefix. *)
Fixpoint strip_prefix (p s : str) : option str :=
  match p with
  | [] => Some s
  | a :: p' =>
      match s with
      | b :: s' => if eqc a b then strip_prefix p' s' else None
      | [] => None
      end
  end.

Definition startswith (p s : str) : bool :=
  match strip_prefix p s with Some _ => true | None => false end.

(** [s.find(needle)]: index of the first occurrence. *)
Fixpoint find (needle s : str) : option nat :=
  if startswith needle s then Some 0
  else match s with
       | [] => None
       | _ :: s' => option_map S (find needle s')
       end.

(** [needle in s]. *)
Definition contains (needle s : str) : bool :=
  match find needle s with Some _ => true | None => false end.

(** Index of the first occurrence of one character. *)
Fixpoint find_char (c : ascii) (s : str) : option nat :=
  match s with
  | [] => None
  | b :: s' => if eqc c b then Some 0 else option_map S (find_char c s')
  end.

(** [s[a:b]] for [0 <= a], [0 <= b]. *)
Definition slice (s : str) (a b : nat) : str := firstn (b - a) (skipn a s).

(** [str(n)] for an [int]. *)
Definition str_of_int (z : Z) : str :=
  list_ascii_of_string (DecimalString.NilZero.string_of_int (Z.to_int z)).

(** [s.encode] to UTF-8, as a list of byte values. *)
Definition utf8_char (c : ascii) : list N :=
  let n := code c in
  if N.ltb n 128 then [n] else [(192 + n / 64)%N; (128 + n mod 64)%N].

Definition encode_utf8 (s : str) : list N := flat_map utf8_char s.

End Py.

(** ** [hashlib.sha1] *)

Module Sha1.

Local Open Scope N_scope.

Definition mask32 (x : N) : N := N.land x 0xFFFFFFFF.
Definition add32 (x y : N) : N := mask32 (x + y).
Definition rotl (n x : N) : N :=
  mask32 (N.lor (N.shiftl x n) (N.shiftr x (32 - n))).
Definition not32 (x : N) : N := N.lxor (mask32 x) 0xFFFFFFFF.

(** Big-endian bytes of [x], [k] of them. *)
Fixpoint be_bytes (k : nat) (x : N) : list N :=
  match k with
  | O => []
  | S k' => be_bytes k' (x / 256) ++ [x mod 256]
  end.

Definition zeros (k : nat) : list N := repeat 0 k.

(** Message padding: a 1 bit, zeros up to 56 mod 64, the bit length. *)
Definition pad (msg : list N) : list N :=
  let l := length msg in
  let z := ((64 - ((l + 9) mod 64)) mod 64)%nat in
  msg ++ [0x80] ++ zeros z ++ be_bytes 8 (8 * N.of_nat l).

Definition word_of_bytes (bs : list N) : N :=
  fold_left (fun acc b => acc * 256 + b) bs 0.

Fixpoint words (k : nat) (bs : list N) : list N :=
  match k with
  | O => []
  | S k' => word_of_bytes (firstn 4 bs) :: words k' (skipn 4 bs)
  end.

(** The message schedule, most recent word first. *)
Fixpoint extend (k : nat) (w : list N) : list N :=
  match k with
  | O => w
  | S k' =>
      let x := N.lxor (N.lxor (nth 2 w 0) (nth 7 w 0))
                      (N.lxor (nth 13 w 0) (nth 15 w 0)) in
      extend k' (rotl 1 x :: w)
  end.

Definition schedule (block : list N) : list N :=
  rev (extend 64 (rev (words 16 block))).

Definition state := (N * N * N * N * N)%type.

Definition H0 : state :=
  (0x67452301, 0xEFCDAB89, 0x98BADCFE, 0x10325476, 0xC3D2E1F0).

Definition round (st : state) (tw : nat * N) : state :=
  let '(a, b, c, d, e) := st in
  let '(t, w) := tw in
  let '(f, k) :=
    if (t <? 20)%nat then (N.lor (N.land b c) (N.land (not32 b) d), 0x5A827999)
    else if (t <? 40)%nat then (N.lxor (N.lxor b c) d, 0x6ED9EBA1)
    else if (t <? 60)%nat then
      (N.lor (N.lor (N.land b c) (N.land b d)) (N.land c d), 0x8F1BBCDC)
    else (N.lxor (N.lxor b c) d, 0xCA62C1D6) in
  let temp := add32 (add32 (add32 (add32 (rotl 5 a) f) e) k) w in
  (temp, a, rotl 30 b, c, d).

Definition compress (h : state) (block : list N) : state :=
  let '(a, b, c, d, e) :=
    fold_left round (combine (seq 0 80) (schedule block)) h in
  let '(h0, h1, h2, h3, h4) := h in
  (add32 h0 a, add32 h1 b, add32 h2 c, add32 h3 d, add32 h4 e).

Fixpoint blocks (k : nat) (h : state) (bs : list N) : state :=
  match k with
  | O => h
  | S k' => blocks k' (compress h (firstn 64 bs)) (skipn 64 bs)
  end.

Definition digest (msg : list N) : list N :=
  let p := pad msg in
  let '(a, b, c, d, e) :=
    blocks (length p / 64) H0 p in
  [a; b; c; d; e].

Definition hexchars : list ascii :=
  list_ascii_of_string "0123456789abcdef".

Definition hexdigit (n : N) : ascii :=
  nth (N.to_nat (n mod 16)) hexchars "0"%char.

(** The [k] low hexadecimal digits of [x], most significant first. *)
Fixpoint hex (k : nat) (x : N) : list ascii :=
  match k with
  | O => []
  | S k' => hex k' (x / 16) ++ [hexdigit x]
  end.

(** [h.hexdigest()] of a hash object that was fed [msg]. *)
Definition hexdigest (msg : list N) : list ascii :=
  flat_map (hex 8) (digest msg).

(** All words of [k] hexadecimal digits. *)
Fixpoint all_words (k : nat) : list (list ascii) :=
  match k with
  | O => [[]]
  | S k' => flat_map (fun c => map (cons c) (all_words k')) hexchars
  end.

End Sha1.

(** ** The [re] patterns of the two scripts *)

Module Re.

Import Py.

(** A compiled pattern: what the engine does at one candidate position.
    [prev] is the character before that position ([None] at offset 0) and
    the [str] is the text from the position on.  The result is the groups
    and the length of the whole match. *)
Definition regex (G : Type) := option ascii -> str -> option (G * nat).

Record Match (G : Type) := { m_start : nat; m_end : nat; m_groups : G }.

Definition word_at (c : option ascii) : bool :=
  match c with Some c => is_word c | None => false end.

(** [\b]: exactly one side is a word character. *)
Definition boundary (prev next : option ascii) : bool :=
  xorb (word_at prev) (word_at next).

Fixpoint last_char (prev : option ascii) (s : str) : option ascii :=
  match s with
  | [] => prev
  | c :: s' => last_char (Some c) s'
  end.

(** [rx.finditer(text)]: candidate positions from left to right; after a
    match the scan resumes at its end ([skip] counts the characters of the
    current match still to be passed).  None of the patterns below matches
    the empty string, so nothing is tried at the end of the text. *)
Fixpoint finditer_from (G : Type) (rx : regex G) (prev : option ascii)
    (pos skip : nat) (s : str) {struct s} : list (Match G) :=
  match s with
  | [] => []
  | c :: s' =>
      match skip with
      | S k => finditer_from rx (Some c) (S pos) k s'
      | O =>
          match rx prev s with
          | Some (g, len) =>
              {| m_start := pos; m_end := pos + len; m_groups := g |}
              :: finditer_from rx (Some c) (S pos) (len - 1) s'
          | None => finditer_from rx (Some c) (S pos) 0 s'
          end
      end
  end.

Definition finditer (G : Type) (rx : regex G) (text : str) : list (Match G) :=
  finditer_from rx None 0 0 text.

(** [rx.search(text)]: the leftmost match. *)
Fixpoint search_from (G : Type) (rx : regex G) (prev : option ascii)
    (pos : nat) (s : str) {struct s} : option (Match G) :=
  match s with
  | [] => None
  | c :: s' =>
      match rx prev s with
      | Some (g, len) =>
          Some {| m_start := pos; m_end := pos + len; m_groups := g |}
      | None => search_from rx (Some c) (S pos) s'
      end
  end.

Definition search (G : Type) (rx : regex G) (text : str) : option (Match G) :=
  search_from rx None 0 text.

(** The character before offset [j] of [s], [prev] being the one before
    offset 0. *)
Definition prev_at (prev : option ascii) (s : str) (j : nat) : option ascii :=
  match j with
  | O => prev
  | S j' => nth_error s j'
  end.

(** A match reported relative to a slice that starts [d] characters in. *)
Definition shift (G : Type) (d : nat) (m : Match G) : Match G :=
  {| m_start := d + m_start m; m_end := d + m_end m;
     m_groups := m_groups m |}.

(** Groups of a shortcode match: the tag, the attributes, the body;
    [g_body_start] is the offset of the body from the start of the match. *)
Record Shortcode := {
  g_tag : str;
  g_attrs : str;
  g_body_start : nat;
  g_body : str
}.

Definition open_bracket : ascii := "["%char.
Definition close_bracket : ascii := "]"%char.

Definition closing_tag (tag : str) : str := lit "[/" ++ tag ++ [close_bracket].

(** The shortcode pattern for one tag at one position: an opening bracket,
    the tag, a word boundary, the attributes (any run of characters other
    than a closing bracket, greedy), a closing bracket, the body (any
    characters, lazy) and the closing tag.  The greedy run followed by a
    closing bracket can only stop at the first closing bracket, and the
    lazy body followed by the closing tag stops at the first occurrence of
    that tag. *)
Definition shortcode_at (tag : str) (s : str) : option (Shortcode * nat) :=
  match strip_prefix (open_bracket :: tag) s with
  | None => None
  | Some r =>
      if boundary (last_char None tag) (hd_error r) then
        match find_char close_bracket r with
        | None => None
        | Some n =>
            let rest := skipn (S n) r in
            let off := 1 + length tag + n + 1 in
            match find (closing_tag tag) rest with
            | None => None
            | Some k =>
                Some ({| g_tag := tag; g_attrs := firstn n r;
                         g_body_start := off; g_body := firstn k rest |},
                      off + k + length (closing_tag tag))
            end
        end
      else None
  end.

(** An alternation [(a|b|...)] followed by the rest of the pattern: the
    alternatives are tried in order, each with the whole continuation. *)
Fixpoint first_alt (G : Type) (f : str -> option G) (alts : list str)
    : option G :=
  match alts with
  | [] => None
  | a :: alts' =>
      match f a with
      | Some r => Some r
      | None => first_alt f alts'
      end
  end.

(** [rx.findall(text)] for a pattern without groups. *)
Definition findall (rx : regex str) (text : str) : list str :=
  map (@m_groups str) (finditer rx text).

End Re.

(** ** segments.py *)

Module Segments.

Import Py Re.

Definition BODY_TAGS : list str :=
  [lit "fusion_title"; lit "fusion_text"; lit "fusion_highlight";
   lit "fusion_button"; lit "fusion_li_item"; lit "fusion_table"].

(** The alternation of the body tags, then the shortcode pattern with a
    back-reference to the tag in the closing tag. *)
Definition BODY_RX : regex Shortcode := fun _ s =>
  first_alt (fun tag => shortcode_at tag s) BODY_TAGS.

Definition toggle_tag : str := lit "fusion_toggle".

Definition TOGGLE_RX : regex Shortcode := fun _ s => shortcode_at toggle_tag s.

(** A word boundary, [title=], a double quote, the value (any run of
    characters other than a double quote, the only group) and a double
    quote.  The run stops at the first double quote. *)
Definition title_prefix : str := lit "title=" ++ [dquote].

Definition TITLE_ATTR_RX : regex str := fun prev s =>
  if boundary prev (hd_error s) then
    match strip_prefix title_prefix s with
    | None => None
    | Some r =>
        match find_char dquote r with
        | None => None
        | Some n => Some (firstn n r, length title_prefix + n + 1)
        end
    end
  else None.

Definition SKIP_IF_CONTAINS : list str :=
  [lit "<script"; lit "application/ld+json"].

Definition bar_char : ascii := "|"%char.
Definition bar : str := [bar_char].

(** What [stable_id] feeds to the hash object, in its two [update] calls. *)
Definition id_header (source_key kind : str) (idx start end_ : Z) : str :=
  source_key ++ bar ++ kind ++ bar ++ str_of_int idx ++ bar
  ++ str_of_int start ++ bar ++ str_of_int end_.

Definition id_preimage (source_key kind : str) (idx start end_ : Z)
    (text : str) : list N :=
  encode_utf8 (id_header source_key kind idx start end_) ++ encode_utf8 text.

Definition stable_id (source_key kind : str) (idx start end_ : Z) (text : str)
    : str :=
  firstn 16 (Sha1.hexdigest (id_preimage source_key kind idx start end_ text)).

(** Two derivation tuples that differ in exactly one of the five inputs
    (source key, kind, index, offsets, text). *)
Definition one_changed (k kd : str) (i s e : Z) (t : str)
    (k' kd' : str) (i' s' e' : Z) (t' : str) : Prop :=
  (k <> k' /\ kd = kd' /\ i = i' /\ (s = s' /\ e = e') /\ t = t') \/
  (k = k' /\ kd <> kd' /\ i = i' /\ (s = s' /\ e = e') /\ t = t') \/
  (k = k' /\ kd = kd' /\ i <> i' /\ (s = s' /\ e = e') /\ t = t') \/
  (k = k' /\ kd = kd' /\ i = i' /\ (s <> s' \/ e <> e') /\ t = t') \/
  (k = k' /\ kd = kd' /\ i = i' /\ (s = s' /\ e = e') /\ t <> t').

Definition should_skip (text : str) : bool :=
  let t := lower text in
  existsb (fun x => contains x t) SKIP_IF_CONTAINS.

(** A segment is a dict; the keys [start], [end] and [toggle_order] are
    absent from some kinds. *)
Record Segment := {
  seg_id : str;
  seg_kind : str;
  seg_start : option nat;
  seg_end : option nat;
  seg_toggle_order : option nat;
  seg_text : str
}.

Definition kind_title : str := lit "fusion_toggle:title".
Definition kind_body : str := lit "fusion_toggle:body".

Definition body_start (m : Match Shortcode) : nat :=
  m_start m + g_body_start (m_groups m).
Definition body_end (m : Match Shortcode) : nat :=
  body_start m + length (g_body (m_groups m)).

(** The three dict literals appended by [extract_segments]. *)
Definition body_segment (source_key : str) (m : Match Shortcode) (idx : nat)
    : Segment :=
  let body := g_body (m_groups m) in
  {| seg_id := stable_id source_key (g_tag (m_groups m)) (Z.of_nat idx)
                 (Z.of_nat (body_start m)) (Z.of_nat (body_end m)) body;
     seg_kind := g_tag (m_groups m);
     seg_start := Some (body_start m);
     seg_end := Some (body_end m);
     seg_toggle_order := None;
     seg_text := body |}.

Definition title_segment (source_key : str) (idx toggle_order : nat)
    (title_text : str) : Segment :=
  {| seg_id := stable_id source_key kind_title (Z.of_nat idx) (-1) (-1)
                 title_text;
     seg_kind := kind_title;
     seg_start := None;
     seg_end := None;
     seg_toggle_order := Some toggle_order;
     seg_text := title_text |}.

Definition toggle_body_segment (source_key : str) (m : Match Shortcode)
    (idx toggle_order : nat) : Segment :=
  let body := g_body (m_groups m) in
  {| seg_id := stable_id source_key kind_body (Z.of_nat idx)
                 (Z.of_nat (body_start m)) (Z.of_nat (body_end m)) body;
     seg_kind := kind_body;
     seg_start := Some (body_start m);
     seg_end := Some (body_end m);
     seg_toggle_order := Some toggle_order;
     seg_text := body |}.

(** The first loop of [extract_segments]; the state is ([segments], [idx]). *)
Definition body_step (source_key : str) (st : list Segment * nat)
    (m : Match Shortcode) : list Segment * nat :=
  let '(segments, idx) := st in
  let body := g_body (m_groups m) in
  if should_skip body then st
  else (segments ++ [body_segment source_key m idx], S idx).

Definition nonempty (s : str) : bool :=
  match s with [] => false | _ => true end.

(** The second loop; the state is ([segments], [idx], [toggle_order]). *)
Definition toggle_step (source_key : str) (st : list Segment * nat * nat)
    (m : Match Shortcode) : list Segment * nat * nat :=
  let '(segments, idx, toggle_order) := st in
  let attrs := g_attrs (m_groups m) in
  let body := g_body (m_groups m) in
  let '(segments, idx) :=
    match search TITLE_ATTR_RX attrs with
    | Some title_m =>
        let title_text := m_groups title_m in
        if (nonempty title_text && negb (should_skip title_text))%bool then
          (segments ++ [title_segment source_key idx toggle_order title_text],
           S idx)
        else (segments, idx)
    | None => (segments, idx)
    end in
  let '(segments, idx) :=
    if (nonempty (strip body) && negb (should_skip body))%bool then
      (segments ++ [toggle_body_segment source_key m idx toggle_order], S idx)
    else (segments, idx) in
  (segments, idx, S toggle_order).

(** [list.sort(key=...)]: a stable sort; insertion from the right, an
    element going before the first one whose key is not smaller. *)
Section Sort.
Variables (A K : Type) (key : A -> K) (le : K -> K -> bool).

Fixpoint insert_sorted (x : A) (l : list A) : list A :=
  match l with
  | [] => [x]
  | y :: l' =>
      if le (key x) (key y) then x :: y :: l' else y :: insert_sorted x l'
  end.

Definition sort_by (l : list A) : list A := fold_right insert_sorted [] l.
End Sort.

Definition sentinel : Z := 10 ^ 18.

Definition sort_key (x : Segment) : Z * Z :=
  (match seg_start x with Some a => Z.of_nat a | None => sentinel end,
   match seg_end x with Some b => Z.of_nat b | None => sentinel end).

(** Comparison of two tuples of integers. *)
Definition tuple_le (a b : Z * Z) : bool :=
  (Z.ltb (fst a) (fst b)
   || (Z.eqb (fst a) (fst b) && Z.leb (snd a) (snd b)))%bool.

Definition extract_segments (text source_key : str) : list Segment :=
  let '(segments, idx) :=
    fold_left (body_step source_key) (finditer BODY_RX text) ([], 0) in
  let '(segments, _, _) :=
    fold_left (toggle_step source_key) (finditer TOGGLE_RX text)
              (segments, idx, 0) in
  sort_by sort_key tuple_le segments.

Definition replace_toggle_title (block new_title : str) : str :=
  match search TITLE_ATTR_RX block with
  | Some m =>
      firstn (m_start m) block ++ (title_prefix ++ new_title ++ [dquote])
      ++ skipn (m_end m) block
  | None => block
  end.

(** *** Where segments come from *)

Definition span (s : Segment) : option (nat * nat) :=
  match seg_start s, seg_end s with
  | Some a, Some b => Some (a, b)
  | _, _ => None
  end.

(** The text at a match [m] of the shortcode pattern for [tag]: opening
    tag with its attributes, body, closing tag. *)
Definition shaped (text : str) (tag : str) (m : Match Shortcode) : Prop :=
  let g := m_groups m in
  g_tag g = tag /\
  (exists rest,
     skipn (m_start m) text
     = (open_bracket :: tag ++ g_attrs g) ++ [close_bracket] ++ g_body g
       ++ closing_tag tag ++ rest) /\
  g_body_start g = length (open_bracket :: tag ++ g_attrs g) + 1 /\
  m_end m = body_end m + length (closing_tag tag) /\
  ~ In close_bracket (g_attrs g) /\
  boundary (last_char None tag) (hd_error (g_attrs g ++ [close_bracket]))
  = true.

(** A segment made by the first loop from the match [m]. *)
Definition from_body (m : Match Shortcode) (s : Segment) : Prop :=
  seg_kind s = g_tag (m_groups m) /\
  seg_start s = Some (body_start m) /\
  seg_end s = Some (body_end m) /\
  seg_toggle_order s = None /\
  seg_text s = g_body (m_groups m).

(** A segment made by the second loop from the [k]-th toggle match [m]:
    its title or its body. *)
Definition from_toggle_title (k : nat) (m : Match Shortcode) (s : Segment)
    : Prop :=
  seg_kind s = kind_title /\ seg_start s = None /\ seg_end s = None /\
  seg_toggle_order s = Some k /\
  exists tm, search TITLE_ATTR_RX (g_attrs (m_groups m)) = Some tm /\
             seg_text s = m_groups tm.

Definition from_toggle_body (k : nat) (m : Match Shortcode) (s : Segment)
    : Prop :=
  seg_kind s = kind_body /\
  seg_start s = Some (body_start m) /\
  seg_end s = Some (body_end m) /\
  seg_toggle_order s = Some k /\
  seg_text s = g_body (m_groups m).

(** Two segments found by the same scan: both by the toggle scan as
    bodies, or both by the scan for body tags. *)
Definition is_toggle_body (s : Segment) : bool :=
  str_eqb (seg_kind s) kind_body.

Definition same_scan (a b : Segment) : Prop :=
  is_toggle_body a = is_toggle_body b.

(** The half-open spans of two segments do not overlap. *)
Definition disjoint (a b : Segment) : Prop :=
  forall sa ea sb eb,
  span a = Some (sa, ea) -> span b = Some (sb, eb) -> ea <= sb \/ eb <= sa.

(** The span of [a], if any, ends before that of [b] starts. *)
Definition precedes (a b : Segment) : Prop :=
  forall sa ea sb eb,
  span a = Some (sa, ea) -> span b = Some (sb, eb) -> ea <= sb.

(** Two segments of one scan do not overlap. *)
Definition apart (a b : Segment) : Prop := same_scan a b -> disjoint a b.

Definition of_body_scan (text : str) (s : Segment) : Prop :=
  exists m, In m (finditer BODY_RX text) /\ from_body m s.

Definition of_toggle_scan (text : str) (s : Segment) : Prop :=
  exists k m, nth_error (finditer TOGGLE_RX text) k = Some m /\
              (from_toggle_title k m s \/ from_toggle_body k m s).

Definition provenance (text : str) (s : Segment) : Prop :=
  of_body_scan text s \/ of_toggle_scan text s.

(** A segment that comes from an occurrence with its closing tag: at some
    offset [p] the text reads opening tag, body, closing tag, and the
    segment is that body (with its span) or, for a toggle, the title found
    in the attributes. *)
Definition closed_in (text : str) (s : Segment) : Prop :=
  exists tag p attrs body rest,
    skipn p text
    = (open_bracket :: tag ++ attrs) ++ [close_bracket] ++ body
      ++ closing_tag tag ++ rest /\
    let a := p + length (open_bracket :: tag ++ attrs) + 1 in
    ((In tag BODY_TAGS /\ seg_kind s = tag /\ seg_text s = body /\
      span s = Some (a, a + length body)) \/
     (tag = toggle_tag /\ seg_kind s = kind_body /\ seg_text s = body /\
      span s = Some (a, a + length body)) \/
     (tag = toggle_tag /\ seg_kind s = kind_title /\ span s = None /\
      exists tm, search TITLE_ATTR_RX attrs = Some tm /\
                 seg_text s = m_groups tm)).

(** *** Example documents *)

Definition example_key : str := lit "container_001.txt".

(** The scenario of the specification: a title and a toggle. *)
Definition doc_scenario : str :=
  lit "[fusion_title]Hello[/fusion_title][fusion_toggle title="
  ++ [dquote] ++ lit "Open" ++ [dquote] ++ lit "]World[/fusion_toggle]".

Definition doc_scenario_translated : str :=
  lit "[fusion_title]Bonjour[/fusion_title][fusion_toggle title="
  ++ [dquote] ++ lit "Ouvert" ++ [dquote] ++ lit "]Monde[/fusion_toggle]".

(** A text block inside a toggle. *)
Definition doc_nested : str :=
  lit "[fusion_toggle][fusion_text]hi[/fusion_text][/fusion_toggle]".

(** Two text blocks side by side. *)
Definition doc_two_blocks : str :=
  lit "[fusion_text]a[/fusion_text][fusion_text]b[/fusion_text]".

(** Opened shortcodes that are never closed. *)
Definition doc_unclosed : str :=
  lit "[fusion_title]Hello [fusion_toggle title=" ++ [dquote] ++ lit "Open"
  ++ [dquote] ++ lit "]World".

(** The three segments of the scenario, for a source key [k]. *)
Definition scenario_hello (k : str) : Segment :=
  {| seg_id := stable_id k (lit "fusion_title") 0 14 19 (lit "Hello");
     seg_kind := lit "fusion_title";
     seg_start := Some 14; seg_end := Some 19;
     seg_toggle_order := None; seg_text := lit "Hello" |}.

Definition scenario_open (k : str) : Segment :=
  {| seg_id := stable_id k kind_title 1 (-1) (-1) (lit "Open");
     seg_kind := kind_title;
     seg_start := None; seg_end := None;
     seg_toggle_order := Some 0; seg_text := lit "Open" |}.

Definition scenario_world (k : str) : Segment :=
  {| seg_id := stable_id k kind_body 2 62 67 (lit "World");
     seg_kind := kind_body;
     seg_start := Some 62; seg_end := Some 67;
     seg_toggle_order := Some 0; seg_text := lit "World" |}.

(** *** The JSON artifacts and the applier *)

(** One entry of a [segments] array.  The key [id] is read by subscript,
    the key [text] with [.get] and a default, so only the latter may be
    absent. *)
Record JSeg := { j_id : str; j_kind : str; j_text : option str }.

Record Payload := { p_source_key : str; p_segments : option (list JSeg) }.

(** [payload.get] of the key [segments], with the empty list as default. *)
Definition get_segments (p : Payload) : list JSeg :=
  match p_segments p with Some l => l | None => [] end.

(** A [dict] with [str] keys, in insertion order. *)
Definition dict (V : Type) := list (str * V).

Fixpoint dict_set (V : Type) (k : str) (v : V) (d : dict V) : dict V :=
  match d with
  | [] => [(k, v)]
  | (k', v') :: d' =>
      if str_eqb k k' then (k', v) :: d' else (k', v') :: dict_set k v d'
  end.

Fixpoint dict_get (V : Type) (k : str) (d : dict V) : option V :=
  match d with
  | [] => None
  | (k', v') :: d' => if str_eqb k k' then Some v' else dict_get k d'
  end.

Definition dict_mem (V : Type) (k : str) (d : dict V) : bool :=
  match dict_get k d with Some _ => true | None => false end.

Definition dict_keys (V : Type) (d : dict V) : list str := map fst d.

(** The dict comprehension from [id] to the entry. *)
Definition id_map (segments : list JSeg) : dict JSeg :=
  fold_left (fun d s => dict_set (j_id s) s d) segments [].

Inductive exn :=
| SystemExit_no_files
| FileNotFoundError_extracted (rel : str)
| FileNotFoundError_translated (rel : str)
| ValueError_missing_ids (source_key : str) (first_five : list str)
| ValueError_no_toggle_block (source_key : str)
| KeyError (key : str).

Inductive result (A : Type) :=
| Ok (a : A)
| Raise (e : exn).
Arguments Ok {A} a.
Arguments Raise {A} e.

Definition bind (A B : Type) (r : result A) (f : A -> result B) : result B :=
  match r with Ok a => f a | Raise e => Raise e end.

(** A [for] loop whose body may raise. *)
Fixpoint for_each (A S : Type) (body : S -> A -> result S) (l : list A)
    (st : S) : result S :=
  match l with
  | [] => Ok st
  | x :: l' => bind (body st x) (for_each body l')
  end.

(** [tr_map[sid].get] of the key [text], with the empty string as default. *)
Definition translated_text (tr_map : dict JSeg) (sid : str) : result str :=
  match dict_get sid tr_map with
  | None => Raise (KeyError sid)
  | Some e => Ok (match j_text e with Some t => t | None => [] end)
  end.

(** [out[:a] + new_text + out[b:]] *)
Definition splice (out : str) (a b : nat) (new_text : str) : str :=
  firstn a out ++ new_text ++ skipn b out.

Definition has_span (s : Segment) : bool :=
  match seg_start s, seg_end s with
  | Some _, Some _ => true
  | _, _ => false
  end.

Definition is_title (s : Segment) : bool := str_eqb (seg_kind s) kind_title.

(** Body of the loop over [reversed(span_segs)]. *)
Definition span_step (tr_map : dict JSeg) (out : str) (s : Segment)
    : result str :=
  bind (translated_text tr_map (seg_id s)) (fun new_text =>
  match seg_start s, seg_end s with
  | Some a, Some b => Ok (splice out a b new_text)
  | None, _ => Raise (KeyError (lit "start"))
  | _, None => Raise (KeyError (lit "end"))
  end).

(** [toggle_block_rx] of [cmd_apply]: the pattern of [TOGGLE_RX] without
    group names. *)
Definition toggle_block_rx : regex Shortcode := TOGGLE_RX.

(** Body of the loop over [title_segs]. *)
Definition title_step (source_key : str) (tr_map : dict JSeg) (out : str)
    (s : Segment) : result str :=
  bind (translated_text tr_map (seg_id s)) (fun new_text =>
  let blocks := finditer toggle_block_rx out in
  match blocks with
  | [] => Raise (ValueError_no_toggle_block source_key)
  | b0 :: _ =>
      let order :=
        match seg_toggle_order s with Some k => k | None => 0 end in
      let order :=
        if length blocks <=? order then length blocks - 1 else order in
      let bm := nth order blocks b0 in
      let block := slice out (m_start bm) (m_end bm) in
      let new_block := replace_toggle_title block new_text in
      Ok (splice out (m_start bm) (m_end bm) new_block)
  end).

(** The body of the loop of [cmd_apply] for one container file, from the
    reading of the three files to the value handed to [write_text]. *)
Definition apply_document (source_key raw : str)
    (extracted translated : Payload) : result str :=
  let ex_map := id_map (get_segments extracted) in
  let tr_map := id_map (get_segments translated) in
  let missing :=
    filter (fun sid => negb (dict_mem sid tr_map)) (dict_keys ex_map) in
  match missing with
  | _ :: _ => Raise (ValueError_missing_ids source_key (firstn 5 missing))
  | [] =>
      let segs := extract_segments raw source_key in
      let span_segs := filter has_span segs in
      let title_segs := filter is_title segs in
      bind (for_each (span_step tr_map) (rev span_segs) raw) (fun out =>
      for_each (title_step source_key tr_map) title_segs out)
  end.

(** The file system as [cmd_apply] sees it: the container files found by
    the pattern, each with its two JSON artifacts when they exist. *)
Record ContainerFile := {
  rel : str;
  raw : str;
  extracted_file : option Payload;
  translated_file : option Payload
}.

Definition apply_file (f : ContainerFile) : result str :=
  match extracted_file f with
  | None => Raise (FileNotFoundError_extracted (rel f))
  | Some extracted =>
      match translated_file f with
      | None => Raise (FileNotFoundError_translated (rel f))
      | Some translated => apply_document (rel f) (raw f) extracted translated
      end
  end.

(** The loop over the files; [written] is the log of [write_text] calls
    (path relative to the output folder, content).  An exception ends the
    run. *)
Fixpoint apply_files (files : list ContainerFile) (written : list (str * str))
    : list (str * str) * result unit :=
  match files with
  | [] => (written, Ok tt)
  | f :: files' =>
      match apply_file f with
      | Ok out => apply_files files' (written ++ [(rel f, out)])
      | Raise e => (written, Raise e)
      end
  end.

Definition cmd_apply (files : list ContainerFile)
    : list (str * str) * result unit :=
  match files with
  | [] => ([], Raise SystemExit_no_files)
  | _ => apply_files files []
  end.

(** A translated file for the scenario. *)
Definition scenario_translated (k : str) : Payload :=
  {| p_source_key := k;
     p_segments :=
       Some [{| j_id := seg_id (scenario_hello k); j_kind := lit "fusion_title";
                j_text := Some (lit "Bonjour") |};
             {| j_id := seg_id (scenario_world k); j_kind := kind_body;
                j_text := Some (lit "Monde") |};
             {| j_id := seg_id (scenario_open k); j_kind := kind_title;
                j_text := Some (lit "Ouvert") |}] |}.

(** The same file without the entry of the title. *)
Definition scenario_partial (k : str) : Payload :=
  {| p_source_key := k;
     p_segments :=
       Some [{| j_id := seg_id (scenario_hello k); j_kind := lit "fusion_title";
                j_text := Some (lit "Bonjour") |};
             {| j_id := seg_id (scenario_world k); j_kind := kind_body;
                j_text := Some (lit "Monde") |}] |}.

(** The payload that [cmd_extract] writes for one container file. *)
Definition extract_payload (source_key raw : str) : Payload :=
  {| p_source_key := source_key;
     p_segments :=
       Some (map (fun s => {| j_id := seg_id s; j_kind := seg_kind s;
                              j_text := Some (seg_text s) |})
                 (extract_segments raw source_key)) |}.

(** The scenario document with its extracted file and a translated file
    that lacks one id. *)
Definition scenario_incomplete : ContainerFile :=
  {| rel := example_key;
     raw := doc_scenario;
     extracted_file := Some (extract_payload example_key doc_scenario);
     translated_file := Some (scenario_partial example_key) |}.

(** *** Runs in which a title is written into a body *)

(** A translated file for [raw] that gives each segment of the document
    the text chosen by [new_text]. *)
Definition payload_with (new_text : Segment -> str) (source_key raw : str)
    : Payload :=
  {| p_source_key := source_key;
     p_segments :=
       Some (map (fun s => {| j_id := seg_id s; j_kind := seg_kind s;
                              j_text := Some (new_text s) |})
                 (extract_segments raw source_key)) |}.

(** A text block followed by a toggle with the title B. *)
Definition doc_injected : str :=
  lit "[fusion_text]a[/fusion_text][fusion_toggle title=" ++ [dquote]
  ++ lit "B" ++ [dquote] ++ lit "]b[/fusion_toggle]".

(** Translated texts for it: the text block is given markup that opens a
    toggle without a title attribute and holds a title attribute in an
    HTML tag; the title becomes Bee; the toggle body is kept. *)
Definition injected_markup : str :=
  lit "[fusion_toggle]<i title=" ++ [dquote] ++ lit "q" ++ [dquote]
  ++ lit ">z</i>".

Definition injected_text (s : Segment) : str :=
  if is_title s then lit "Bee"
  else if is_toggle_body s then lit "b"
  else injected_markup.

(** The document after the replacement of the spans, and the document
    that is written. *)
Definition doc_injected_edited : str :=
  lit "[fusion_text][fusion_toggle]<i title=" ++ [dquote] ++ lit "q"
  ++ [dquote] ++ lit ">z</i>[/fusion_text][fusion_toggle title=" ++ [dquote]
  ++ lit "B" ++ [dquote] ++ lit "]b[/fusion_toggle]".

Definition doc_injected_applied : str :=
  lit "[fusion_text][fusion_toggle]<i title=" ++ [dquote] ++ lit "Bee"
  ++ [dquote] ++ lit ">z</i>[/fusion_text][fusion_toggle title=" ++ [dquote]
  ++ lit "B" ++ [dquote] ++ lit "]b[/fusion_toggle]".

Definition injected_file : ContainerFile :=
  {| rel := example_key;
     raw := doc_injected;
     extracted_file := Some (extract_payload example_key doc_injected);
     translated_file :=
       Some (payload_with injected_text example_key doc_injected) |}.

(** A toggle without a title attribute whose body holds one in an HTML
    tag, followed by a toggle with the title B around a text block. *)
Definition doc_two_toggles : str :=
  lit "[fusion_toggle]<i title=" ++ [dquote] ++ lit "x" ++ [dquote]
  ++ lit ">y</i>[/fusion_toggle][fusion_toggle title=" ++ [dquote]
  ++ lit "B" ++ [dquote]
  ++ lit "][fusion_text]hello[/fusion_text][/fusion_toggle]".

(** Translated texts for it that leave every bracket token alone: hello
    becomes hi, in the text block and in the toggle body around it, and
    the title becomes Bee. *)
Definition shortened_text (s : Segment) : str :=
  if is_title s then lit "Bee"
  else if str_eqb (seg_text s) (lit "hello") then lit "hi"
  else if str_eqb (seg_text s) (lit "[fusion_text]hello[/fusion_text]")
       then lit "[fusion_text]hi[/fusion_text]"
  else seg_text s.

Definition doc_two_toggles_applied : str :=
  lit "[fusion_toggle]<i title=" ++ [dquote] ++ lit "Bee" ++ [dquote]
  ++ lit ">y</i>[/fusion_toggle][fusion_toggle title=" ++ [dquote]
  ++ lit "B" ++ [dquote]
  ++ lit "][fusion_text]hi[/fusion_text]usion_toggle]".

End Segments.

(** ** translate.py: the integrity check and the retry loop *)

Module Translate.

Import Py Re.
Import Segments(JSeg, j_id, j_kind, j_text, dict, dict_set, dict_get, dict_mem).

(** An opening bracket, a lazy run of characters other than a closing
    bracket, a closing bracket; the result is the matched token. *)
Definition BRACKET_RX : regex str := fun _ s =>
  match s with
  | [] => None
  | c :: r =>
      if eqc c open_bracket then
        match find_char close_bracket r with
        | None => None
        | Some n => Some (firstn (n + 2) s, n + 2)
        end
      else None
  end.

Definition BAD_TOKENS : list str := [lit "on_toggle]"; lit "off_toggle]"].

Fixpoint list_eqb (a b : list str) : bool :=
  match a, b with
  | [], [] => true
  | x :: a', y :: b' => (str_eqb x y && list_eqb a' b')%bool
  | _, _ => false
  end.

(** Both arguments are [str]; [x or ...] with the empty string as default
    is [x] itself. *)
Definition is_corrupt (original_text translated_text : str) : bool :=
  let orig_br := findall BRACKET_RX original_text in
  let tr_br := findall BRACKET_RX translated_text in
  if negb (list_eqb orig_br tr_br) then true
  else
    let low := lower translated_text in
    if existsb (fun t => contains t low) BAD_TOKENS then true
    else false.

(** The deny-list test of [is_corrupt] on its own. *)
Definition has_bad_token (t : str) : bool :=
  existsb (fun b => contains b (lower t)) BAD_TOKENS.

(** One entry of the parsed response ([Segment] of the pydantic schema). *)
Record TSeg := { t_id : str; t_text : str }.

Section Retry.

(** Exceptions of the service call and the usage record of a response
    are opaque to the loop. *)
Variables (E U : Type).

(** What one call of [translate_segments_once] does: it raises, or it
    returns the dumped payload (whose [segments] key may in principle
    be absent) and the usage. *)
Inductive outcome :=
| Raised (e : E)
| Returned (segments : option (list TSeg)) (usage : U).

Inductive error :=
| ServiceError (e : E)
| SchemaMismatch_count
| SchemaMismatch_missing_id
| Corruption (first_five : list str)
| TypeError_raise_None
| ValueError_negative_sleep.

Inductive event :=
| Call (attempt : nat)
| Sleep (seconds : Q).

(** The external service: the outcome of the call made at each attempt. *)
Variable service : nat -> outcome.

Definition text_or_empty (s : JSeg) : str :=
  match j_text s with Some t => t | None => [] end.

Definition text_map (translated : list TSeg) : dict str :=
  fold_left (fun d s => dict_set (t_id s) (t_text s) d) translated [].

(** The body of the [try] block for an outcome of the call. *)
Definition checked (segments : list JSeg) (o : outcome)
    : (option (list TSeg) * U) + error :=
  match o with
  | Raised e => inr (ServiceError e)
  | Returned None _ => inr SchemaMismatch_count
  | Returned (Some translated) usage =>
      if negb (length translated =? length segments)
      then inr SchemaMismatch_count
      else
        let tr_map := text_map translated in
        if existsb (fun s => negb (dict_mem (j_id s) tr_map)) segments
        then inr SchemaMismatch_missing_id
        else
          let bad :=
            filter (fun s =>
                      match dict_get (j_id s) tr_map with
                      | Some t => is_corrupt (text_or_empty s) t
                      | None => false
                      end) segments in
          match bad with
          | _ :: _ => inr (Corruption (firstn 5 (map j_id bad)))
          | [] => inl (Some translated, usage)
          end
  end.

(** The outcomes that make an attempt fail: the call raised, the
    response has no [segments] or not as many as the batch, an id of the
    batch is missing from it, or a translated text is corrupt. *)
Definition rejected (segments : list JSeg) (o : outcome) : Prop :=
  match o with
  | Raised _ => True
  | Returned None _ => True
  | Returned (Some translated) _ =>
      length translated <> length segments \/
      (exists s, In s segments /\
                 dict_get (j_id s) (text_map translated) = None) \/
      (exists s t, In s segments /\
                   dict_get (j_id s) (text_map translated) = Some t /\
                   is_corrupt (text_or_empty s) t = true)
  end.

(** [sleep_base * (2 ** attempt)]; durations are exact rationals. *)
Definition backoff (sleep_base : Q) (attempt : nat) : Q :=
  (sleep_base * inject_Z (2 ^ Z.of_nat attempt))%Q.

(** [time.sleep] raises [ValueError] on a negative duration. *)
Definition negative (q : Q) : bool := negb (Qle_bool 0 q).

(** The [for] loop over [range(max_retries)], from attempt [attempt] with
    [n] attempts left; the log records the calls and the sleeps. *)
Fixpoint retry_loop (segments : list JSeg) (sleep_base : Q) (n : nat)
    (attempt : nat) (last_err : option error) (log : list event)
    : list event * ((option (list TSeg) * U) + error) :=
  match n with
  | O =>
      (log, inr (match last_err with
                 | Some e => e
                 | None => TypeError_raise_None
                 end))
  | S n' =>
      let log := log ++ [Call attempt] in
      match checked segments (service attempt) with
      | inl r => (log, inl r)
      | inr e =>
          let seconds := backoff sleep_base attempt in
          if negative seconds then (log, inr ValueError_negative_sleep)
          else retry_loop segments sleep_base n' (S attempt) (Some e)
                          (log ++ [Sleep seconds])
      end
  end.

Definition translate_segments (segments : list JSeg) (max_retries : nat)
    (sleep_base : Q) :=
  retry_loop segments sleep_base max_retries 0 None [].

(** The log of [k] consecutive failed attempts starting at attempt [a]:
    each is a call followed by its backoff sleep. *)
Definition failed_attempts (sleep_base : Q) (a k : nat) : list event :=
  flat_map (fun i => [Call i; Sleep (backoff sleep_base i)]) (seq a k).

(** Attempt [i] fails: the call raises or its response is rejected. *)
Definition failed (segments : list JSeg) (i : nat) : Prop :=
  exists e, checked segments (service i) = inr e.

Definition is_call (ev : event) : bool :=
  match ev with Call _ => true | Sleep _ => false end.

Definition calls (log : list event) : nat := length (filter is_call log).

End Retry.

(** A batch of one segment and a service that raises, then answers with
    an altered bracket token, then answers correctly. *)
Definition example_batch : list JSeg :=
  [{| j_id := lit "a1"; j_kind := lit "fusion_text";
      j_text := Some (lit "Hello [b]") |}].

Definition example_service (i : nat) : outcome unit unit :=
  match i with
  | 0 => @Raised unit unit tt
  | 1 =>
      @Returned unit unit
        (Some [{| t_id := lit "a1"; t_text := lit "Bonjour [c]" |}]) tt
  | _ =>
      @Returned unit unit
        (Some [{| t_id := lit "a1"; t_text := lit "Bonjour [b]" |}]) tt
  end.

End Translate.

From Stdlib Require Import Lqa.

(** ** More of the Python library *)

Module PyMore.

Import Py.

(** [sep.join(parts)] *)
Fixpoint join (sep : str) (parts : list str) : str :=
  match parts with
  | [] => []
  | [p] => p
  | p :: ps => p ++ sep ++ join sep ps
  end.

(** [l[a:b]] on a list, for [0 <= a], [0 <= b]. *)
Definition slice_list (A : Type) (l : list A) (a b : nat) : list A :=
  firstn (b - a) (skipn a l).

(** [range(i, stop, step)] for a positive step; [fuel] bounds the number
    of elements. *)
Fixpoint range_from (fuel i stop step : nat) : list nat :=
  match fuel with
  | O => []
  | S fuel' =>
      if i <? stop then i :: range_from fuel' (i + step) stop step else []
  end.

Definition range_step (stop step : nat) : list nat :=
  range_from stop 0 stop step.

(** [re]'s [\d] on a [str] pattern. *)
Definition is_digit (c : ascii) : bool := in_range 48 57 (code c).

Fixpoint take_while (f : ascii -> bool) (s : str) : str :=
  match s with
  | c :: s' => if f c then c :: take_while f s' else []
  | [] => []
  end.

(** [int(s)] for a string of decimal digits, no longer than the limit
    that the interpreter puts on such conversions where it has one. *)
Definition int_of_digits (s : str) : N :=
  fold_left (fun acc c => (10 * acc + (code c - 48))%N) s 0%N.

(** Texts [p1 t1 p2 t2 ... tail]: the [p]s alternate with the [t]s. *)
Fixpoint weave (parts : list (str * str)) (tail : str) : str :=
  match parts with
  | [] => tail
  | (p, t) :: parts' => p ++ t ++ weave parts' tail
  end.

Definition newline : ascii := "010"%char.

End PyMore.

(** ** extract.py *)

Module Containers.

Import Py Re PyMore.

Definition container_open : str := lit "[fusion_builder_container".
Definition container_close : str := lit "[/fusion_builder_container]".

(** The opening text, a lazy run of any characters, the closing tag: the
    run stops at the first occurrence of the closing tag.  The result is
    the matched text. *)
Definition pattern : regex str := fun _ s =>
  match strip_prefix container_open s with
  | None => None
  | Some r =>
      match find container_close r with
      | None => None
      | Some k =>
          let len := length container_open + k + length container_close in
          Some (firstn len s, len)
      end
  end.

(** The file name of the [i]-th container. *)
(** A container: the opening text, anything, and the closing tag, which
    occurs nowhere before the end. *)
Definition is_container (c : str) : Prop :=
  exists mid,
    c = container_open ++ mid ++ container_close /\
    forall pre post,
      mid ++ container_close = pre ++ container_close ++ post ->
      pre = mid /\ post = [].

Definition container_name (i : nat) : str :=
  lit "container_" ++ str_of_int (Z.of_nat i) ++ lit ".txt".

(** [export_from_file]: the files written into the output folder (name,
    content), in the order of the writes, and the returned count. *)
Definition export_from_file (content : str) : list (str * str) * nat :=
  let containers := findall pattern content in
  (map (fun ic => (container_name (fst ic), snd ic))
       (combine (seq 1 (length containers)) containers),
   length containers).

(** A page with two containers and text around them. *)
Definition doc_page : str :=
  lit "x[fusion_builder_container a]A[/fusion_builder_container]y"
  ++ lit "[fusion_builder_container]B[/fusion_builder_container]z".

End Containers.

(** ** merge.py *)

Module Merge.

Import Py Re PyMore.

(** [container_], one or more digits (the group), [.txt] and the end of
    the string, which the dollar sign also finds before a final newline. *)
Definition NUM_RX : regex str := fun _ s =>
  match strip_prefix (lit "container_") s with
  | None => None
  | Some r =>
      let digits := take_while is_digit r in
      match digits with
      | [] => None
      | _ =>
          match strip_prefix (lit ".txt") (skipn (length digits) r) with
          | None => None
          | Some tail =>
              let len := 10 + length digits + 4 in
              match tail with
              | [] => Some (digits, len)
              | [c] => if eqc c newline then Some (digits, len) else None
              | _ => None
              end
          end
      end
  end.

Definition no_index : N := (10 ^ 9)%N.

(** The numbers whose decimal form stays within the default limit of
    4300 digits for conversions between [str] and [int]. *)
Definition digit_limit : N := (10 ^ 4300)%N.

Definition container_index (name : str) : N :=
  match search NUM_RX name with
  | Some m => int_of_digits (m_groups m)
  | None => no_index
  end.

(** [merge_page_dir], given what the glob finds in the page folder (name,
    content), in the order the file system lists it. *)
Definition merge_page_dir (listing : list (str * str)) : str :=
  let containers :=
    Segments.sort_by (fun e => container_index (fst e)) N.leb listing in
  let parts := map snd containers in
  strip (join [newline; newline] parts) ++ [newline].

End Merge.

(** ** segments.py: the extract command and views of the extractor *)

Module SegmentsMore.

Import Py Re PyMore Segments.

(** The segments in the order they are appended, before the final sort. *)
Definition emitted_segments (text source_key : str) : list Segment :=
  let '(segments, idx) :=
    fold_left (body_step source_key) (finditer BODY_RX text) ([], 0) in
  let '(segments, _, _) :=
    fold_left (toggle_step source_key) (finditer TOGGLE_RX text)
              (segments, idx, 0) in
  segments.

(** An absent offset is hashed as -1. *)
Definition offset_or_sentinel (o : option nat) : Z :=
  match o with Some a => Z.of_nat a | None => (-1)%Z end.

(** [cmd_extract]: the JSON files written (path of the container relative
    to the source folder, payload), and the outcome of the run. *)
Definition cmd_extract (files : list (str * str))
    : list (str * Payload) * result unit :=
  match files with
  | [] => ([], Raise SystemExit_no_files)
  | _ =>
      (map (fun f => (fst f, extract_payload (fst f) (snd f))) files, Ok tt)
  end.

(** One edit of the splicing loop: offsets and new text. *)
Definition edit := (nat * nat * str)%type.

(** The text [raw] from offset [from] on, with the edits applied from
    left to right. *)
Fixpoint patched (raw : str) (from : nat) (edits : list edit) : str :=
  match edits with
  | [] => skipn from raw
  | (a, b, t) :: edits' => slice raw from a ++ t ++ patched raw b edits'
  end.

(** Edits in document order that do not overlap and stay within a text
    of length [n]. *)
Fixpoint chained (n from : nat) (edits : list edit) : Prop :=
  match edits with
  | [] => True
  | (a, b, _) :: edits' => from <= a /\ a <= b /\ b <= n /\ chained n b edits'
  end.

(** One replacement of the loop over [reversed(span_segs)], and the loop
    itself, on plain edits. *)
Definition apply_edit (out : str) (e : edit) : str :=
  splice out (fst (fst e)) (snd (fst e)) (snd e).

Definition splice_all (raw : str) (edits : list edit) : str :=
  fold_left apply_edit (rev edits) raw.

(** The edit that a segment with a span stands for, given its new text. *)
Definition edit_of (new_text : Segment -> str) (s : Segment) : edit :=
  (match seg_start s with Some a => a | None => 0 end,
   match seg_end s with Some b => b | None => 0 end,
   new_text s).

(** The folders that [cmd_apply] reads when the JSON files that
    [cmd_extract] wrote are used as the translated files too: each
    container with the file written for it. *)
Definition untranslated (files : list (str * str)) : list ContainerFile :=
  map (fun fw => {| rel := fst (fst fw); raw := snd (fst fw);
                    extracted_file := Some (snd (snd fw));
                    translated_file := Some (snd (snd fw)) |})
      (combine files (fst (cmd_extract files))).

(** What is read back from a title attribute written with [new_title]:
    the value stops at the first double quote. *)
Definition kept_title (new_title : str) : str :=
  match find_char dquote new_title with
  | Some n => firstn n new_title
  | None => new_title
  end.

(** A JSON file without any segment. *)
Definition empty_payload (source_key : str) : Payload :=
  {| p_source_key := source_key; p_segments := Some [] |}.

(** A translated file that puts a mark in front of every text. *)
Definition marked (s : Segment) : str := lit "X" ++ seg_text s.

Definition marked_payload (source_key raw : str) : Payload :=
  {| p_source_key := source_key;
     p_segments :=
       Some (map (fun s => {| j_id := seg_id s; j_kind := seg_kind s;
                              j_text := Some (marked s) |})
                 (extract_segments raw source_key)) |}.

End SegmentsMore.

(** ** translate.py: batching and the file loop *)

Module TranslateFile.

Import Py Re PyMore.
Import Segments(JSeg, j_id, j_kind, j_text, Payload, p_source_key, p_segments,
                dict, dict_set, dict_get, dict_mem).
Import Translate.

(** [list(chunk_list(items, size))]; [None] is the [ValueError] of
    [range] for a zero step, and a negative step gives an empty range. *)
Definition chunk_list (A : Type) (items : list A) (size : Z)
    : option (list (list A)) :=
  if (size =? 0)%Z then None
  else if (size <? 0)%Z then Some []
  else
    let n := Z.to_nat size in
    Some (map (fun i => slice_list items i (i + n))
              (range_step (length items) n)).

(** The parsed input file; both keys are read with [.get]. *)
Record InputData := {
  d_source_key : option str;
  d_segments : option (list JSeg)
}.

Inductive status := Skipped | Empty | Done.

Section File.

Variable E : Type.

(** The usage object of a response: [None] when there is none, else its
    input and output token counts. *)
Definition usage := option (nat * nat).

Inductive file_exn :=
| ValueError_range_step
| BatchFailed (batch : nat) (e : error E)
| KeyError_segments
| KeyError_out_map (sid : str).

(** The service: the outcome of the call made for batch [b] at attempt
    [i]. *)
Variable service : nat -> nat -> outcome E usage.

Variables (max_retries : nat) (sleep_base : Q).

(** The inner loop over a batch: one output entry per input segment. *)
Fixpoint collect (group : list JSeg) (out_map : dict str)
    : list JSeg + file_exn :=
  match group with
  | [] => inl []
  | s :: group' =>
      match dict_get (j_id s) out_map with
      | None => inr (KeyError_out_map (j_id s))
      | Some t =>
          match collect group' out_map with
          | inl entries =>
              inl ({| j_id := j_id s; j_kind := j_kind s;
                      j_text := Some t |} :: entries)
          | inr e => inr e
          end
      end
  end.

(** The loop over the batches; the state is ([translated_segments],
    [file_in], [file_out]) and [b] numbers the batch. *)
Fixpoint batches (groups : list (list JSeg)) (b : nat)
    (st : list JSeg * nat * nat) : (list JSeg * nat * nat) + file_exn :=
  match groups with
  | [] => inl st
  | group :: groups' =>
      let '(translated_segments, file_in, file_out) := st in
      match snd (translate_segments (service b) group max_retries sleep_base)
      with
      | inr e => inr (BatchFailed b e)
      | inl (None, _) => inr KeyError_segments
      | inl (Some translated, u) =>
          match collect group (text_map translated) with
          | inr e => inr e
          | inl entries =>
              let '(n_in, n_out) :=
                match u with Some io => io | None => (0, 0) end in
              batches groups' (S b)
                      (translated_segments ++ entries,
                       file_in + n_in, file_out + n_out)
          end
      end
  end.

(** [translate_file]: what is written to the output path, if anything,
    and the returned tuple (segment count, input tokens, output tokens,
    status) or the exception.  [rel_posix] is the relative path used as
    default source key. *)
Definition translate_file (rel_posix : str) (out_exists overwrite : bool)
    (data : InputData) (batch : Z)
    : option Payload * ((nat * nat * nat * status) + file_exn) :=
  if (out_exists && negb overwrite)%bool then (None, inl (0, 0, 0, Skipped))
  else
    let segments := match d_segments data with Some l => l | None => [] end in
    let source_key :=
      match d_source_key data with Some k => k | None => rel_posix end in
    match segments with
    | [] =>
        (Some {| p_source_key := source_key; p_segments := Some [] |},
         inl (0, 0, 0, Empty))
    | _ =>
        match chunk_list segments batch with
        | None => (None, inr ValueError_range_step)
        | Some groups =>
            match batches groups 0 ([], 0, 0) with
            | inr e => (None, inr e)
            | inl (translated_segments, file_in, file_out) =>
                (Some {| p_source_key := source_key;
                         p_segments := Some translated_segments |},
                 inl (length segments, file_in, file_out, Done))
            end
        end
    end.

End File.

(** A translated entry that passed the checks for its segment. *)
Definition validated (s o : JSeg) : Prop :=
  exists t, j_text o = Some t /\ is_corrupt (text_or_empty s) t = false.

(** A service that answers every batch at once, and an input file of
    one segment. *)
Definition example_file_service (b i : nat) : outcome unit usage :=
  @Returned unit usage
    (Some [{| t_id := lit "a1"; t_text := lit "Bonjour [b]" |}])
    (Some (12, 7)).

Definition example_input : InputData :=
  {| d_source_key := None; d_segments := Some example_batch |}.

(** [2 ** n] as a rational. *)
Definition pow2 (n : nat) : Q := inject_Z (2 ^ Z.of_nat n).

(** The sum of the sleeps recorded in a log. *)
Definition total_sleep (log : list event) : Q :=
  fold_right (fun ev acc =>
                match ev with Sleep q => (q + acc)%Q | Call _ => acc end)
             0%Q log.

(** A token of the bracket pattern: brackets around a run without a
    closing bracket. *)
Definition is_token (t : str) : Prop :=
  exists body, t = open_bracket :: body ++ [close_bracket] /\
               ~ In close_bracket body.

(** A text without an opening bracket. *)
Definition bracket_free (p : str) : Prop := ~ In open_bracket p.

End TranslateFile.

(** * Properties *)

(** ** Facts about the string helpers *)

Module PyFacts.

Import Py.

Lemma In_firstn (A : Type) (x : A) (n : nat) (l : list A) :
  In x (firstn n l) -> In x l.
Proof.
  intros H. rewrite <- (firstn_skipn n l). apply in_or_app. now left.
Qed.

Lemma eqc_true (a b : ascii) : eqc a b = true <-> a = b.
Proof. apply Ascii.eqb_eq. Qed.

Lemma eqc_refl (a : ascii) : eqc a a = true.
Proof. now apply eqc_true. Qed.

Lemma eqc_false (a b : ascii) : eqc a b = false <-> a <> b.
Proof. apply Ascii.eqb_neq. Qed.

Lemma strip_prefix_app (p r : str) : strip_prefix p (p ++ r) = Some r.
Proof.
  induction p as [|a p IH]; simpl; [reflexivity|].
  now rewrite eqc_refl.
Qed.

Lemma strip_prefix_Some (p s r : str) :
  strip_prefix p s = Some r -> s = p ++ r.
Proof.
  revert s; induction p as [|a p IH]; intros s H; simpl in *.
  - now inversion H.
  - destruct s as [|b s]; [discriminate|].
    destruct (eqc a b) eqn:E; [|discriminate].
    apply eqc_true in E; subst b. f_equal. now apply IH.
Qed.

Lemma strip_prefix_ext (p s r t : str) :
  strip_prefix p s = Some r -> strip_prefix p (s ++ t) = Some (r ++ t).
Proof.
  intros H. apply strip_prefix_Some in H; subst s.
  rewrite <- app_assoc. apply strip_prefix_app.
Qed.

(** A prefix test that succeeds on an extension of [s] already succeeds on
    [s] when [s] is long enough. *)
Lemma strip_prefix_shorten (p s t r' : str) :
  strip_prefix p (s ++ t) = Some r' -> length p <= length s ->
  exists r, strip_prefix p s = Some r /\ r' = r ++ t.
Proof.
  revert s; induction p as [|a p IH]; intros s H L; simpl in *.
  - inversion H; subst. now exists s.
  - destruct s as [|b s]; simpl in *; [lia|].
    destruct (eqc a b); [|discriminate].
    apply IH; [assumption|lia].
Qed.

Lemma startswith_true (p s : str) :
  startswith p s = true <-> exists r, s = p ++ r.
Proof.
  unfold startswith; split.
  - destruct (strip_prefix p s) eqn:E; [|discriminate].
    intros _. eexists. eapply strip_prefix_Some; eassumption.
  - intros [r ->]. now rewrite strip_prefix_app.
Qed.

Lemma find_Some (needle s : str) (n : nat) :
  find needle s = Some n ->
  exists r, skipn n s = needle ++ r /\ n + length needle <= length s.
Proof.
  revert n; induction s as [|c s IH]; intros n; simpl.
  - destruct (startswith needle []) eqn:E; [|discriminate].
    intros H; inversion H; subst. apply startswith_true in E as [r E].
    exists r. split; [exact E|].
    destruct needle; simpl in *; [lia|discriminate].
  - destruct (startswith needle (c :: s)) eqn:E.
    + intros H; inversion H; subst. apply startswith_true in E as [r E].
      exists r. split; [exact E|]. simpl.
      apply (f_equal (@length ascii)) in E. rewrite length_app in E.
      simpl in E. lia.
    + destruct (find needle s) as [k|]; simpl; [|discriminate].
      intros H; inversion H; subst.
      destruct (IH k eq_refl) as [r [Hr Hl]]. exists r. simpl. split; [exact Hr|lia].
Qed.

Lemma find_None (needle s pre post : str) :
  find needle s = None -> s <> pre ++ needle ++ post.
Proof.
  revert pre; induction s as [|c s IH]; intros pre; simpl.
  - destruct (startswith needle []) eqn:E; [discriminate|]. intros _ H.
    destruct pre; simpl in H.
    + assert (startswith needle [] = true) by (apply startswith_true; now exists post).
      congruence.
    + discriminate.
  - destruct (startswith needle (c :: s)) eqn:E; [discriminate|].
    destruct (find needle s) eqn:F; [discriminate|]. intros _ H.
    destruct pre as [|a pre]; simpl in H.
    + assert (startswith needle (c :: s) = true)
        by (apply startswith_true; now exists post).
      congruence.
    + inversion H; subst. now apply (IH pre eq_refl).
Qed.

Lemma find_complete (needle pre post : str) :
  exists n, find needle (pre ++ needle ++ post) = Some n.
Proof.
  destruct (find needle (pre ++ needle ++ post)) eqn:E; [eauto|].
  exfalso. eapply find_None; [exact E|reflexivity].
Qed.

Lemma contains_true (needle s : str) :
  contains needle s = true <-> exists pre post, s = pre ++ needle ++ post.
Proof.
  unfold contains; split.
  - destruct (find needle s) as [n|] eqn:E; [|discriminate]. intros _.
    apply find_Some in E as [r [Hr _]].
    exists (firstn n s), r. rewrite <- Hr. symmetry. apply firstn_skipn.
  - intros [pre [post ->]].
    destruct (find_complete needle pre post) as [n ->]. reflexivity.
Qed.

Lemma find_char_Some (c : ascii) (s : str) (n : nat) :
  find_char c s = Some n ->
  s = firstn n s ++ c :: skipn (S n) s /\ ~ In c (firstn n s) /\ n < length s.
Proof.
  revert n; induction s as [|b s IH]; intros n; simpl; [discriminate|].
  destruct (eqc c b) eqn:E.
  - intros H; inversion H; subst. apply eqc_true in E; subst b.
    simpl. repeat split; [tauto|lia].
  - destruct (find_char c s) as [k|]; simpl; [|discriminate].
    intros H; inversion H; subst.
    destruct (IH k eq_refl) as [H1 [H2 H3]]. apply eqc_false in E.
    simpl. repeat split.
    + f_equal. exact H1.
    + intros [?|?]; [congruence|tauto].
    + lia.
Qed.

Lemma find_char_None (c : ascii) (s : str) :
  find_char c s = None <-> ~ In c s.
Proof.
  induction s as [|b s IH]; simpl; [tauto|].
  destruct (eqc c b) eqn:E.
  - apply eqc_true in E; subst. split; [discriminate|tauto].
  - apply eqc_false in E. destruct (find_char c s); simpl.
    + split; [discriminate|]. intros H. exfalso. apply H. right.
      destruct IH as [_ IH]. destruct (in_dec ascii_dec c s); [assumption|].
      specialize (IH n0). discriminate.
    + split; [|reflexivity]. intros _ [?|?]; [congruence|]. now apply IH.
Qed.

Lemma find_char_ext (c : ascii) (s t : str) (n : nat) :
  find_char c s = Some n -> find_char c (s ++ t) = Some n.
Proof.
  revert n; induction s as [|b s IH]; intros n; simpl; [discriminate|].
  destruct (eqc c b); [trivial|].
  destruct (find_char c s); simpl; [|discriminate].
  intros H. now rewrite (IH _ eq_refl).
Qed.

Lemma find_char_In (c : ascii) (s : str) :
  In c s -> exists n, find_char c s = Some n.
Proof.
  intros H. destruct (find_char c s) eqn:E; [eauto|].
  now apply find_char_None in E.
Qed.

Lemma str_eqb_true (a b : str) : str_eqb a b = true <-> a = b.
Proof.
  revert b; induction a as [|x a IH]; intros [|y b]; simpl;
    try (split; [discriminate|discriminate]); [tauto|].
  rewrite andb_true_iff, eqc_true, IH. split.
  - intros [-> ->]; reflexivity.
  - intros H; inversion H; auto.
Qed.

Lemma str_eqb_refl (a : str) : str_eqb a a = true.
Proof. now apply str_eqb_true. Qed.

Lemma str_eqb_false (a b : str) : str_eqb a b = false <-> a <> b.
Proof.
  destruct (str_eqb a b) eqn:E.
  - apply str_eqb_true in E. split; [discriminate|congruence].
  - split; [|reflexivity]. intros _ H. apply str_eqb_true in H. congruence.
Qed.

Lemma splice_slice (s : str) (a b : nat) :
  a <= b -> Segments.splice s a b (slice s a b) = s.
Proof.
  intros L. unfold Segments.splice, slice.
  rewrite <- (firstn_skipn a s) at 4.
  f_equal.
  rewrite <- (firstn_skipn (b - a) (skipn a s)) at 2.
  f_equal. rewrite skipn_skipn. f_equal. lia.
Qed.

End PyFacts.

(** ** Facts about the scanning functions *)

Module ReFacts.

Import Py Re PyFacts.

Section Scan.
Variables (G : Type) (rx : regex G).

(** Every reported match is a match of the pattern at its start offset. *)
Lemma finditer_from_In (m : Match G) :
  forall s prev pos skip,
  In m (finditer_from rx prev pos skip s) ->
  exists k prev' len,
    skip <= k /\ k < length s /\
    rx prev' (skipn k s) = Some (m_groups m, len) /\
    m_start m = pos + k /\ m_end m = pos + k + len.
Proof.
  induction s as [|c s IH]; intros prev pos skip H; simpl in H; [tauto|].
  destruct skip as [|skip].
  - destruct (rx prev (c :: s)) as [[g len]|] eqn:E.
    + destruct H as [<-|H].
      * exists 0, prev, len. simpl. repeat split; try lia. exact E.
      * apply IH in H as (k & prev' & len' & H1 & H2 & H3 & H4 & H5).
        exists (S k), prev', len'. simpl. repeat split; try lia. exact H3.
    + apply IH in H as (k & prev' & len' & H1 & H2 & H3 & H4 & H5).
      exists (S k), prev', len'. simpl. repeat split; try lia. exact H3.
  - apply IH in H as (k & prev' & len' & H1 & H2 & H3 & H4 & H5).
    exists (S k), prev', len'. simpl. repeat split; try lia. exact H3.
Qed.

Lemma finditer_from_start (m : Match G) s prev pos skip :
  In m (finditer_from rx prev pos skip s) -> pos + skip <= m_start m.
Proof.
  intros H. apply finditer_from_In in H as (k & _ & _ & H1 & _ & _ & H4 & _).
  lia.
Qed.

(** Matches come in document order and do not overlap. *)
Lemma finditer_from_ordered :
  forall s prev pos skip,
  ForallOrdPairs (fun a b => m_end a <= m_start b)
                 (finditer_from rx prev pos skip s).
Proof.
  induction s as [|c s IH]; intros prev pos skip; simpl; [constructor|].
  destruct skip as [|skip]; [|apply IH].
  destruct (rx prev (c :: s)) as [[g len]|]; [|apply IH].
  constructor; [|apply IH].
  apply Forall_forall. intros b Hb. apply finditer_from_start in Hb.
  simpl. lia.
Qed.

Lemma search_from_Some (m : Match G) :
  forall s prev pos,
  search_from rx prev pos s = Some m ->
  exists k prev' len,
    k < length s /\ rx prev' (skipn k s) = Some (m_groups m, len) /\
    m_start m = pos + k /\ m_end m = pos + k + len.
Proof.
  induction s as [|c s IH]; intros prev pos H; simpl in H; [discriminate|].
  destruct (rx prev (c :: s)) as [[g len]|] eqn:E.
  - inversion H; subst; simpl. exists 0, prev, len. simpl.
    repeat split; try lia. exact E.
  - apply IH in H as (k & prev' & len' & H2 & H3 & H4 & H5).
    exists (S k), prev', len'. simpl. repeat split; try lia. exact H3.
Qed.

(** [search] reports the leftmost match. *)
Lemma search_from_leftmost (m : Match G) :
  forall s prev pos,
  search_from rx prev pos s = Some m ->
  forall j, pos + j < m_start m -> rx (prev_at prev s j) (skipn j s) = None.
Proof.
  induction s as [|c s IH]; intros prev pos H j Hj; simpl in H;
    [discriminate|].
  destruct (rx prev (c :: s)) as [[g len]|] eqn:E.
  - injection H as <-. simpl in Hj. lia.
  - destruct j as [|j]; [exact E|].
    specialize (IH _ _ H j ltac:(lia)).
    destruct j; exact IH.
Qed.

Lemma search_from_shift (d : nat) :
  forall s prev pos,
  search_from rx prev (d + pos) s = option_map (shift d) (search_from rx prev pos s).
Proof.
  induction s as [|c s IH]; intros prev pos; simpl; [reflexivity|].
  destruct (rx prev (c :: s)) as [[g len]|].
  - simpl. unfold shift; simpl. do 2 f_equal. lia.
  - rewrite <- IH. f_equal. lia.
Qed.
End Scan.

(** The shape of the text at a shortcode match. *)
Lemma shortcode_at_Some (tag s : str) (g : Shortcode) (len : nat) :
  shortcode_at tag s = Some (g, len) ->
  exists rest,
    s = open_bracket :: tag ++ g_attrs g ++ close_bracket :: g_body g
        ++ closing_tag tag ++ rest /\
    g_tag g = tag /\
    g_body_start g = 1 + length tag + length (g_attrs g) + 1 /\
    len = g_body_start g + length (g_body g) + length (closing_tag tag) /\
    ~ In close_bracket (g_attrs g) /\
    boundary (last_char None tag) (hd_error (g_attrs g ++ [close_bracket]))
    = true.
Proof.
  unfold shortcode_at. intros H.
  destruct (strip_prefix (open_bracket :: tag) s) as [r|] eqn:P; [|discriminate].
  destruct (boundary (last_char None tag) (hd_error r)) eqn:B; [|discriminate].
  destruct (find_char close_bracket r) as [n|] eqn:F; [|discriminate].
  remember (skipn (S n) r) as tl eqn:Htl.
  destruct (find (closing_tag tag) tl) as [k|] eqn:C; [|discriminate].
  injection H as Hg Hl. subst g len. cbn [g_attrs g_body g_tag g_body_start].
  apply strip_prefix_Some in P.
  apply find_char_Some in F as (F1 & F2 & F3). rewrite <- Htl in F1.
  apply find_Some in C as (rest & C1 & C2).
  assert (Hn : length (firstn n r) = n) by (apply firstn_length_le; lia).
  assert (Hk : length (firstn k tl) = k) by (apply firstn_length_le; lia).
  exists rest. repeat apply conj.
  - rewrite P. cbn [app]. f_equal. f_equal. rewrite F1 at 1. f_equal. f_equal.
    rewrite <- (firstn_skipn k tl) at 1. now rewrite C1.
  - reflexivity.
  - rewrite Hn. lia.
  - rewrite Hk. unfold closing_tag. cbn [lit list_ascii_of_string app length].
    rewrite ?length_app. cbn [length]. lia.
  - exact F2.
  - rewrite F1 in B. destruct (firstn n r); exact B.
Qed.

End ReFacts.

(** ** The integrity check and the retry loop *)

Module TranslateProps.

Import Py Re PyFacts Translate.

Lemma list_eqb_true (a b : list str) : list_eqb a b = true <-> a = b.
Proof.
  revert b; induction a as [|x a IH]; intros [|y b]; simpl;
    try (split; discriminate); [tauto|].
  rewrite andb_true_iff, str_eqb_true, IH. split.
  - intros [-> ->]; reflexivity.
  - intros H; inversion H; auto.
Qed.

Lemma list_eqb_refl (a : list str) : list_eqb a a = true.
Proof. now apply list_eqb_true. Qed.

(** C4, as the specification states it, fails: a text that contains a
    deny-listed token is flagged even when the candidate is the original
    itself (and the two token lists are therefore equal).  A closing toggle
    tag is such a text, since [fusion_toggle]] ends with [on_toggle]]. *)
Lemma C4_equal_texts_flagged :
  let t := lit "a[/fusion_toggle]b" in
  findall BRACKET_RX t = [lit "[/fusion_toggle]"] /\ is_corrupt t t = true.
Proof. split; reflexivity. Qed.

(** C4 (amended): a pair is marked corrupt whenever the ordered lists of
    bracket tokens of the original and of the candidate differ; when the
    candidate equals the original, it is marked corrupt exactly when the
    text contains a deny-listed substring, so never when it contains
    none. *)
Theorem C4_integrity_predicate (original candidate : str) :
  (findall BRACKET_RX original <> findall BRACKET_RX candidate ->
   is_corrupt original candidate = true) /\
  is_corrupt candidate candidate = has_bad_token candidate /\
  (has_bad_token candidate = false -> is_corrupt candidate candidate = false).
Proof.
  assert (E : is_corrupt candidate candidate = has_bad_token candidate).
  { unfold is_corrupt, has_bad_token. rewrite list_eqb_refl. simpl negb.
    cbv iota. now destruct (existsb _ BAD_TOKENS). }
  split; [|split; [exact E|congruence]].
  intros H. unfold is_corrupt.
  destruct (list_eqb _ _) eqn:L; [|reflexivity].
  apply list_eqb_true in L. contradiction.
Qed.

Lemma C4_integrity_predicate_witness :
  is_corrupt (lit "a [b] c") (lit "a [x] c") = true /\
  is_corrupt (lit "a [b] c") (lit "a [b] c") = false.
Proof.
  split.
  - apply (proj1 (C4_integrity_predicate (lit "a [b] c") (lit "a [x] c"))).
    vm_compute. discriminate.
  - apply (proj2 (proj2 (C4_integrity_predicate (lit "a [b] c") (lit "a [b] c")))).
    reflexivity.
Defined.

Lemma lower_app (a b : str) : lower (a ++ b) = lower a ++ lower b.
Proof. apply map_app. Qed.

(** C8: whatever the original, a candidate that contains [off_toggle]] in
    any mix of upper and lower case is marked corrupt, also when its
    bracket tokens are those of the original. *)
Theorem C8_deny_list_override (original candidate pre mid post : str) :
  candidate = pre ++ mid ++ post ->
  lower mid = lit "off_toggle]" ->
  is_corrupt original candidate = true.
Proof.
  intros -> Hm. unfold is_corrupt.
  destruct (negb _); [reflexivity|].
  assert (C : contains (lit "off_toggle]") (lower (pre ++ mid ++ post)) = true).
  { apply contains_true. exists (lower pre), (lower post).
    now rewrite !lower_app, Hm. }
  unfold BAD_TOKENS. cbn [existsb]. rewrite C, orb_true_r. reflexivity.
Qed.

Lemma C8_deny_list_override_witness :
  findall BRACKET_RX (lit "[x] a")
  = findall BRACKET_RX (lit "[x] OFF_Toggle] b")
  /\ is_corrupt (lit "[x] a") (lit "[x] OFF_Toggle] b") = true.
Proof.
  split; [reflexivity|].
  apply (@C8_deny_list_override (lit "[x] a") (lit "[x] OFF_Toggle] b")
           (lit "[x] ") (lit "OFF_Toggle]") (lit " b")); reflexivity.
Defined.

Section RetryProps.
Variables (E U : Type) (service : nat -> outcome E U).
Variables (segments : list Segments.JSeg) (sleep_base : Q).
Hypothesis base_nonneg : (0 <= sleep_base)%Q.


(** The four ways an attempt fails, and no other. *)
Lemma checked_rejected (o : outcome E U) :
  (exists e, checked segments o = inr e) <-> rejected segments o.
Proof.
  destruct o as [x|[translated|] usage]; simpl;
    try (split; [trivial|intros _; eexists; reflexivity]).
  destruct (length translated =? length segments) eqn:L; simpl.
  2:{ apply Nat.eqb_neq in L. split; [tauto|intros _; eexists; reflexivity]. }
  apply Nat.eqb_eq in L.
  destruct (existsb _ segments) eqn:X.
  { split; [|intros _; eexists; reflexivity]. intros _. right; left.
    apply existsb_exists in X as (s & Hs & X). exists s. split; [exact Hs|].
    unfold Segments.dict_mem in X. now destruct (Segments.dict_get _ _). }
  assert (NX : forall s, In s segments ->
               Segments.dict_get (Segments.j_id s) (text_map translated) <> None).
  { intros s Hs Hn.
    assert (existsb (fun s => negb (Segments.dict_mem (Segments.j_id s)
                                      (text_map translated))) segments = true).
    { apply existsb_exists. exists s. split; [exact Hs|].
      unfold Segments.dict_mem. now rewrite Hn. }
    congruence. }
  match goal with |- context [filter ?f segments] =>
    destruct (filter f segments) as [|b bad] eqn:F end.
  - split; [intros [e He]; discriminate|].
    intros [H|[(s & Hs & H)|(s & t & Hs & Hg & Hc)]].
    + contradiction.
    + now apply NX in H.
    + exfalso.
      match type of F with filter ?f _ = _ =>
        assert (Hin : In s (filter f segments))
          by (apply filter_In; split; [exact Hs|now rewrite Hg]) end.
      rewrite F in Hin. exact Hin.
  - split; [|intros _; eexists; reflexivity]. intros _. right; right.
    match type of F with filter ?f _ = _ =>
      assert (Hin : In b (filter f segments)) by (rewrite F; now left) end.
    apply filter_In in Hin as [Hb Hc].
    destruct (Segments.dict_get (Segments.j_id b) (text_map translated))
      as [t|] eqn:G; [|discriminate].
    exists b, t. auto.
Qed.

Lemma backoff_nonneg (i : nat) : negative (backoff sleep_base i) = false.
Proof.
  unfold negative, backoff. apply negb_false_iff, Qle_bool_iff.
  apply Qmult_le_0_compat; [exact base_nonneg|].
  unfold Qle; simpl. rewrite Z.mul_1_r. apply Z.pow_nonneg. lia.
Qed.

Lemma calls_app (l l' : list (event)) : calls (l ++ l') = calls l + calls l'.
Proof. unfold calls. now rewrite filter_app, length_app. Qed.

Lemma retry_loop_calls (n : nat) :
  forall a last log,
  calls (fst (retry_loop service segments sleep_base n a last log))
  <= calls log + n.
Proof.
  induction n as [|n IH]; intros a last log; cbn [retry_loop fst]; [lia|].
  assert (C : calls (log ++ [Call a]) = calls log + 1)
    by (rewrite calls_app; reflexivity).
  destruct (checked segments (service a)) as [r|e]; cbn [fst]; [lia|].
  destruct (negative _); cbn [fst]; [lia|].
  eapply Nat.le_trans; [apply IH|]. rewrite calls_app, C.
  change (calls [Sleep (backoff sleep_base a)]) with 0. lia.
Qed.

Lemma failed_attempts_S (a k : nat) :
  failed_attempts sleep_base a (S k)
  = [Call a; Sleep (backoff sleep_base a)]
    ++ failed_attempts sleep_base (S a) k.
Proof. reflexivity. Qed.

(** A first success at attempt [a + k] ends the loop there. *)
Lemma retry_loop_success (n : nat) :
  forall a last log k r,
  k < n ->
  (forall i, i < k -> failed service segments (a + i)) ->
  checked segments (service (a + k)) = inl r ->
  retry_loop service segments sleep_base n a last log
  = (log ++ failed_attempts sleep_base a k ++ [Call (a + k)], inl r).
Proof.
  induction n as [|n IH]; intros a last log k r Hk Hf Hs; [lia|].
  destruct k as [|k].
  - rewrite Nat.add_0_r in Hs. simpl. rewrite Hs, Nat.add_0_r. reflexivity.
  - destruct (Hf 0 ltac:(lia)) as [e He]. rewrite Nat.add_0_r in He.
    cbn [retry_loop]. rewrite He, backoff_nonneg.
    rewrite (IH (S a) (Some e) _ k r); try lia.
    + rewrite failed_attempts_S, <- !app_assoc.
      replace (S a + k) with (a + S k) by lia. reflexivity.
    + intros i Hi. replace (S a + i) with (a + S i) by lia.
      apply Hf. lia.
    + replace (S a + k) with (a + S k) by lia. exact Hs.
Qed.

(** When every attempt fails, the error of the last one is raised. *)
Lemma retry_loop_exhausted (n : nat) :
  forall a last log e,
  (forall i, i < S n -> failed service segments (a + i)) ->
  checked segments (service (a + n)) = inr e ->
  retry_loop service segments sleep_base (S n) a last log
  = (log ++ failed_attempts sleep_base a (S n), inr e).
Proof.
  induction n as [|n IH]; intros a last log e Hf He.
  - rewrite Nat.add_0_r in He. cbn [retry_loop].
    rewrite He, backoff_nonneg. rewrite <- app_assoc. reflexivity.
  - destruct (Hf 0 ltac:(lia)) as [e0 He0]. rewrite Nat.add_0_r in He0.
    cbn [retry_loop]. rewrite He0, backoff_nonneg.
    change (retry_loop service segments sleep_base (S n) (S a) (Some e0)
              ((log ++ [Call a]) ++ [Sleep (backoff sleep_base a)])
            = (log ++ failed_attempts sleep_base a (S (S n)), inr e)).
    rewrite (IH (S a) (Some e0) _ e).
    + rewrite (failed_attempts_S a (S n)), <- !app_assoc. reflexivity.
    + intros i Hi. replace (S a + i) with (a + S i) by lia. apply Hf. lia.
    + replace (S a + n) with (a + S n) by lia. exact He.
Qed.

(** C10: with [max_retries = M >= 1] the service is called at most [M]
    times; each failed attempt [n] (the call raised, or the response
    failed the count, missing-id or integrity check) is followed by a
    sleep of [sleep_base * 2^n] and, while attempts remain, by the next
    attempt; a first validated response at attempt [k] is returned at
    once, the log ending with that call; after [M] failed attempts the
    error of the last attempt is raised. *)
Theorem C10_retry_machine (M : nat) :
  1 <= M ->
  let run := translate_segments service segments M sleep_base in
  calls (fst run) <= M /\
  (forall k r,
     k < M -> (forall i, i < k -> failed service segments i) ->
     checked segments (service k) = inl r ->
     run = (failed_attempts sleep_base 0 k ++ [Call k], inl r)) /\
  (forall e,
     (forall i, i < M -> failed service segments i) ->
     checked segments (service (M - 1)) = inr e ->
     run = (failed_attempts sleep_base 0 M, inr e)) /\
  (forall i, failed service segments i <-> rejected segments (service i)).
Proof.
  intros HM run. unfold run, translate_segments. repeat apply conj.
  - apply (retry_loop_calls M 0 None []).
  - intros k r Hk Hf Hs.
    apply (retry_loop_success (n := M) 0 None [] (k := k) Hk Hf Hs).
  - intros e Hf He. destruct M as [|n]; [lia|].
    replace (S n - 1) with n in He by lia.
    apply (retry_loop_exhausted (n := n) 0 None [] Hf He).
  - intros i. apply checked_rejected.
Qed.
End RetryProps.

Lemma C10_retry_machine_witness :
  translate_segments example_service example_batch 3 (1 # 5)
  = ([Call 0; Sleep (backoff (1 # 5) 0); Call 1; Sleep (backoff (1 # 5) 1);
      Call 2],
     inl (Some [{| t_id := lit "a1"; t_text := lit "Bonjour [b]" |}], tt)).
Proof.
  assert (B : (0 <= 1 # 5)%Q) by (unfold Qle; simpl; lia).
  assert (M : 1 <= 3) by lia.
  apply (proj1 (proj2 (C10_retry_machine example_service example_batch B M))
           2).
  - lia.
  - intros [|[|i]] Hi; [eexists; reflexivity|eexists; reflexivity|lia].
  - reflexivity.
Defined.

End TranslateProps.

(** ** Stable ids *)

Module IdProps.

Import Py PyFacts Segments.

(** *** The digest is a word of hexadecimal digits *)

Lemma hexdigit_In (n : N) : In (Sha1.hexdigit n) Sha1.hexchars.
Proof.
  unfold Sha1.hexdigit. apply nth_In.
  change (length Sha1.hexchars) with 16.
  assert (n mod 16 < 16)%N by (apply N.mod_lt; discriminate). lia.
Qed.

Lemma hex_length (k : nat) : forall x, length (Sha1.hex k x) = k.
Proof.
  induction k as [|k IH]; intros x; simpl; [reflexivity|].
  rewrite length_app, IH. simpl. lia.
Qed.

Lemma hex_digits (k : nat) :
  forall x, Forall (fun c => In c Sha1.hexchars) (Sha1.hex k x).
Proof.
  induction k as [|k IH]; intros x; simpl; [constructor|].
  apply Forall_app. split; [apply IH|].
  constructor; [apply hexdigit_In|constructor].
Qed.

Lemma digest_words (msg : list N) :
  exists a b c d e, Sha1.digest msg = [a; b; c; d; e].
Proof.
  unfold Sha1.digest.
  destruct (Sha1.blocks _ _ _) as [[[[a b] c] d] e]. now exists a, b, c, d, e.
Qed.

Lemma stable_id_length source_key kind idx start end_ text :
  length (stable_id source_key kind idx start end_ text) = 16.
Proof.
  unfold stable_id, Sha1.hexdigest.
  destruct (digest_words (id_preimage source_key kind idx start end_ text))
    as (a & b & c & d & e & ->).
  cbn [flat_map]. rewrite length_firstn, !length_app, !hex_length. reflexivity.
Qed.

Lemma stable_id_hex source_key kind idx start end_ text :
  Forall (fun c => In c Sha1.hexchars)
         (stable_id source_key kind idx start end_ text).
Proof.
  unfold stable_id, Sha1.hexdigest.
  destruct (digest_words (id_preimage source_key kind idx start end_ text))
    as (a & b & c & d & e & ->).
  apply Forall_forall. intros x Hx. apply In_firstn in Hx.
  cbn [flat_map] in Hx.
  repeat (apply in_app_or in Hx as [Hx|Hx];
          [exact (proj1 (Forall_forall _ _) (hex_digits 8 _) x Hx)|]).
  destruct Hx.
Qed.

Lemma all_words_complete (k : nat) :
  forall w, length w = k -> Forall (fun c => In c Sha1.hexchars) w ->
            In w (Sha1.all_words k).
Proof.
  induction k as [|k IH]; intros w L F.
  - destruct w; [now left|discriminate].
  - destruct w as [|c w]; [discriminate|].
    inversion F; subst. cbn [Sha1.all_words].
    apply in_flat_map. exists c. split; [assumption|].
    apply in_map, IH; [simpl in L; lia|assumption].
Qed.

(** *** No injection from the naturals into a finite list *)

Lemma no_injection_into_list (A : Type) (g : nat -> A) (L : list A) :
  (forall i, In (g i) L) -> ~ (forall i j, g i = g j -> i = j).
Proof.
  intros Hin Hinj.
  assert (ND : NoDup (map g (seq 0 (S (length L))))).
  { generalize (seq_NoDup (S (length L)) 0).
    generalize (seq 0 (S (length L))) as l.
    induction l as [|x l IH]; intros N; [constructor|].
    inversion N; subst. cbn [map]. constructor; [|now apply IH].
    intros H. apply in_map_iff in H as (y & Hy & Hl).
    apply Hinj in Hy. now subst. }
  apply NoDup_incl_length with (l' := L) in ND.
  - rewrite length_map, length_seq in ND. lia.
  - intros x Hx. apply in_map_iff in Hx as (i & <- & _). apply Hin.
Qed.

(** *** The hashed bytes determine the inputs, one at a time *)

Lemma code_inj (a b : ascii) : code a = code b -> a = b.
Proof.
  unfold code. intros H.
  rewrite <- (ascii_N_embedding a), <- (ascii_N_embedding b). now rewrite H.
Qed.

Lemma utf8_char_cases (c : ascii) :
  ((code c < 128)%N /\ utf8_char c = [code c]) \/
  (exists hi lo,
     utf8_char c = [hi; lo] /\ (192 <= hi)%N /\ (128 <= lo < 192)%N /\
     code c = (64 * (hi - 192) + (lo - 128))%N).
Proof.
  unfold utf8_char. pose proof (N_ascii_bounded c) as B. fold (code c) in B.
  destruct (N.ltb_spec (code c) 128); [left; split; auto|right].
  exists (192 + code c / 64)%N, (128 + code c mod 64)%N.
  assert (code c mod 64 < 64)%N by (apply N.mod_lt; discriminate).
  pose proof (N.div_mod (code c) 64 ltac:(discriminate)) as D.
  revert H0 D. generalize (code c / 64)%N (code c mod 64)%N. intros q r H0 D.
  repeat apply conj; try reflexivity; lia.
Qed.

Lemma encode_utf8_inj (a : str) :
  forall b, encode_utf8 a = encode_utf8 b -> a = b.
Proof.
  induction a as [|x a IH]; intros [|y b] H.
  - reflexivity.
  - exfalso. cbn [encode_utf8 flat_map] in H.
    destruct (utf8_char_cases y) as [[_ E]|(hi & lo & E & _)];
      rewrite E in H; discriminate.
  - exfalso. cbn [encode_utf8 flat_map] in H.
    destruct (utf8_char_cases x) as [[_ E]|(hi & lo & E & _)];
      rewrite E in H; discriminate.
  - cbn [encode_utf8 flat_map] in H.
    destruct (utf8_char_cases x) as [[Lx Ex]|(hx & lx & Ex & Hx & Lx & Cx)];
      destruct (utf8_char_cases y) as [[Ly Ey]|(hy & ly & Ey & Hy & Ly & Cy)];
      rewrite Ex, Ey in H; cbn [app] in H.
    + injection H as Hc Ht. apply code_inj in Hc. subst. f_equal. now apply IH.
    + exfalso. injection H as Hc _. lia.
    + exfalso. injection H as Hc _. lia.
    + injection H as H1 H2 Ht. subst hy ly. rewrite <- Cx in Cy.
      symmetry in Cy. apply code_inj in Cy. subst. f_equal. now apply IH.
Qed.

Lemma list_ascii_of_string_inj (s t : string) :
  list_ascii_of_string s = list_ascii_of_string t -> s = t.
Proof.
  intros H. rewrite <- (string_of_list_ascii_of_string s),
              <- (string_of_list_ascii_of_string t). now rewrite H.
Qed.

Lemma to_int_proper (z : Z) :
  Z.to_int z <> Decimal.Pos Decimal.Nil /\ Z.to_int z <> Decimal.Neg Decimal.Nil.
Proof.
  destruct z as [|p|p]; simpl; split; try discriminate;
    intros H; injection H as H; now apply DecimalPos.Unsigned.to_uint_nonnil in H.
Qed.

Lemma str_of_int_inj (z z' : Z) : str_of_int z = str_of_int z' -> z = z'.
Proof.
  unfold str_of_int. intros H. apply list_ascii_of_string_inj in H.
  apply DecimalZ.to_int_inj.
  destruct (to_int_proper z) as [P N], (to_int_proper z') as [P' N'].
  pose proof (DecimalString.NilZero.isi _ P N) as E.
  pose proof (DecimalString.NilZero.isi _ P' N') as E'.
  rewrite H in E. congruence.
Qed.

Lemma uint_no_bar (d : Decimal.uint) :
  ~ In bar_char
       (list_ascii_of_string (DecimalString.NilEmpty.string_of_uint d)).
Proof.
  induction d; simpl; try tauto;
    (intros [H|H]; [discriminate H|exact (IHd H)]).
Qed.

Lemma str_of_int_no_bar (z : Z) : ~ In bar_char (str_of_int z).
Proof.
  unfold str_of_int.
  assert (U : forall d, ~ In bar_char (list_ascii_of_string
                           (DecimalString.NilZero.string_of_uint d))).
  { intros d. destruct d; try apply uint_no_bar.
    simpl. intros [H|[]]. discriminate H. }
  destruct (Z.to_int z) as [d|d]; simpl; [apply U|].
  intros [H|H]; [discriminate H|exact (U d H)].
Qed.

Lemma split_at_bar (a : str) :
  forall a' b b',
  ~ In bar_char a -> ~ In bar_char a' ->
  a ++ bar_char :: b = a' ++ bar_char :: b' -> a = a' /\ b = b'.
Proof.
  induction a as [|x a IH]; intros [|y a'] b b' N N' H; simpl in *.
  - injection H as H. auto.
  - injection H as H _. exfalso. apply N'. now left.
  - injection H as H _. exfalso. apply N. now left.
  - injection H as Hx H.
    destruct (IH a' b b') as [-> ->]; try tauto. subst. auto.
Qed.

Lemma id_preimage_chars (k kd : str) (i s e : Z) (t : str) :
  id_preimage k kd i s e t = encode_utf8 (id_header k kd i s e ++ t).
Proof. unfold id_preimage, encode_utf8. now rewrite flat_map_app. Qed.

Lemma id_preimage_one_changed k kd i s e t k' kd' i' s' e' t' :
  one_changed k kd i s e t k' kd' i' s' e' t' ->
  id_preimage k kd i s e t <> id_preimage k' kd' i' s' e' t'.
Proof.
  intros C H. rewrite !id_preimage_chars in H. apply encode_utf8_inj in H.
  unfold id_header, bar in H. rewrite <- !app_assoc in H. cbn [app] in H.
  destruct C as [C|[C|[C|[C|C]]]].
  - destruct C as (N & -> & -> & [-> ->] & ->).
    apply app_inv_tail in H. contradiction.
  - destruct C as (-> & N & -> & [-> ->] & ->).
    apply app_inv_head in H. injection H as H.
    apply app_inv_tail in H. contradiction.
  - destruct C as (-> & -> & N & [-> ->] & ->).
    apply app_inv_head in H. injection H as H. apply app_inv_head in H.
    injection H as H. apply app_inv_tail in H.
    apply str_of_int_inj in H. contradiction.
  - destruct C as (-> & -> & -> & N & ->).
    apply app_inv_head in H. injection H as H. apply app_inv_head in H.
    injection H as H. apply app_inv_head in H. injection H as H.
    change (str_of_int s ++ bar_char :: str_of_int e ++ t')
      with (str_of_int s ++ (bar_char :: str_of_int e) ++ t') in H.
    change (str_of_int s' ++ bar_char :: str_of_int e' ++ t')
      with (str_of_int s' ++ (bar_char :: str_of_int e') ++ t') in H.
    rewrite !app_assoc in H. apply app_inv_tail in H.
    apply split_at_bar in H as [Hs He]; try apply str_of_int_no_bar.
    apply str_of_int_inj in Hs, He. tauto.
  - destruct C as (-> & -> & -> & [-> ->] & N).
    apply app_inv_head in H. injection H as H. apply app_inv_head in H.
    injection H as H. apply app_inv_head in H. injection H as H.
    apply app_inv_head in H. injection H as H. apply app_inv_head in H.
    contradiction.
Qed.

(** C5, as the specification states it, fails: ids are 16 hexadecimal
    digits, so changing the text alone cannot always change the id. *)
Lemma C5_ids_collide :
  ~ (forall k kd i s e t t',
       t <> t' -> stable_id k kd i s e t <> stable_id k kd i s e t').
Proof.
  intros Claim.
  set (g := fun n : nat =>
              stable_id [] [] 0 0 0 (repeat "a"%char n)).
  apply (@no_injection_into_list _ g (Sha1.all_words 16)).
  - intros n. apply all_words_complete;
      [apply stable_id_length|apply stable_id_hex].
  - intros n m E. destruct (Nat.eq_dec n m) as [|D]; [assumption|].
    exfalso. apply (Claim [] [] 0%Z 0%Z 0%Z (repeat "a"%char n)
                          (repeat "a"%char m)); [|exact E].
    intros R. apply D. apply (f_equal (@length ascii)) in R.
    now rewrite !repeat_length in R.
Qed.

(** C5 (amended): the generator is a function of its inputs that returns
    16 hexadecimal digits, the head of the SHA-1 digest of the hashed
    bytes; changing exactly one of the five inputs (source key, kind,
    index, offsets, text) changes the hashed bytes, so that the two ids
    differ unless the truncated digests collide. *)
Theorem C5_stable_id k kd i s e t k' kd' i' s' e' t' :
  (k = k' -> kd = kd' -> i = i' -> s = s' -> e = e' -> t = t' ->
   stable_id k kd i s e t = stable_id k' kd' i' s' e' t') /\
  length (stable_id k kd i s e t) = 16 /\
  Forall (fun c => In c Sha1.hexchars) (stable_id k kd i s e t) /\
  stable_id k kd i s e t
  = firstn 16 (Sha1.hexdigest (id_preimage k kd i s e t)) /\
  (one_changed k kd i s e t k' kd' i' s' e' t' ->
   id_preimage k kd i s e t <> id_preimage k' kd' i' s' e' t').
Proof.
  repeat apply conj.
  - now intros -> -> -> -> -> ->.
  - apply stable_id_length.
  - apply stable_id_hex.
  - reflexivity.
  - apply id_preimage_one_changed.
Qed.

Lemma C5_stable_id_witness :
  id_preimage (lit "c.txt") (lit "fusion_text") 0 14 19 (lit "Hello")
  <> id_preimage (lit "c.txt") (lit "fusion_text") 0 1 419 (lit "Hello").
Proof.
  apply (proj2 (proj2 (proj2 (proj2
    (C5_stable_id (lit "c.txt") (lit "fusion_text") 0 14 19 (lit "Hello")
                  (lit "c.txt") (lit "fusion_text") 0 1 419 (lit "Hello")))))).
  right; right; right; left.
  repeat apply conj; try reflexivity. left. discriminate.
Defined.

End IdProps.

(** ** The extractor *)

Module ExtractProps.

Import Py Re PyFacts ReFacts Segments.

(** *** Loops and sorting *)

(** An invariant of a [for] loop over [l], stated on the part of [l]
    already processed. *)
Lemma fold_left_prefix_inv (X S : Type) (f : S -> X -> S)
    (I : list X -> S -> Prop) (l : list X) (s0 : S) :
  I [] s0 ->
  (forall done x rest st,
     l = done ++ x :: rest -> I done st -> I (done ++ [x]) (f st x)) ->
  I l (fold_left f l s0).
Proof.
  intros H0 Hstep.
  enough (G : forall rest done st,
             l = done ++ rest -> I done st -> I l (fold_left f rest st))
    by (apply (G l [] s0); auto).
  induction rest as [|x rest IH]; intros done st E Hi; simpl.
  - rewrite app_nil_r in E. now subst.
  - apply (IH (done ++ [x])).
    + rewrite <- app_assoc. exact E.
    + eapply Hstep; eauto.
Qed.

Section SortFacts.
Variables (A K : Type) (key : A -> K) (le : K -> K -> bool).

Lemma insert_sorted_perm (x : A) (l : list A) :
  Permutation (insert_sorted key le x l) (x :: l).
Proof.
  induction l as [|y l IH]; simpl; [reflexivity|].
  destruct (le (key x) (key y)); [reflexivity|].
  rewrite IH. apply perm_swap.
Qed.

Lemma sort_by_perm (l : list A) : Permutation (sort_by key le l) l.
Proof.
  induction l as [|x l IH]; simpl; [reflexivity|].
  rewrite insert_sorted_perm. now constructor.
Qed.
End SortFacts.

Section Pairs.
Variables (A : Type) (R : A -> A -> Prop).

Lemma FOP_app (l1 l2 : list A) :
  ForallOrdPairs R l1 -> ForallOrdPairs R l2 ->
  (forall a b, In a l1 -> In b l2 -> R a b) ->
  ForallOrdPairs R (l1 ++ l2).
Proof.
  induction l1 as [|x l1 IH]; intros H1 H2 H12; simpl; [assumption|].
  inversion H1; subst. constructor.
  - apply Forall_app. split; [assumption|].
    apply Forall_forall. intros b Hb. apply H12; [now left|assumption].
  - apply IH; auto. intros a b Ha Hb. apply H12; [now right|assumption].
Qed.

Lemma FOP_middle (l1 l2 : list A) (x : A) :
  ForallOrdPairs R (l1 ++ x :: l2) -> forall a, In a l1 -> R a x.
Proof.
  induction l1 as [|y l1 IH]; intros H a Ha; [destruct Ha|].
  simpl in H. inversion H; subst. destruct Ha as [<-|Ha].
  - rewrite Forall_forall in H2. apply H2. apply in_or_app. right. now left.
  - now apply IH.
Qed.

Hypothesis R_sym : forall a b, R a b -> R b a.

Lemma FOP_perm (l l' : list A) :
  Permutation l l' -> ForallOrdPairs R l -> ForallOrdPairs R l'.
Proof.
  induction 1 as [|x l l' P IH|x y l|l l' l'' P1 IH1 P2 IH2]; intros H.
  - constructor.
  - inversion H; subst. constructor; [|now apply IH].
    eapply Permutation_Forall; eassumption.
  - inversion H as [|? ? F1 H1]; subst. inversion H1 as [|? ? F2 H2]; subst.
    inversion F1; subst. constructor; [|constructor; assumption].
    constructor; [now apply R_sym|assumption].
  - auto.
Qed.

Lemma FOP_nth (l : list A) :
  ForallOrdPairs R l ->
  forall i j a b, i <> j -> nth_error l i = Some a -> nth_error l j = Some b ->
                  R a b.
Proof.
  induction 1 as [|x l F H IH]; intros i j a b D Hi Hj.
  - destruct i; discriminate.
  - rewrite Forall_forall in F.
    destruct i as [|i], j as [|j]; simpl in *.
    + congruence.
    + injection Hi as <-. apply F. eapply nth_error_In; eassumption.
    + injection Hj as <-. apply R_sym, F. eapply nth_error_In; eassumption.
    + apply (IH i j); auto.
Qed.
End Pairs.

(** *** What the two patterns match *)

Lemma slice_at (text : str) (k : nat) (pre mid post : str) :
  skipn k text = pre ++ mid ++ post ->
  slice text (k + length pre) (k + length pre + length mid) = mid.
Proof.
  intros H. unfold slice.
  rewrite Nat.add_comm with (n := k), <- skipn_skipn, H.
  rewrite skipn_app, skipn_all, Nat.sub_diag. cbn [app skipn].
  replace (length pre + k + length mid - (length pre + k)) with (length mid)
    by lia.
  rewrite firstn_app, firstn_all, Nat.sub_diag. cbn [firstn]. apply app_nil_r.
Qed.

Lemma skipn_bound (A : Type) (l : list A) (k : nat) (x : A) (r : list A) :
  skipn k l = x :: r -> k + length (x :: r) = length l.
Proof.
  intros H. pose proof (length_skipn k l) as L. rewrite H in L.
  assert (k < length l).
  { destruct (Nat.lt_ge_cases k (length l)); [assumption|].
    rewrite skipn_all2 in H by assumption. discriminate. }
  lia.
Qed.

Lemma shaped_intro (text tag : str) (m : Match Shortcode) (k len : nat) :
  shortcode_at tag (skipn k text) = Some (m_groups m, len) ->
  m_start m = k -> m_end m = k + len -> shaped text tag m.
Proof.
  intros H Hs He. apply shortcode_at_Some in H
    as (rest & Ht & Hg & Hb & Hl & Hn & Hw).
  unfold shaped, body_end, body_start. rewrite Hs, He.
  repeat apply conj; auto.
  - exists rest. rewrite Ht. cbn [app]. now rewrite <- !app_assoc.
  - rewrite Hb. cbn [length]. rewrite length_app. lia.
  - lia.
Qed.

Lemma toggle_matches_shaped (text : str) (m : Match Shortcode) :
  In m (finditer TOGGLE_RX text) -> shaped text toggle_tag m.
Proof.
  intros H. apply finditer_from_In in H as (k & prev & len & _ & _ & H & Hs & He).
  now apply (@shaped_intro text toggle_tag m k len).
Qed.

Lemma first_alt_Some (G : Type) (f : str -> option G) (alts : list str) (r : G) :
  first_alt f alts = Some r -> exists a, In a alts /\ f a = Some r.
Proof.
  induction alts as [|a alts IH]; simpl; [discriminate|].
  destruct (f a) eqn:E.
  - intros H; injection H as <-. exists a. auto.
  - intros H. destruct (IH H) as (b & Hb & Hf). exists b. auto.
Qed.

Lemma body_matches_shaped (text : str) (m : Match Shortcode) :
  In m (finditer BODY_RX text) ->
  exists tag, In tag BODY_TAGS /\ shaped text tag m.
Proof.
  intros H. apply finditer_from_In in H as (k & prev & len & _ & _ & H & Hs & He).
  apply first_alt_Some in H as (tag & Ht & H). exists tag. split; [assumption|].
  now apply (@shaped_intro text tag m k len).
Qed.

(** The body group is the slice of the text between its two offsets, and
    the whole match is a slice too. *)
Lemma shaped_body (text tag : str) (m : Match Shortcode) :
  shaped text tag m ->
  slice text (body_start m) (body_end m) = g_body (m_groups m) /\
  body_start m <= body_end m /\ body_end m <= m_end m /\
  m_start m <= body_start m /\ m_end m <= length text.
Proof.
  intros (Hg & (rest & Ht) & Hb & He & _ & _).
  unfold body_end, body_start in *. repeat apply conj; try lia.
  - rewrite Hb, Nat.add_1_r. rewrite app_assoc in Ht.
    replace (S (length (open_bracket :: tag ++ g_attrs (m_groups m))))
      with (length ((open_bracket :: tag ++ g_attrs (m_groups m)) ++ [close_bracket]))
      by (rewrite length_app; simpl; lia).
    now apply slice_at with (post := closing_tag tag ++ rest).
  - apply skipn_bound in Ht. rewrite He, Hb.
    cbn [app length] in Ht. rewrite !length_app in Ht. cbn [length] in Ht.
    rewrite !length_app in Ht. cbn [length]. rewrite length_app. lia.
Qed.

(** *** The two loops *)

Lemma FOP_impl (A : Type) (R R' : A -> A -> Prop) (l : list A) :
  (forall a b, R a b -> R' a b) -> ForallOrdPairs R l -> ForallOrdPairs R' l.
Proof.
  intros HR. induction 1 as [|x l F H IH]; constructor; [|assumption].
  eapply Forall_impl; [|exact F]. intros b. apply HR.
Qed.

Lemma span_None_precedes_r (a b : Segment) : span b = None -> precedes a b.
Proof. intros H sa ea sb eb _ Hb. congruence. Qed.

Lemma span_of_body (m : Match Shortcode) (s : Segment) :
  from_body m s -> span s = Some (body_start m, body_end m).
Proof. intros (_ & Hs & He & _). unfold span. now rewrite Hs, He. Qed.

Lemma span_of_toggle_body (k : nat) (m : Match Shortcode) (s : Segment) :
  from_toggle_body k m s -> span s = Some (body_start m, body_end m).
Proof. intros (_ & Hs & He & _). unfold span. now rewrite Hs, He. Qed.

Lemma span_of_title (k : nat) (m : Match Shortcode) (s : Segment) :
  from_toggle_title k m s -> span s = None.
Proof. intros (_ & Hs & _). unfold span. now rewrite Hs. Qed.

Section Loops.
Variables (text source_key : str).

Let bodies := finditer BODY_RX text.
Let toggles := finditer TOGGLE_RX text.

Lemma bodies_ordered :
  ForallOrdPairs (fun a b => m_end a <= m_start b) bodies.
Proof. apply finditer_from_ordered. Qed.

Lemma toggles_ordered :
  ForallOrdPairs (fun a b => m_end a <= m_start b) toggles.
Proof. apply finditer_from_ordered. Qed.

Lemma body_loop_inv :
  let st := fold_left (body_step source_key) bodies ([], 0) in
  Forall (of_body_scan text) (fst st) /\ ForallOrdPairs precedes (fst st).
Proof.
  set (I := fun (done : list (Match Shortcode)) (st : list Segment * nat) =>
              Forall (fun s => exists m, In m done /\ from_body m s) (fst st)
              /\ ForallOrdPairs precedes (fst st)).
  assert (G : I bodies (fold_left (body_step source_key) bodies ([], 0))).
  { apply fold_left_prefix_inv.
    - split; constructor.
    - intros done x rest [segs idx] E [HF HP]. cbn [fst] in HF, HP.
      assert (HF' : Forall (fun s => exists m, In m (done ++ [x])
                                               /\ from_body m s) segs).
      { eapply Forall_impl; [|exact HF]. intros s (m & Hm & Hs).
        exists m. split; [apply in_or_app; now left|assumption]. }
      unfold body_step. destruct (should_skip _); [split; assumption|].
      cbn [fst]. split.
      + apply Forall_app. split; [exact HF'|].
        constructor; [|constructor]. exists x.
        split; [apply in_or_app; right; now left|].
        repeat apply conj; reflexivity.
      + apply FOP_app; [exact HP|repeat constructor|].
        intros a b Ha [<-|[]]. rewrite Forall_forall in HF.
        destruct (HF a Ha) as (m & Hm & Hs).
        intros sa ea sb eb Sa Sb. rewrite (span_of_body Hs) in Sa.
        injection Sa as <- <-. injection Sb as <- <-.
        pose proof bodies_ordered as O. rewrite E in O.
        pose proof (FOP_middle _ _ _ O m Hm) as L. cbv beta in L.
        assert (Hb : In m bodies) by (rewrite E; apply in_or_app; now left).
        apply body_matches_shaped in Hb as (tag & _ & Hb).
        apply shaped_body in Hb. destruct Hb as (_ & _ & Hb & _).
        unfold body_start. lia. }
  destruct G as [G1 G2]. split; [|exact G2].
  eapply Forall_impl; [|exact G1]. intros s H. exact H.
Qed.

(** The second loop, started on the result [segs0] of the first. *)
Lemma toggle_loop_inv (segs0 : list Segment) (idx0 : nat) :
  let st := fold_left (toggle_step source_key) toggles (segs0, idx0, 0) in
  exists new,
    fst (fst st) = segs0 ++ new /\
    Forall (of_toggle_scan text) new /\ ForallOrdPairs precedes new.
Proof.
  set (P := fun (done : list (Match Shortcode)) (s : Segment) =>
              exists k m, nth_error done k = Some m /\
                (from_toggle_title k m s \/ from_toggle_body k m s)).
  set (I := fun (done : list (Match Shortcode))
                (st : list Segment * nat * nat) =>
              snd st = length done /\
              exists new, fst (fst st) = segs0 ++ new /\
                Forall (P done) new /\ ForallOrdPairs precedes new).
  assert (G : I toggles
                (fold_left (toggle_step source_key) toggles (segs0, idx0, 0))).
  { apply fold_left_prefix_inv.
    - split; [reflexivity|]. exists []. rewrite app_nil_r.
      repeat split; constructor.
    - intros done x rest [[segs idx] order] E (Ho & new & Hn & HF & HP).
      cbn [fst snd] in Ho, Hn. subst order segs.
      assert (Hx : nth_error (done ++ [x]) (length done) = Some x)
        by (rewrite nth_error_app2, Nat.sub_diag by lia; reflexivity).
      assert (HF' : Forall (P (done ++ [x])) new).
      { eapply Forall_impl; [|exact HF]. intros s (k & m & Hk & Hs).
        exists k, m. split; [|assumption].
        rewrite nth_error_app1; [assumption|].
        apply nth_error_Some. congruence. }
      (* what a title segment and a body segment of [x] add *)
      assert (T : forall idx tm,
                search TITLE_ATTR_RX (g_attrs (m_groups x)) = Some tm ->
                P (done ++ [x])
                  (title_segment source_key idx (length done) (m_groups tm))).
      { intros idx' tm Htm. exists (length done), x. split; [exact Hx|].
        left. repeat apply conj; try reflexivity. now exists tm. }
      assert (B : forall idx,
                P (done ++ [x])
                  (toggle_body_segment source_key x idx (length done))).
      { intros idx'. exists (length done), x. split; [exact Hx|].
        right. repeat apply conj; reflexivity. }
      assert (PB : forall idx a, In a new ->
                precedes a (toggle_body_segment source_key x idx (length done))).
      { intros idx' a Ha. rewrite Forall_forall in HF.
        destruct (HF a Ha) as (k & m & Hk & [Hs|Hs]).
        - intros sa ea sb eb Sa _. rewrite (span_of_title Hs) in Sa.
          discriminate.
        - intros sa ea sb eb Sa Sb. rewrite (span_of_toggle_body Hs) in Sa.
          injection Sa as <- <-. injection Sb as <- <-.
          apply nth_error_In in Hk.
          pose proof toggles_ordered as O. rewrite E in O.
          pose proof (FOP_middle _ _ _ O m Hk) as L. cbv beta in L.
          assert (Hb : In m toggles) by (rewrite E; apply in_or_app; now left).
          apply toggle_matches_shaped, shaped_body in Hb.
          destruct Hb as (_ & _ & Hb & _). unfold body_start. lia. }
      unfold toggle_step.
      destruct (search TITLE_ATTR_RX (g_attrs (m_groups x))) as [tm|] eqn:Htm.
      + destruct (nonempty (m_groups tm) && negb (should_skip (m_groups tm)))%bool.
        * destruct (nonempty _ && negb _)%bool; cbn [fst snd];
            (split; [rewrite length_app; simpl; lia|]).
          -- exists (new ++ [title_segment source_key idx (length done) (m_groups tm);
                             toggle_body_segment source_key x (S idx) (length done)]).
             repeat apply conj.
             ++ now rewrite <- !app_assoc.
             ++ apply Forall_app. split; [exact HF'|].
                constructor; [now apply T|]. constructor; [apply B|constructor].
             ++ apply FOP_app; [exact HP| |].
                ** constructor; [|repeat constructor].
                   constructor; [|constructor].
                   intros sa ea sb eb Sa _. discriminate Sa.
                ** intros a b Ha [<-|[<-|[]]].
                   --- now apply span_None_precedes_r.
                   --- now apply PB.
          -- exists (new ++ [title_segment source_key idx (length done) (m_groups tm)]).
             repeat apply conj.
             ++ now rewrite <- !app_assoc.
             ++ apply Forall_app. split; [exact HF'|].
                constructor; [now apply T|constructor].
             ++ apply FOP_app; [exact HP|repeat constructor|].
                intros a b Ha [<-|[]]. now apply span_None_precedes_r.
        * destruct (nonempty _ && negb _)%bool; cbn [fst snd];
            (split; [rewrite length_app; simpl; lia|]).
          -- exists (new ++ [toggle_body_segment source_key x idx (length done)]).
             repeat apply conj.
             ++ now rewrite <- !app_assoc.
             ++ apply Forall_app. split; [exact HF'|].
                constructor; [apply B|constructor].
             ++ apply FOP_app; [exact HP|repeat constructor|].
                intros a b Ha [<-|[]]. now apply PB.
          -- exists new. repeat apply conj; auto.
      + destruct (nonempty _ && negb _)%bool; cbn [fst snd];
          (split; [rewrite length_app; simpl; lia|]).
        * exists (new ++ [toggle_body_segment source_key x idx (length done)]).
          repeat apply conj.
          -- now rewrite <- !app_assoc.
          -- apply Forall_app. split; [exact HF'|].
             constructor; [apply B|constructor].
          -- apply FOP_app; [exact HP|repeat constructor|].
             intros a b Ha [<-|[]]. now apply PB.
        * exists new. repeat apply conj; auto. }
  destruct G as (_ & new & G1 & G2 & G3). exists new.
  repeat apply conj; auto.
Qed.

(** The result of [extract_segments] is, up to the final sort, the
    segments of the first loop followed by those of the second. *)
Lemma extract_segments_spec :
  exists bs ts,
    Permutation (extract_segments text source_key) (bs ++ ts) /\
    Forall (of_body_scan text) bs /\ ForallOrdPairs precedes bs /\
    Forall (of_toggle_scan text) ts /\ ForallOrdPairs precedes ts.
Proof.
  unfold extract_segments. pose proof body_loop_inv as B. cbv zeta in B.
  fold bodies toggles.
  destruct (fold_left (body_step source_key) bodies ([], 0))
    as [segs0 idx0].
  pose proof (toggle_loop_inv segs0 idx0) as T. cbv zeta in T.
  destruct (fold_left (toggle_step source_key) toggles (segs0, idx0, 0))
    as [[segs idx] order].
  cbn [fst] in B, T. destruct B as [B1 B2], T as (new & -> & T1 & T2).
  exists segs0, new. repeat apply conj; auto. apply sort_by_perm.
Qed.
End Loops.

Lemma body_tags_not_toggle (tag : str) :
  In tag BODY_TAGS ->
  str_eqb tag kind_body = false /\ str_eqb tag kind_title = false.
Proof.
  intros H. repeat (destruct H as [<-|H]; [split; reflexivity|]). destruct H.
Qed.

Lemma of_body_scan_kind (text : str) (s : Segment) :
  of_body_scan text s ->
  is_toggle_body s = false /\ is_title s = false /\
  exists a b, span s = Some (a, b).
Proof.
  intros (m & Hm & Hs). pose proof (span_of_body Hs) as Sp.
  destruct Hs as (Hk & _). apply body_matches_shaped in Hm as (tag & Ht & Hg & _).
  unfold is_toggle_body, is_title. rewrite Hk, Hg.
  destruct (body_tags_not_toggle Ht). repeat apply conj; eauto.
Qed.

Lemma of_toggle_scan_kind (text : str) (s : Segment) :
  of_toggle_scan text s ->
  (is_toggle_body s = true /\ is_title s = false /\
   exists a b, span s = Some (a, b)) \/
  (is_toggle_body s = false /\ is_title s = true /\ span s = None).
Proof.
  intros (k & m & _ & [Hs|Hs]).
  - right. pose proof (span_of_title Hs) as Sp. destruct Hs as (Hk & _).
    unfold is_toggle_body, is_title. rewrite Hk. auto.
  - left. pose proof (span_of_toggle_body Hs) as Sp. destruct Hs as (Hk & _).
    unfold is_toggle_body, is_title. rewrite Hk. repeat apply conj; eauto.
Qed.

Lemma precedes_disjoint (a b : Segment) : precedes a b -> disjoint a b.
Proof. intros H sa ea sb eb Sa Sb. left. eapply H; eassumption. Qed.

Lemma apart_sym (a b : Segment) : apart a b -> apart b a.
Proof.
  intros H S sa ea sb eb Sa Sb. unfold same_scan in *.
  destruct (H (eq_sym S) _ _ _ _ Sb Sa); auto.
Qed.

Lemma extract_provenance (text source_key : str) :
  Forall (provenance text) (extract_segments text source_key).
Proof.
  destruct (extract_segments_spec text source_key)
    as (bs & ts & P & B & _ & T & _).
  eapply Permutation_Forall; [symmetry; exact P|].
  apply Forall_app. split.
  - eapply Forall_impl; [|exact B]. intros s H. now left.
  - eapply Forall_impl; [|exact T]. intros s H. now right.
Qed.

Lemma extract_apart (text source_key : str) :
  ForallOrdPairs apart (extract_segments text source_key).
Proof.
  destruct (extract_segments_spec text source_key)
    as (bs & ts & P & B & Bo & T & To).
  apply (FOP_perm apart_sym (Permutation_sym P)).
  apply FOP_app.
  - eapply FOP_impl; [|exact Bo]. intros a b H _. now apply precedes_disjoint.
  - eapply FOP_impl; [|exact To]. intros a b H _. now apply precedes_disjoint.
  - intros a b Ha Hb S. rewrite Forall_forall in B, T.
    destruct (of_body_scan_kind (B a Ha)) as (Ka & _).
    destruct (of_toggle_scan_kind (T b Hb)) as [(Kb & _)|(_ & _ & Sp)].
    + unfold same_scan in S. congruence.
    + intros sa ea sb eb _ Sb. congruence.
Qed.

(** C2, as the specification states it, fails: a body tag inside a toggle
    gives two offset-bearing segments, one span within the other. *)
Lemma C2_nested_spans_overlap :
  map span (extract_segments doc_nested example_key)
  = [Some (15, 44); Some (28, 30)].
Proof. vm_compute. reflexivity. Qed.

(** C2 (amended): for every document and source key, two distinct
    offset-bearing segments of one run that come from the same scan (both
    bodies of body tags, or both bodies of toggles) have non-overlapping
    spans; a body-tag segment and a toggle-body segment may overlap. *)
Theorem C2_same_scan_spans_disjoint (text source_key : str)
    (i j : nat) (a b : Segment) (sa ea sb eb : nat) :
  let segs := extract_segments text source_key in
  i <> j ->
  nth_error segs i = Some a -> nth_error segs j = Some b ->
  span a = Some (sa, ea) -> span b = Some (sb, eb) ->
  same_scan a b ->
  ea <= sb \/ eb <= sa.
Proof.
  intros segs D Ha Hb Sa Sb S.
  exact (FOP_nth apart_sym (extract_apart text source_key) D Ha Hb S
           _ _ _ _ Sa Sb).
Qed.

Lemma C2_same_scan_spans_disjoint_witness :
  map span (extract_segments doc_two_blocks example_key)
  = [Some (13, 14); Some (41, 42)] /\ (14 <= 41 \/ 42 <= 13).
Proof.
  split; [vm_compute; reflexivity|].
  pose (segs := extract_segments doc_two_blocks example_key).
  pose (a := nth 0 segs (title_segment [] 0 0 [])).
  pose (b := nth 1 segs (title_segment [] 0 0 [])).
  apply (@C2_same_scan_spans_disjoint doc_two_blocks example_key 0 1 a b
           13 14 41 42); try (vm_compute; reflexivity).
  discriminate.
Defined.

(** *** Unclosed occurrences *)

Lemma shaped_closed_body (text tag : str) (m : Match Shortcode) (s : Segment) :
  shaped text tag m ->
  seg_text s = g_body (m_groups m) ->
  span s = Some (body_start m, body_end m) ->
  exists p attrs body rest,
    skipn p text
    = (open_bracket :: tag ++ attrs) ++ [close_bracket] ++ body
      ++ closing_tag tag ++ rest /\
    seg_text s = body /\
    span s = Some (p + length (open_bracket :: tag ++ attrs) + 1,
                   p + length (open_bracket :: tag ++ attrs) + 1 + length body).
Proof.
  intros (Hg & (rest & Ht) & Hb & _) Hx Hs.
  exists (m_start m), (g_attrs (m_groups m)), (g_body (m_groups m)), rest.
  repeat apply conj; auto. rewrite Hs. unfold body_end, body_start.
  rewrite Hb. do 2 f_equal; lia.
Qed.

Lemma provenance_closed (text : str) (s : Segment) :
  provenance text s -> closed_in text s.
Proof.
  intros [(m & Hm & Hs)|(k & m & Hk & [Hs|Hs])].
  - pose proof (span_of_body Hs) as Sp. destruct Hs as (Hkind & _ & _ & _ & Hx).
    apply body_matches_shaped in Hm as (tag & Ht & Hm).
    destruct (shaped_closed_body s Hm Hx Sp) as (p & attrs & body & rest & E & X & Y).
    exists tag, p, attrs, body, rest. split; [exact E|]. left.
    destruct Hm as (Hg & _). repeat apply conj; auto. congruence.
  - pose proof (span_of_title Hs) as Sp.
    destruct Hs as (Hkind & _ & _ & _ & tm & Htm & Hx).
    apply nth_error_In, toggle_matches_shaped in Hk.
    destruct Hk as (Hg & (rest & Ht) & _).
    exists toggle_tag, (m_start m), (g_attrs (m_groups m)),
           (g_body (m_groups m)), rest.
    split; [exact Ht|]. right; right. repeat apply conj; auto. now exists tm.
  - pose proof (span_of_toggle_body Hs) as Sp.
    destruct Hs as (Hkind & _ & _ & _ & Hx).
    apply nth_error_In, toggle_matches_shaped in Hk.
    destruct (shaped_closed_body s Hk Hx Sp) as (p & attrs & body & rest & E & X & Y).
    exists toggle_tag, p, attrs, body, rest. split; [exact E|]. right; left.
    repeat apply conj; auto.
Qed.

(** C9: [extract_segments] is a total function (no input makes it fail),
    and every segment it returns comes from an occurrence that has its
    closing tag; an opened shortcode that is never closed contributes
    nothing, so a text without any closing tag yields no segment. *)
Theorem C9_extractor_total (text source_key : str) :
  (exists segs, extract_segments text source_key = segs /\
                Forall (closed_in text) segs) /\
  (contains (lit "[/") text = false -> extract_segments text source_key = []).
Proof.
  assert (F : Forall (closed_in text) (extract_segments text source_key)).
  { eapply Forall_impl; [|apply extract_provenance].
    intros s. apply provenance_closed. }
  split; [eexists; split; [reflexivity|exact F]|].
  intros C. destruct (extract_segments text source_key) as [|s l];
    [reflexivity|exfalso].
  inversion F as [|? ? (tag & p & attrs & body & rest & E & _) _]; subst.
  assert (contains (lit "[/") text = true); [|congruence].
  apply contains_true.
  exists (firstn p text ++ (open_bracket :: tag ++ attrs) ++ [close_bracket]
          ++ body), (tag ++ [close_bracket] ++ rest).
  rewrite <- (firstn_skipn p text) at 1. rewrite E.
  unfold closing_tag. now rewrite <- !app_assoc.
Qed.

Lemma C9_extractor_total_witness :
  extract_segments doc_unclosed example_key = [].
Proof.
  apply (proj2 (C9_extractor_total doc_unclosed example_key)).
  vm_compute. reflexivity.
Defined.

End ExtractProps.

(** ** The applier *)

Module ApplyProps.

Import Py Re PyFacts ReFacts Segments ExtractProps.

(** *** Dicts *)

Lemma dict_get_set (V : Type) (k k' : str) (v : V) (d : dict V) :
  dict_get k (dict_set k' v d)
  = if str_eqb k k' then Some v else dict_get k d.
Proof.
  induction d as [|[k1 v1] d IH]; simpl.
  - reflexivity.
  - destruct (str_eqb k' k1) eqn:E1; simpl.
    + apply str_eqb_true in E1; subst k1.
      now destruct (str_eqb k k').
    + rewrite IH. destruct (str_eqb k k') eqn:E; [|reflexivity].
      apply str_eqb_true in E; subst k'. now rewrite E1.
Qed.

Lemma dict_keys_set (V : Type) (k k' : str) (v : V) (d : dict V) :
  In k (dict_keys (dict_set k' v d)) <-> k = k' \/ In k (dict_keys d).
Proof.
  unfold dict_keys. induction d as [|[k1 v1] d IH]; simpl.
  - intuition congruence.
  - destruct (str_eqb k' k1) eqn:E1; simpl.
    + apply str_eqb_true in E1; subst k1. intuition congruence.
    + rewrite IH. tauto.
Qed.

Lemma id_map_keys (l : list JSeg) (k : str) :
  In k (dict_keys (id_map l)) <-> exists s, In s l /\ j_id s = k.
Proof.
  unfold id_map.
  enough (G : forall d,
             In k (dict_keys (fold_left (fun d s => dict_set (j_id s) s d) l d))
             <-> (exists s, In s l /\ j_id s = k) \/ In k (dict_keys d)).
  { rewrite G. simpl. intuition. }
  induction l as [|x l IH]; intros d; simpl.
  - split; [tauto|]. intros [(s & [] & _)|H]; assumption.
  - rewrite IH, dict_keys_set. split.
    + intros [(s & Hs & E)|[E|H]];
        [left; exists s; auto|left; exists x; auto|right; assumption].
    + intros [(s & [<-|Hs] & E)|H];
        [right; left; auto|left; exists s; auto|right; right; assumption].
Qed.

Lemma id_map_mem (l : list JSeg) (k : str) :
  dict_mem k (id_map l) = true <-> exists s, In s l /\ j_id s = k.
Proof.
  unfold id_map, dict_mem.
  enough (G : forall d,
             dict_get k (fold_left (fun d s => dict_set (j_id s) s d) l d) <> None
             <-> (exists s, In s l /\ j_id s = k) \/ dict_get k d <> None).
  { specialize (G []). simpl in G.
    destruct (dict_get k _); split; intros H; try discriminate; auto.
    - destruct G as [G _]. destruct G as [G|G]; [discriminate|exact G|].
      now contradiction G.
    - exfalso. destruct G as [_ G]. apply G; auto. }
  induction l as [|x l IH]; intros d; simpl.
  - split; [tauto|]. intros [(s & [] & _)|H]; assumption.
  - rewrite IH, dict_get_set. split.
    + intros [(s & Hs & E)|H]; [left; exists s; auto|].
      destruct (str_eqb k (j_id x)) eqn:E; [|tauto].
      apply str_eqb_true in E. left. exists x. auto.
    + intros [(s & [<-|Hs] & E)|H].
      * right. subst k. rewrite str_eqb_refl. discriminate.
      * left. exists s. auto.
      * right. destruct (str_eqb k (j_id x)); [discriminate|assumption].
Qed.

Lemma translated_text_mem (tr_map : dict JSeg) (sid t : str) :
  translated_text tr_map sid = Ok t -> dict_mem sid tr_map = true.
Proof.
  unfold translated_text, dict_mem. now destruct (dict_get sid tr_map).
Qed.

Lemma filter_nil (A : Type) (f : A -> bool) (l : list A) :
  (forall x, In x l -> f x = false) -> filter f l = [].
Proof.
  induction l as [|x l IH]; intros H; simpl; [reflexivity|].
  rewrite (H x) by now left. apply IH. intros y Hy. apply H. now right.
Qed.

(** *** Completeness *)

(** C6: when an id of the extracted file is absent from the translated
    file, processing the document raises the missing-ids error whatever
    the container text is (no replacement is attempted), nothing is added
    to the log of written files, and the run ends there. *)
Theorem C6_missing_id_raises (f : ContainerFile)
    (extracted translated : Payload) (s : JSeg)
    (others : list ContainerFile) (written : list (str * str)) :
  extracted_file f = Some extracted ->
  translated_file f = Some translated ->
  In s (get_segments extracted) ->
  (forall t, In t (get_segments translated) -> j_id t <> j_id s) ->
  exists ids,
    In (j_id s) (dict_keys (id_map (get_segments extracted))) /\
    ids <> [] /\
    (forall raw,
       apply_document (rel f) raw extracted translated
       = Raise (ValueError_missing_ids (rel f) ids)) /\
    apply_file f = Raise (ValueError_missing_ids (rel f) ids) /\
    apply_files (f :: others) written
    = (written, Raise (ValueError_missing_ids (rel f) ids)) /\
    cmd_apply (f :: others) = ([], Raise (ValueError_missing_ids (rel f) ids)).
Proof.
  intros He Ht Hs Hn.
  set (ex_map := id_map (get_segments extracted)).
  set (tr_map := id_map (get_segments translated)).
  set (missing := filter (fun sid => negb (dict_mem sid tr_map))
                         (dict_keys ex_map)).
  assert (K : In (j_id s) (dict_keys ex_map))
    by (apply id_map_keys; eauto).
  assert (M : In (j_id s) missing).
  { apply filter_In. split; [exact K|]. apply negb_true_iff.
    destruct (dict_mem (j_id s) tr_map) eqn:E; [|reflexivity].
    apply id_map_mem in E as (t & Ht' & E). now apply Hn in Ht'. }
  assert (D : forall raw, apply_document (rel f) raw extracted translated
                          = Raise (ValueError_missing_ids (rel f) (firstn 5 missing))).
  { intros raw. unfold apply_document. fold ex_map tr_map missing.
    destruct missing; [destruct M|reflexivity]. }
  assert (A : apply_file f = Raise (ValueError_missing_ids (rel f) (firstn 5 missing)))
    by (unfold apply_file; rewrite He, Ht; apply D).
  exists (firstn 5 missing). repeat apply conj; auto.
  - destruct missing; [destruct M|discriminate].
  - simpl. now rewrite A.
  - unfold cmd_apply. simpl. now rewrite A.
Qed.

Lemma C6_missing_id_raises_witness :
  exists ids,
    ids <> [] /\
    cmd_apply [scenario_incomplete]
    = ([], Raise (ValueError_missing_ids example_key ids)).
Proof.
  pose (s := {| j_id := seg_id (scenario_open example_key);
                j_kind := kind_title; j_text := Some (lit "Open") |}).
  destruct (@C6_missing_id_raises scenario_incomplete
              (extract_payload example_key doc_scenario)
              (scenario_partial example_key) s [] [])
    as (ids & _ & N & _ & _ & _ & C).
  - reflexivity.
  - reflexivity.
  - vm_compute. right. right. left. reflexivity.
  - intros t Ht. vm_compute in Ht.
    destruct Ht as [<-|[<-|[]]]; vm_compute; discriminate.
  - exists ids. split; assumption.
Defined.

(** *** The title attribute *)

Lemma TITLE_Some (prev : option ascii) (s v : str) (len : nat) :
  TITLE_ATTR_RX prev s = Some (v, len) ->
  boundary prev (hd_error s) = true /\
  ~ In dquote v /\
  len = length title_prefix + length v + 1 /\
  exists rest, s = title_prefix ++ v ++ dquote :: rest.
Proof.
  unfold TITLE_ATTR_RX. destruct (boundary prev (hd_error s)); [|discriminate].
  destruct (strip_prefix title_prefix s) as [r|] eqn:P; [|discriminate].
  destruct (find_char dquote r) as [n|] eqn:F; [|discriminate].
  intros H; injection H as <- <-.
  apply strip_prefix_Some in P. apply find_char_Some in F as (F1 & F2 & F3).
  repeat apply conj; auto.
  - rewrite firstn_length_le by lia. reflexivity.
  - exists (skipn (S n) r). now rewrite P, <- F1.
Qed.

Lemma TITLE_ext (prev : option ascii) (s t : str) (r : str * nat) :
  TITLE_ATTR_RX prev s = Some r -> TITLE_ATTR_RX prev (s ++ t) = Some r.
Proof.
  unfold TITLE_ATTR_RX. intros H.
  destruct s as [|c s]; [destruct (boundary prev (hd_error [])); discriminate|].
  cbn [app hd_error] in *.
  destruct (boundary prev (Some c)); [|discriminate].
  destruct (strip_prefix title_prefix (c :: s)) as [r0|] eqn:P; [|discriminate].
  change (c :: s ++ t) with ((c :: s) ++ t).
  rewrite (strip_prefix_ext _ _ t P).
  destruct (find_char dquote r0) as [n|] eqn:F; [|discriminate].
  rewrite (find_char_ext _ _ t F). rewrite <- H. do 2 f_equal.
  apply find_char_Some in F as (_ & _ & F).
  rewrite firstn_app. replace (n - length r0) with 0 by lia.
  cbn [firstn]. apply app_nil_r.
Qed.

(** A match of the title pattern somewhere in [s] puts a double quote at
    offset 6 or later, and makes [s] at least 8 characters long. *)
Lemma search_title_quote (prev : option ascii) (pos : nat) (s : str)
    (tm : Match str) :
  search_from TITLE_ATTR_RX prev pos s = Some tm ->
  In dquote (skipn 6 s) /\ 8 <= length s.
Proof.
  intros H. apply search_from_Some in H as (k & prev' & len & Hk & H & _).
  apply TITLE_Some in H as (_ & _ & _ & rest & E).
  assert (S : s = (firstn k s ++ lit "title=") ++ dquote :: m_groups tm
                  ++ dquote :: rest).
  { rewrite <- (firstn_skipn k s) at 1. rewrite E. unfold title_prefix.
    now rewrite <- !app_assoc. }
  assert (L : length (firstn k s ++ lit "title=") = k + 6)
    by (rewrite length_app, firstn_length_le by lia; reflexivity).
  split.
  - rewrite S, skipn_app. apply in_or_app. right.
    replace (6 - length (firstn k s ++ lit "title=")) with 0 by lia.
    now left.
  - rewrite S, length_app, L. cbn [length]. rewrite length_app. cbn [length]. lia.
Qed.

(** The leftmost title match in a text is still the leftmost one when
    the text is extended to the right. *)
Lemma search_title_ext (t : str) (tm : Match str) :
  forall s prev pos,
  search_from TITLE_ATTR_RX prev pos s = Some tm ->
  search_from TITLE_ATTR_RX prev pos (s ++ t) = Some tm.
Proof.
  induction s as [|c s IH]; intros prev pos H; [discriminate|].
  cbn [search_from app] in *.
  destruct (TITLE_ATTR_RX prev (c :: s)) as [[g len]|] eqn:T.
  - change (c :: s ++ t) with ((c :: s) ++ t). now rewrite (TITLE_ext _ _ t T).
  - destruct (TITLE_ATTR_RX prev (c :: s ++ t)) as [[g' len']|] eqn:T';
      [exfalso|now apply IH].
    apply search_title_quote in H as [Q L].
    apply TITLE_Some in T' as (B & _ & _ & rest & E).
    change (c :: s ++ t) with ((c :: s) ++ t) in E.
    assert (P : strip_prefix title_prefix ((c :: s) ++ t)
                = Some (g' ++ dquote :: rest))
      by (rewrite E; apply strip_prefix_app).
    apply strip_prefix_shorten in P as (r & P & _);
      [|cbn [length]; change (length title_prefix) with 7; lia].
    pose proof (strip_prefix_Some _ _ P) as S.
    assert (R : skipn 7 (c :: s) = r).
    { rewrite S. change 7 with (length title_prefix).
      now rewrite skipn_app, skipn_all, Nat.sub_diag. }
    change (skipn 7 (c :: s)) with (skipn 6 s) in R. rewrite R in Q.
    apply find_char_In in Q as [n Q].
    unfold TITLE_ATTR_RX in T. cbn [hd_error app] in B, T.
    rewrite B, P, Q in T. discriminate.
Qed.

(** A character that is not a word character starts no title match. *)
Lemma TITLE_nonword (prev : option ascii) (c : ascii) (s : str) :
  is_word c = false -> TITLE_ATTR_RX prev (c :: s) = None.
Proof.
  intros W. unfold TITLE_ATTR_RX.
  assert (P : strip_prefix title_prefix (c :: s) = None).
  { unfold title_prefix. cbn [lit list_ascii_of_string app strip_prefix].
    destruct (eqc "t" c) eqn:E; [|reflexivity].
    apply eqc_true in E. subst c. discriminate W. }
  rewrite P. now destruct (boundary prev (hd_error (c :: s))).
Qed.

(** No title match starts inside the opening [fusion_toggle] itself. *)
Lemma search_title_after_tag (s : str) :
  search TITLE_ATTR_RX (open_bracket :: toggle_tag ++ s)
  = search_from TITLE_ATTR_RX (Some "e"%char) 14 s.
Proof. reflexivity. Qed.

(** In a toggle block, the leftmost title match is the one of the
    attributes whenever the attributes have one. *)
Lemma search_title_block (attrs rest : str) (tm : Match str) :
  boundary (last_char None toggle_tag) (hd_error (attrs ++ [close_bracket]))
  = true ->
  search TITLE_ATTR_RX attrs = Some tm ->
  search TITLE_ATTR_RX ((open_bracket :: toggle_tag ++ attrs) ++ rest)
  = Some (shift 14 tm).
Proof.
  intros B H. cbn [app]. rewrite <- app_assoc, search_title_after_tag.
  destruct attrs as [|c attrs]; [discriminate|].
  assert (W : is_word c = false).
  { cbn in B. now destruct (is_word c). }
  unfold search in H. cbn [search_from app] in *.
  rewrite TITLE_nonword in * by assumption.
  apply (search_title_ext rest) in H.
  change 15 with (14 + 1).
  now rewrite search_from_shift, H.
Qed.

(** Putting back the value that the leftmost title match holds changes
    nothing. *)
Lemma replace_toggle_title_same (block : str) (m : Match str) :
  search TITLE_ATTR_RX block = Some m ->
  replace_toggle_title block (m_groups m) = block.
Proof.
  intros H. unfold replace_toggle_title. rewrite H.
  apply search_from_Some in H as (k & prev & len & Hk & H & Hs & He).
  apply TITLE_Some in H as (_ & _ & Hl & rest & E).
  simpl in Hs, He. rewrite Hs, He.
  set (X := title_prefix ++ m_groups m ++ [dquote]).
  assert (EX : skipn k block = X ++ rest)
    by (rewrite E; unfold X; now rewrite <- !app_assoc).
  assert (LX : length X = len)
    by (unfold X; rewrite !length_app; cbn [length]; lia).
  assert (R : skipn (k + len) block = rest).
  { rewrite Nat.add_comm, <- skipn_skipn, EX, <- LX.
    now rewrite skipn_app, skipn_all, Nat.sub_diag. }
  rewrite R, <- EX. apply firstn_skipn.
Qed.

(** *** Round trip *)

Lemma for_each_fixed (A S : Type) (body : S -> A -> result S) (l : list A)
    (st : S) :
  (forall x, In x l -> body st x = Ok st) -> for_each body l st = Ok st.
Proof.
  induction l as [|x l IH]; intros H; simpl; [reflexivity|].
  rewrite (H x) by now left. simpl. apply IH. intros y Hy. apply H. now right.
Qed.

(** The whole match is the slice of the text between its two offsets. *)
Lemma shaped_block (text tag : str) (m : Match Shortcode) :
  shaped text tag m ->
  slice text (m_start m) (m_end m)
  = (open_bracket :: tag ++ g_attrs (m_groups m)) ++ [close_bracket]
    ++ g_body (m_groups m) ++ closing_tag tag /\
  m_start m <= m_end m.
Proof.
  intros (Hg & (rest & Ht) & Hb & He & _). unfold body_end, body_start in He.
  split; [|lia].
  set (B := (open_bracket :: tag ++ g_attrs (m_groups m)) ++ [close_bracket]
            ++ g_body (m_groups m) ++ closing_tag tag).
  assert (E : skipn (m_start m) text = [] ++ B ++ rest)
    by (rewrite Ht; unfold B; cbn [app]; rewrite <- !app_assoc; cbn [app];
        now rewrite <- !app_assoc).
  assert (L : m_end m = m_start m + length (@nil ascii) + length B).
  { unfold B. rewrite He, Hb, !length_app. cbn [length]. lia. }
  rewrite L. replace (m_start m) with (m_start m + length (@nil ascii)) at 1
    by (cbn [length]; lia).
  exact (slice_at _ _ _ _ _ E).
Qed.

Section RoundTrip.
Variables (raw source_key : str) (tr_map : dict JSeg).

Lemma span_step_same (s : Segment) :
  provenance raw s -> has_span s = true ->
  translated_text tr_map (seg_id s) = Ok (seg_text s) ->
  span_step tr_map raw s = Ok raw.
Proof.
  intros P Hs Ht. unfold span_step. rewrite Ht. cbn [bind].
  assert (G : exists tag m, shaped raw tag m /\
                            seg_start s = Some (body_start m) /\
                            seg_end s = Some (body_end m) /\
                            seg_text s = g_body (m_groups m)).
  { destruct P as [(m & Hm & F)|(k & m & Hk & [F|F])].
    - apply body_matches_shaped in Hm as (tag & _ & Hm).
      destruct F as (_ & F1 & F2 & _ & F3). eauto 8.
    - destruct F as (_ & F1 & _). unfold has_span in Hs.
      rewrite F1 in Hs. discriminate.
    - apply nth_error_In, toggle_matches_shaped in Hk.
      destruct F as (_ & F1 & F2 & _ & F3). eauto 8. }
  destruct G as (tag & m & Hm & -> & -> & ->).
  apply shaped_body in Hm as (E & L & _). rewrite <- E.
  now rewrite splice_slice.
Qed.

Lemma title_step_same (s : Segment) :
  provenance raw s -> is_title s = true ->
  translated_text tr_map (seg_id s) = Ok (seg_text s) ->
  title_step source_key tr_map raw s = Ok raw.
Proof.
  intros P Hs Ht. unfold title_step. rewrite Ht. cbn [bind].
  assert (G : exists k m, nth_error (finditer TOGGLE_RX raw) k = Some m /\
                          from_toggle_title k m s).
  { destruct P as [P|(k & m & Hk & [F|F])].
    - apply of_body_scan_kind in P as (_ & P & _). congruence.
    - eauto.
    - destruct F as (F & _). unfold is_title in Hs. rewrite F in Hs.
      discriminate. }
  destruct G as (k & m & Hk & _ & _ & _ & Ho & tm & Htm & Hx).
  unfold toggle_block_rx.
  destruct (finditer TOGGLE_RX raw) as [|b0 blocks] eqn:B;
    [destruct k; discriminate|].
  rewrite Ho.
  assert (Lk : k < length (b0 :: blocks))
    by (apply nth_error_Some; congruence).
  destruct (Nat.leb_spec (length (b0 :: blocks)) k) as [|_]; [lia|].
  rewrite (nth_error_nth _ _ b0 Hk).
  assert (Hm : In m (finditer TOGGLE_RX raw))
    by (rewrite B; eapply nth_error_In; eassumption).
  apply toggle_matches_shaped in Hm.
  destruct (shaped_block Hm) as [E L].
  assert (R : replace_toggle_title (slice raw (m_start m) (m_end m)) (seg_text s)
              = slice raw (m_start m) (m_end m)).
  { destruct Hm as (_ & _ & _ & _ & _ & Bd).
    pose proof (search_title_block _ (([close_bracket]
                  ++ g_body (m_groups m) ++ closing_tag toggle_tag)) Bd Htm) as S.
    rewrite <- E in S. rewrite Hx.
    change (m_groups tm) with (m_groups (shift 14 tm)).
    now apply replace_toggle_title_same. }
  rewrite R. now rewrite splice_slice.
Qed.
End RoundTrip.

(** C3: when the translated file gives every extracted segment its
    original text back, the document that the applier hands to
    [write_text] is the original document, unchanged. *)
Theorem C3_round_trip (raw source_key : str) (translated : Payload) :
  (forall s, In s (extract_segments raw source_key) ->
             translated_text (id_map (get_segments translated)) (seg_id s)
             = Ok (seg_text s)) ->
  apply_document source_key raw (extract_payload source_key raw) translated
  = Ok raw /\
  cmd_apply [{| rel := source_key; raw := raw;
                extracted_file := Some (extract_payload source_key raw);
                translated_file := Some translated |}]
  = ([(source_key, raw)], Ok tt).
Proof.
  intros H.
  assert (D : apply_document source_key raw (extract_payload source_key raw)
                             translated = Ok raw).
  { unfold apply_document.
    set (tr_map := id_map (get_segments translated)) in *.
    rewrite filter_nil.
    2:{ intros k Hk. apply id_map_keys in Hk as (j & Hj & <-).
        unfold extract_payload, get_segments in Hj. cbn [p_segments] in Hj.
        apply in_map_iff in Hj as (s & <- & Hs). cbn [j_id].
        now rewrite (translated_text_mem _ _ (H s Hs)). }
    pose proof (extract_provenance raw source_key) as P.
    rewrite Forall_forall in P.
    rewrite for_each_fixed.
    - cbn [bind]. apply for_each_fixed. intros s Hs.
      apply filter_In in Hs as [Hs Ht].
      apply title_step_same; auto.
    - intros s Hs. apply in_rev, filter_In in Hs as [Hs Hp].
      apply span_step_same; auto. }
  split; [exact D|].
  unfold cmd_apply, apply_files, apply_file.
  cbn [extracted_file translated_file rel Segments.raw].
  now rewrite D.
Qed.

Lemma C3_round_trip_witness :
  apply_document example_key doc_scenario
    (extract_payload example_key doc_scenario)
    (extract_payload example_key doc_scenario)
  = Ok doc_scenario.
Proof.
  refine (proj1 (@C3_round_trip doc_scenario example_key
                   (extract_payload example_key doc_scenario) _)).
  intros s Hs. vm_compute in Hs.
  destruct Hs as [<-|[<-|[<-|[]]]]; vm_compute; reflexivity.
Defined.

(** *** Title relocation *)

(** C7 holds of the specification and fails on the code: the applier
    does not leave a block unchanged when its opening tag has no title
    attribute.  The document is a text block followed by a toggle with
    the title B; the translated file gives the text block a text that
    opens a toggle without attributes and holds a title attribute in an
    HTML tag.  After the spans are replaced the only toggle block of the
    edited document starts at that opening tag, which has no title
    attribute, and the title segment (toggle ordinal 0) selects it.  The
    block is not left unchanged: the translated title Bee is written into
    the attribute of the HTML tag in its body, and the title attribute B
    of the toggle stays as it was.  [replace_toggle_title] searches the
    whole block, where the extractor reads titles in the attributes of
    the opening tag only. *)
Theorem C7_title_written_into_body :
  let segs := extract_segments doc_injected example_key in
  let translated := payload_with injected_text example_key doc_injected in
  let tr_map := id_map (get_segments translated) in
  map (fun s => (seg_kind s, seg_toggle_order s, seg_text s)) segs
  = [(lit "fusion_text", None, lit "a"); (kind_body, Some 0, lit "b");
     (kind_title, Some 0, lit "B")] /\
  for_each (span_step tr_map) (rev (filter has_span segs)) doc_injected
  = Ok doc_injected_edited /\
  map (fun m => (m_start m, m_end m, g_attrs (m_groups m),
                 search TITLE_ATTR_RX
                        (open_bracket :: toggle_tag ++ g_attrs (m_groups m)
                         ++ [close_bracket])))
      (finditer toggle_block_rx doc_injected_edited)
  = [(13, 102, [], None)] /\
  apply_document example_key doc_injected
                 (extract_payload example_key doc_injected) translated
  = Ok doc_injected_applied /\
  cmd_apply [injected_file] = ([(example_key, doc_injected_applied)], Ok tt) /\
  doc_injected_applied <> doc_injected_edited.
Proof. vm_compute. repeat apply conj; try reflexivity. discriminate. Qed.

(** The same happens with translated texts that all pass the integrity
    check of the translator.  A toggle without a title attribute, whose
    body holds one in an HTML tag, is followed by a toggle with the title
    B around a text block; hello becomes hi in the text block and in the
    toggle body around it.  The two spans overlap, so the second
    replacement cuts into the closing tag of the second toggle; the title
    loop then finds one block only, the ordinal 1 is clamped to it, its
    opening tag has no title attribute, and the title Bee is written into
    its body. *)
Lemma title_written_into_body_after_clamp :
  let segs := extract_segments doc_two_toggles example_key in
  map (fun s => (seg_kind s, seg_toggle_order s, seg_text s,
                 shortened_text s,
                 Translate.is_corrupt (seg_text s) (shortened_text s)))
      segs
  = [(kind_body, Some 0, skipn 15 (firstn 33 doc_two_toggles),
      skipn 15 (firstn 33 doc_two_toggles), false);
     (kind_body, Some 1, lit "[fusion_text]hello[/fusion_text]",
      lit "[fusion_text]hi[/fusion_text]", false);
     (lit "fusion_text", None, lit "hello", lit "hi", false);
     (kind_title, Some 1, lit "B", lit "Bee", false)] /\
  apply_document example_key doc_two_toggles
                 (extract_payload example_key doc_two_toggles)
                 (payload_with shortened_text example_key doc_two_toggles)
  = Ok doc_two_toggles_applied.
Proof. vm_compute. split; reflexivity. Qed.

Lemma firstn_app_le (A : Type) (n : nat) (l r : list A) :
  n <= length l -> firstn n (l ++ r) = firstn n l.
Proof.
  intros H. rewrite firstn_app. replace (n - length l) with 0 by lia.
  cbn [firstn]. apply app_nil_r.
Qed.

Lemma skipn_app_le (A : Type) (n : nat) (l r : list A) :
  n <= length l -> skipn n (l ++ r) = skipn n l ++ r.
Proof.
  intros H. rewrite skipn_app. now replace (n - length l) with 0 by lia.
Qed.

(** What the body of the title loop does, for a title segment whose
    translated text is [new_text]: it raises when the edited document has
    no toggle block; otherwise it selects the block at [toggle_order],
    clamped to the last block, and replaces it by [replace_toggle_title]
    of it.  That function replaces the leftmost match of the title
    pattern in the whole block: the first title attribute of the opening
    tag whenever the opening tag has one. *)
Lemma title_step_on_block (source_key : str) (tr_map : dict JSeg)
    (out : str) (s : Segment) (new_text : str) :
  translated_text tr_map (seg_id s) = Ok new_text ->
  let blocks := finditer toggle_block_rx out in
  let order := match seg_toggle_order s with Some k => k | None => 0 end in
  (blocks = [] ->
   title_step source_key tr_map out s
   = Raise (ValueError_no_toggle_block source_key)) /\
  (forall bm,
     nth_error blocks (Nat.min order (length blocks - 1)) = Some bm ->
     let block := slice out (m_start bm) (m_end bm) in
     let attrs := g_attrs (m_groups bm) in
     let tail := [close_bracket] ++ g_body (m_groups bm)
                 ++ closing_tag toggle_tag in
     let new_attr := title_prefix ++ new_text ++ [dquote] in
     title_step source_key tr_map out s
     = Ok (splice out (m_start bm) (m_end bm)
             (replace_toggle_title block new_text)) /\
     block = (open_bracket :: toggle_tag ++ attrs) ++ tail /\
     (forall tm,
        search TITLE_ATTR_RX attrs = Some tm ->
        replace_toggle_title block new_text
        = (open_bracket :: toggle_tag ++ firstn (m_start tm) attrs)
          ++ new_attr ++ skipn (m_end tm) attrs ++ tail) /\
     (forall m,
        search TITLE_ATTR_RX block = Some m ->
        replace_toggle_title block new_text
        = firstn (m_start m) block ++ new_attr ++ skipn (m_end m) block /\
        forall j,
          j < m_start m ->
          TITLE_ATTR_RX (prev_at None block j) (skipn j block) = None) /\
     (search TITLE_ATTR_RX block = None ->
      replace_toggle_title block new_text = block)).
Proof.
  intros Ht blocks order. split.
  - intros E. unfold title_step. rewrite Ht. cbn [bind]. fold blocks.
    now rewrite E.
  - intros bm Hbm block attrs tail new_attr.
    assert (Hin : In bm (finditer TOGGLE_RX out))
      by (eapply nth_error_In; exact Hbm).
    apply toggle_matches_shaped in Hin.
    destruct (shaped_block Hin) as [E L]. fold block attrs tail in E.
    repeat apply conj.
    + unfold title_step. rewrite Ht. cbn [bind]. fold blocks.
      destruct blocks as [|b0 bl] eqn:B;
        [destruct (Nat.min order _); discriminate|].
      fold order.
      assert (C : (if length (b0 :: bl) <=? order
                   then length (b0 :: bl) - 1 else order)
                  = Nat.min order (length (b0 :: bl) - 1)).
      { destruct (Nat.leb_spec (length (b0 :: bl)) order); lia. }
      rewrite C, (nth_error_nth _ _ b0 Hbm). reflexivity.
    + exact E.
    + intros tm Htm. destruct Hin as (_ & _ & _ & _ & _ & Bd).
      pose proof (search_title_block _ tail Bd Htm) as S.
      fold attrs in S. rewrite <- E in S.
      unfold replace_toggle_title. rewrite S. cbn [shift m_start m_end].
      apply search_from_Some in Htm as (k & prev & len & Hk & Htm & Hs & He).
      apply TITLE_Some in Htm as (_ & _ & Hl & rest & Er).
      simpl in Hs, He.
      assert (Le : m_end tm <= length attrs).
      { pose proof (f_equal (@length ascii) Er) as Lr.
        rewrite length_skipn, !length_app in Lr. cbn [length] in Lr. lia. }
      rewrite E.
      change (open_bracket :: toggle_tag ++ attrs)
        with ((open_bracket :: toggle_tag) ++ attrs).
      rewrite <- !app_assoc.
      change 14 with (length (open_bracket :: toggle_tag)).
      rewrite firstn_app_2, skipn_app, skipn_all2 by lia.
      replace (length (open_bracket :: toggle_tag) + m_end tm
               - length (open_bracket :: toggle_tag)) with (m_end tm) by lia.
      rewrite firstn_app_le, skipn_app_le by lia.
      unfold new_attr. cbn [app]. rewrite <- !app_assoc. reflexivity.
    + intros m H. split.
      * unfold replace_toggle_title. rewrite H. reflexivity.
      * intros j Hj. unfold search in H.
        eapply search_from_leftmost; [exact H|simpl; exact Hj].
    + intros N. unfold replace_toggle_title. now rewrite N.
Qed.

(** *** The scenario of the specification *)

Lemma scenario_body_matches :
  finditer BODY_RX doc_scenario
  = [{| m_start := 0; m_end := 34;
        m_groups := {| g_tag := lit "fusion_title"; g_attrs := [];
                       g_body_start := 14; g_body := lit "Hello" |} |}].
Proof. vm_compute. reflexivity. Qed.

Lemma scenario_toggle_matches :
  finditer TOGGLE_RX doc_scenario
  = [{| m_start := 34; m_end := 83;
        m_groups := {| g_tag := toggle_tag;
                       g_attrs := lit " title=" ++ [dquote] ++ lit "Open"
                                  ++ [dquote];
                       g_body_start := 28; g_body := lit "World" |} |}].
Proof. vm_compute. reflexivity. Qed.

Opaque stable_id.

Lemma scenario_segments (k : str) :
  extract_segments doc_scenario k
  = [scenario_hello k; scenario_world k; scenario_open k].
Proof.
  unfold extract_segments.
  rewrite scenario_body_matches, scenario_toggle_matches.
  reflexivity.
Qed.

(** C1: for every source key, the scenario document yields exactly the
    three segments Hello (span 14..19), World (span 62..67, toggle 0) and
    the title Open (no span, toggle 0); applying a translated file that
    maps their ids to Bonjour, Monde and Ouvert gives the translated
    document of the specification. *)
Theorem C1_concrete_scenario (k : str) (translated : Payload) :
  extract_segments doc_scenario k
  = [scenario_hello k; scenario_world k; scenario_open k] /\
  (let tr_map := id_map (get_segments translated) in
   translated_text tr_map (seg_id (scenario_hello k)) = Ok (lit "Bonjour") ->
   translated_text tr_map (seg_id (scenario_open k)) = Ok (lit "Ouvert") ->
   translated_text tr_map (seg_id (scenario_world k)) = Ok (lit "Monde") ->
   apply_document k doc_scenario (extract_payload k doc_scenario) translated
   = Ok doc_scenario_translated).
Proof.
  split; [apply scenario_segments|].
  intros tr_map H1 H2 H3. unfold apply_document. fold tr_map.
  rewrite filter_nil.
  2:{ intros sid Hk. apply id_map_keys in Hk as (j & Hj & <-).
      unfold extract_payload, get_segments in Hj. cbn [p_segments] in Hj.
      rewrite scenario_segments in Hj.
      destruct Hj as [<-|[<-|[<-|[]]]]; cbn [j_id];
        erewrite translated_text_mem; eauto. }
  rewrite scenario_segments.
  change (filter has_span [scenario_hello k; scenario_world k; scenario_open k])
    with [scenario_hello k; scenario_world k].
  change (filter is_title [scenario_hello k; scenario_world k; scenario_open k])
    with [scenario_open k].
  cbn [rev app for_each]. unfold span_step, title_step.
  rewrite H3. cbn [bind scenario_world seg_start seg_end].
  rewrite H1. cbn [bind scenario_hello seg_start seg_end].
  rewrite H2. vm_compute. reflexivity.
Qed.

Transparent stable_id.

Lemma C1_concrete_scenario_witness :
  apply_document example_key doc_scenario
    (extract_payload example_key doc_scenario)
    (scenario_translated example_key)
  = Ok doc_scenario_translated.
Proof.
  apply (proj2 (C1_concrete_scenario example_key
                  (scenario_translated example_key)));
    vm_compute; reflexivity.
Defined.

End ApplyProps.

(** ** More about the extractor *)

Module ExtractMore.

Import Py Re PyFacts ReFacts Segments ExtractProps SegmentsMore.
Import ApplyProps.

Lemma extract_segments_emitted (text source_key : str) :
  extract_segments text source_key
  = sort_by sort_key tuple_le (emitted_segments text source_key).
Proof.
  unfold extract_segments, emitted_segments.
  destruct (fold_left (body_step source_key) _ _) as [segs idx].
  destruct (fold_left (toggle_step source_key) _ _) as [[s i] o].
  reflexivity.
Qed.

Lemma extract_emitted_perm (text source_key : str) :
  Permutation (extract_segments text source_key)
              (emitted_segments text source_key).
Proof. rewrite extract_segments_emitted. apply sort_by_perm. Qed.

Lemma nth_error_snoc (A : Type) (l : list A) (x y : A) (i : nat) :
  nth_error (l ++ [x]) i = Some y ->
  nth_error l i = Some y \/ (i = length l /\ y = x).
Proof.
  intros H. destruct (Nat.lt_ge_cases i (length l)) as [L|L].
  - left. now rewrite nth_error_app1 in H.
  - rewrite nth_error_app2 in H by assumption.
    destruct (i - length l) as [|d] eqn:D; simpl in H.
    + right. split; [lia|congruence].
    + destruct d; discriminate.
Qed.

(** *** A proof rule for the two loops *)

(** A property of ordinal and segment holds of every appended segment
    when it holds of each of the three dict literals under the tests that
    guard its [append]. *)
Section Emitted.
Variables (text source_key : str) (P : nat -> Segment -> Prop).

Hypothesis P_body :
  forall m idx,
  In m (finditer BODY_RX text) ->
  should_skip (g_body (m_groups m)) = false ->
  P idx (body_segment source_key m idx).

Hypothesis P_title :
  forall k m tm idx,
  nth_error (finditer TOGGLE_RX text) k = Some m ->
  search TITLE_ATTR_RX (g_attrs (m_groups m)) = Some tm ->
  nonempty (m_groups tm) = true ->
  should_skip (m_groups tm) = false ->
  P idx (title_segment source_key idx k (m_groups tm)).

Hypothesis P_toggle_body :
  forall k m idx,
  nth_error (finditer TOGGLE_RX text) k = Some m ->
  nonempty (strip (g_body (m_groups m))) = true ->
  should_skip (g_body (m_groups m)) = false ->
  P idx (toggle_body_segment source_key m idx k).

Let Q (segs : list Segment) : Prop :=
  forall i s, nth_error segs i = Some s -> P i s.

Lemma Q_snoc (segs : list Segment) (x : Segment) :
  Q segs -> P (length segs) x -> Q (segs ++ [x]).
Proof.
  intros H Hx i s Hi. apply nth_error_snoc in Hi as [Hi|[-> ->]]; auto.
Qed.

Lemma emitted_ind (i : nat) (s : Segment) :
  nth_error (emitted_segments text source_key) i = Some s -> P i s.
Proof.
  revert i s. change (Q (emitted_segments text source_key)).
  unfold emitted_segments.
  assert (B : let st := fold_left (body_step source_key)
                          (finditer BODY_RX text) ([], 0) in
              snd st = length (fst st) /\ Q (fst st)).
  { apply (@fold_left_prefix_inv _ _ (body_step source_key)
             (fun _ st => snd st = length (fst st) /\ Q (fst st))).
    - split; [reflexivity|]. intros [|i] s H; discriminate.
    - intros done x rest [segs idx] E [Hi HQ]. cbn [fst snd] in *.
      unfold body_step. destruct (should_skip _) eqn:Sk; [now split|].
      cbn [fst snd]. split; [rewrite length_app; simpl; lia|].
      apply Q_snoc; [assumption|]. subst idx. apply P_body; [|assumption].
      rewrite E. apply in_or_app. right. now left. }
  cbv zeta in B.
  destruct (fold_left (body_step source_key) _ _) as [segs0 idx0].
  cbn [fst snd] in B. destruct B as [-> B].
  assert (T : let st := fold_left (toggle_step source_key)
                          (finditer TOGGLE_RX text)
                          (segs0, length segs0, 0) in
              Q (fst (fst st))).
  { apply (@fold_left_prefix_inv _ _ (toggle_step source_key)
             (fun done st => snd (fst st) = length (fst (fst st)) /\
                             snd st = length done /\ Q (fst (fst st)))).
    - now repeat split.
    - intros done x rest [[segs idx] order] E (Hi & Ho & HQ).
      cbn [fst snd] in *. subst idx order.
      assert (Hx : nth_error (finditer TOGGLE_RX text) (length done) = Some x).
      { rewrite E, nth_error_app2, Nat.sub_diag by lia. reflexivity. }
      unfold toggle_step.
      set (st1 := match search TITLE_ATTR_RX (g_attrs (m_groups x)) with
                  | Some title_m => _ | None => _ end).
      assert (H1 : snd st1 = length (fst st1) /\ Q (fst st1)).
      { unfold st1.
        destruct (search TITLE_ATTR_RX (g_attrs (m_groups x))) as [tm|] eqn:S;
          [|now split].
        destruct (nonempty (m_groups tm)) eqn:N; [|now split].
        destruct (should_skip (m_groups tm)) eqn:K; [now split|].
        cbn [andb negb fst snd]. split; [rewrite length_app; simpl; lia|].
        apply Q_snoc; [assumption|]. now apply P_title with (m := x). }
      destruct st1 as [segs1 idx1]. cbn [fst snd] in H1.
      destruct H1 as [-> H1].
      destruct (nonempty (strip (g_body (m_groups x)))) eqn:N;
        [|cbn [andb fst snd]; rewrite length_app; simpl;
          repeat split; auto; lia].
      destruct (should_skip (g_body (m_groups x))) eqn:K;
        [cbn [andb negb fst snd]; rewrite length_app; simpl;
         repeat split; auto; lia|].
      cbn [andb negb fst snd]. rewrite !length_app. simpl.
      repeat split; try lia.
      apply Q_snoc; [assumption|]. now apply P_toggle_body. }
  cbv zeta in T.
  destruct (fold_left (toggle_step source_key) _ _) as [[segs idx] order].
  exact T.
Qed.

End Emitted.

(** *** What a segment records *)

Lemma provenance_span (text : str) (s : Segment) (a b : nat) :
  provenance text s -> span s = Some (a, b) ->
  exists tag m, shaped text tag m /\ a = body_start m /\ b = body_end m /\
                seg_text s = g_body (m_groups m).
Proof.
  intros [(m & Hm & F)|(k & m & Hk & [F|F])] Sp.
  - apply body_matches_shaped in Hm as (tag & _ & Hm).
    rewrite (span_of_body F) in Sp. injection Sp as <- <-.
    destruct F as (_ & _ & _ & _ & F). eauto 8.
  - rewrite (span_of_title F) in Sp. discriminate.
  - apply nth_error_In, toggle_matches_shaped in Hk.
    rewrite (span_of_toggle_body F) in Sp. injection Sp as <- <-.
    destruct F as (_ & _ & _ & _ & F). eauto 8.
Qed.

(** X1: the offsets of a returned segment are offsets into the
    document, and the text of the segment is the slice of the document
    between them: [text[start:end] == segment text], with
    [start <= end <= len(text)]. *)
Theorem X1_span_is_slice (text source_key : str) (s : Segment) (a b : nat) :
  In s (extract_segments text source_key) ->
  span s = Some (a, b) ->
  a <= b /\ b <= length text /\ slice text a b = seg_text s.
Proof.
  intros Hs Sp. pose proof (extract_provenance text source_key) as P.
  rewrite Forall_forall in P.
  destruct (provenance_span (P s Hs) Sp) as (tag & m & Hm & -> & -> & ->).
  apply shaped_body in Hm as (E & L1 & L2 & _ & L3).
  repeat apply conj; [assumption|lia|assumption].
Qed.

Lemma X1_span_is_slice_witness :
  14 <= 19 /\ 19 <= length doc_scenario /\
  slice doc_scenario 14 19 = lit "Hello".
Proof.
  apply (@X1_span_is_slice doc_scenario example_key
           (scenario_hello example_key) 14 19).
  - rewrite scenario_segments. now left.
  - reflexivity.
Defined.

(** X2: the id of a segment is the digest of its own source key, kind,
    offsets (-1 for a title) and text together with its ordinal in the
    order of appending: bodies of body tags in document order, then for
    each toggle in document order its title and its body, counting only
    the segments that are appended.  The returned list is a permutation
    of the appended one. *)
Theorem X2_id_from_ordinal (text source_key : str) :
  Permutation (extract_segments text source_key)
              (emitted_segments text source_key) /\
  forall i s,
    nth_error (emitted_segments text source_key) i = Some s ->
    seg_id s
    = stable_id source_key (seg_kind s) (Z.of_nat i)
        (offset_or_sentinel (seg_start s)) (offset_or_sentinel (seg_end s))
        (seg_text s).
Proof.
  split; [apply extract_emitted_perm|].
  intros i s H.
  now apply (@emitted_ind text source_key
               (fun i s =>
                  seg_id s
                  = stable_id source_key (seg_kind s) (Z.of_nat i)
                      (offset_or_sentinel (seg_start s))
                      (offset_or_sentinel (seg_end s)) (seg_text s))).
Qed.

Lemma X2_id_from_ordinal_witness :
  seg_id (scenario_open example_key)
  = stable_id example_key kind_title 1 (-1) (-1) (lit "Open").
Proof.
  apply (proj2 (X2_id_from_ordinal doc_scenario example_key) 1
               (scenario_open example_key)).
  vm_compute. reflexivity.
Defined.

(** X3: what the extractor never returns.  No returned text contains a
    skip marker in any letter case; the kind is a body tag or one of the
    two toggle kinds; a title is not empty and holds no double quote; a
    toggle body is not made of white space only. *)
Theorem X3_skip_filter (text source_key : str) (s : Segment) :
  In s (extract_segments text source_key) ->
  should_skip (seg_text s) = false /\
  In (seg_kind s) (BODY_TAGS ++ [kind_title; kind_body]) /\
  (is_title s = true -> seg_text s <> [] /\ ~ In dquote (seg_text s)) /\
  (is_toggle_body s = true -> strip (seg_text s) <> []).
Proof.
  intros Hs.
  apply (Permutation_in _ (extract_emitted_perm text source_key)) in Hs.
  apply In_nth_error in Hs as [i Hi]. revert Hi.
  apply (@emitted_ind text source_key
           (fun _ s =>
              should_skip (seg_text s) = false /\
              In (seg_kind s) (BODY_TAGS ++ [kind_title; kind_body]) /\
              (is_title s = true ->
               seg_text s <> [] /\ ~ In dquote (seg_text s)) /\
              (is_toggle_body s = true -> strip (seg_text s) <> []))).
  - intros m idx Hm Sk.
    apply body_matches_shaped in Hm as (tag & Ht & Hg & _).
    unfold is_title, is_toggle_body. cbn [body_segment seg_text seg_kind].
    rewrite Hg. destruct (body_tags_not_toggle Ht) as [-> ->].
    repeat apply conj; try discriminate; [assumption|].
    apply in_or_app. now left.
  - intros k m tm idx Hk S N Sk.
    unfold is_title, is_toggle_body. cbn [title_segment seg_text seg_kind].
    repeat apply conj; try discriminate; [assumption| |].
    + apply in_or_app. right. now left.
    + intros _. split; [intros E; rewrite E in N; discriminate|].
      apply search_from_Some in S as (j & prev & len & _ & S & _).
      now apply TITLE_Some in S as (_ & S & _).
  - intros k m idx Hk N Sk.
    unfold is_title, is_toggle_body.
    cbn [toggle_body_segment seg_text seg_kind].
    repeat apply conj; try discriminate; [assumption| |].
    + apply in_or_app. right. right. now left.
    + intros _ E. rewrite E in N. discriminate.
Qed.

Lemma X3_skip_filter_witness :
  should_skip (lit "Open") = false /\
  In kind_title (BODY_TAGS ++ [kind_title; kind_body]) /\
  (is_title (scenario_open example_key) = true ->
   lit "Open" <> [] /\ ~ In dquote (lit "Open")) /\
  (is_toggle_body (scenario_open example_key) = true ->
   strip (lit "Open") <> []).
Proof.
  apply (@X3_skip_filter doc_scenario example_key (scenario_open example_key)).
  rewrite scenario_segments. right. right. now left.
Defined.

(** *** Nothing that passes the tests is left out *)

Section Complete.
Variables (text source_key : str).

Lemma body_loop_complete :
  let st := fold_left (body_step source_key) (finditer BODY_RX text) ([], 0) in
  forall m, In m (finditer BODY_RX text) ->
            should_skip (g_body (m_groups m)) = false ->
            exists idx, In (body_segment source_key m idx) (fst st).
Proof.
  apply (@fold_left_prefix_inv _ _ (body_step source_key)
           (fun done st =>
              forall m, In m done ->
                        should_skip (g_body (m_groups m)) = false ->
                        exists idx, In (body_segment source_key m idx) (fst st))).
  - intros m [].
  - intros done x rest [segs idx] E IH m Hm Sk. cbn [fst] in IH.
    unfold body_step. apply in_app_or in Hm as [Hm|[<-|[]]].
    + destruct (IH m Hm Sk) as [i Hi]. exists i.
      destruct (should_skip (g_body (m_groups x))); [exact Hi|].
      cbn [fst]. apply in_or_app. now left.
    + rewrite Sk. exists idx. cbn [fst]. apply in_or_app. right. now left.
Qed.

Lemma toggle_loop_complete (segs0 : list Segment) (idx0 : nat) :
  let st := fold_left (toggle_step source_key) (finditer TOGGLE_RX text)
                      (segs0, idx0, 0) in
  (forall s, In s segs0 -> In s (fst (fst st))) /\
  forall k m,
    nth_error (finditer TOGGLE_RX text) k = Some m ->
    (forall tm,
       search TITLE_ATTR_RX (g_attrs (m_groups m)) = Some tm ->
       nonempty (m_groups tm) = true ->
       should_skip (m_groups tm) = false ->
       exists idx,
         In (title_segment source_key idx k (m_groups tm)) (fst (fst st))) /\
    (nonempty (strip (g_body (m_groups m))) = true ->
     should_skip (g_body (m_groups m)) = false ->
     exists idx, In (toggle_body_segment source_key m idx k) (fst (fst st))).
Proof.
  set (C := fun (segs : list Segment) (k : nat) (m : Match Shortcode) =>
    (forall tm,
       search TITLE_ATTR_RX (g_attrs (m_groups m)) = Some tm ->
       nonempty (m_groups tm) = true ->
       should_skip (m_groups tm) = false ->
       exists idx, In (title_segment source_key idx k (m_groups tm)) segs) /\
    (nonempty (strip (g_body (m_groups m))) = true ->
     should_skip (g_body (m_groups m)) = false ->
     exists idx, In (toggle_body_segment source_key m idx k) segs)).
  assert (Cmono : forall segs segs' k m,
            (forall s, In s segs -> In s segs') -> C segs k m -> C segs' k m).
  { intros segs segs' k m M [C1 C2]. split.
    - intros tm H1 H2 H3. destruct (C1 tm H1 H2 H3) as [i Hi]. eauto.
    - intros H1 H2. destruct (C2 H1 H2) as [i Hi]. eauto. }
  assert (G : let st := fold_left (toggle_step source_key)
                          (finditer TOGGLE_RX text) (segs0, idx0, 0) in
              snd st = length (finditer TOGGLE_RX text) /\
              (forall s, In s segs0 -> In s (fst (fst st))) /\
              forall k m, nth_error (finditer TOGGLE_RX text) k = Some m ->
                          C (fst (fst st)) k m).
  { apply (@fold_left_prefix_inv _ _ (toggle_step source_key)
             (fun done st =>
                snd st = length done /\
                (forall s, In s segs0 -> In s (fst (fst st))) /\
                forall k m, nth_error done k = Some m -> C (fst (fst st)) k m)).
    - split; [reflexivity|]. split; [auto|]. intros [|k] m H; discriminate.
    - intros done x rest [[segs idx] order] E (Ho & Hm & HC).
      cbn [fst snd] in *. subst order.
      (* the step appends to [segs] *)
      assert (S : exists segs' idx',
                toggle_step source_key (segs, idx, length done) x
                = (segs', idx', S (length done)) /\
                (forall s, In s segs -> In s segs') /\
                C segs' (length done) x).
      { unfold toggle_step.
        set (st1 := match search TITLE_ATTR_RX (g_attrs (m_groups x)) with
                    | Some title_m => _ | None => _ end).
        assert (H1 : (forall s, In s segs -> In s (fst st1)) /\
                     forall tm,
                       search TITLE_ATTR_RX (g_attrs (m_groups x)) = Some tm ->
                       nonempty (m_groups tm) = true ->
                       should_skip (m_groups tm) = false ->
                       exists i, In (title_segment source_key i (length done)
                                       (m_groups tm)) (fst st1)).
        { unfold st1.
          destruct (search TITLE_ATTR_RX (g_attrs (m_groups x))) as [tm|];
            [|split; [auto|discriminate]].
          destruct (nonempty (m_groups tm)) eqn:N;
            [|split; [auto|intros ? [= <-]; congruence]].
          destruct (should_skip (m_groups tm)) eqn:K;
            [split; [auto|intros ? [= <-]; congruence]|].
          cbn [andb negb fst]. split.
          - intros s Hs. apply in_or_app. now left.
          - intros ? [= <-] _ _. exists idx. apply in_or_app. right. now left. }
        destruct st1 as [segs1 idx1]. cbn [fst] in H1. destruct H1 as [M1 T1].
        destruct (nonempty (strip (g_body (m_groups x)))) eqn:N.
        - destruct (should_skip (g_body (m_groups x))) eqn:K;
            cbn [andb negb].
          + exists segs1, idx1. split; [reflexivity|]. split; [exact M1|].
            split; [exact T1|intros; congruence].
          + eexists _, _. split; [reflexivity|]. split; [|split].
            * intros s Hs. apply in_or_app. left. auto.
            * intros tm H2 H3 H4. destruct (T1 tm H2 H3 H4) as [i Hi].
              exists i. apply in_or_app. now left.
            * intros _ _. exists idx1. apply in_or_app. right. now left.
        - cbn [andb]. exists segs1, idx1. split; [reflexivity|].
          split; [exact M1|]. split; [exact T1|intros; congruence]. }
      destruct S as (segs' & idx' & -> & M & Cx). cbn [fst snd].
      split; [rewrite length_app; simpl; lia|]. split; [auto|].
      intros k m Hk. apply nth_error_snoc in Hk as [Hk|[-> ->]].
      + eapply Cmono; [exact M|]. now apply HC.
      + exact Cx. }
  cbv zeta in G. destruct G as (_ & G1 & G2). split; assumption.
Qed.

End Complete.

(** X4: the extractor leaves out nothing that passes its tests.  Every
    match of the body pattern whose body is not skipped gives a segment
    with that body and its offsets; every match of the toggle pattern
    gives a title segment when its attributes hold a title that is
    neither empty nor skipped, and a body segment when its body is
    neither blank nor skipped, each with the ordinal of the toggle. *)
Theorem X4_extract_complete (text source_key : str) :
  (forall m,
     In m (finditer BODY_RX text) ->
     should_skip (g_body (m_groups m)) = false ->
     exists s, In s (extract_segments text source_key) /\ from_body m s) /\
  (forall k m,
     nth_error (finditer TOGGLE_RX text) k = Some m ->
     (forall tm,
        search TITLE_ATTR_RX (g_attrs (m_groups m)) = Some tm ->
        m_groups tm <> [] ->
        should_skip (m_groups tm) = false ->
        exists s, In s (extract_segments text source_key) /\
                  from_toggle_title k m s) /\
     (strip (g_body (m_groups m)) <> [] ->
      should_skip (g_body (m_groups m)) = false ->
      exists s, In s (extract_segments text source_key) /\
                from_toggle_body k m s)).
Proof.
  assert (N : forall t, t <> [] -> nonempty t = true)
    by (intros [|c t] H; [congruence|reflexivity]).
  pose proof (body_loop_complete text source_key) as B.
  pose proof (extract_emitted_perm text source_key) as P.
  unfold emitted_segments in P. cbv zeta in B.
  destruct (fold_left (body_step source_key) _ _) as [segs0 idx0].
  pose proof (toggle_loop_complete text source_key segs0 idx0) as T.
  cbv zeta in T.
  destruct (fold_left (toggle_step source_key) _ _) as [[segs idx] order].
  cbn [fst] in B, T. destruct T as [M T].
  assert (I : forall s, In s segs -> In s (extract_segments text source_key)).
  { intros s Hs. eapply Permutation_in; [symmetry; exact P|exact Hs]. }
  split.
  - intros m Hm Sk. destruct (B m Hm Sk) as [i Hi].
    exists (body_segment source_key m i). split; [auto|].
    repeat apply conj; reflexivity.
  - intros k m Hk. destruct (T k m Hk) as [T1 T2]. split.
    + intros tm H1 H2 H3. destruct (T1 tm H1 (N _ H2) H3) as [i Hi].
      exists (title_segment source_key i k (m_groups tm)). split; [auto|].
      repeat apply conj; try reflexivity. now exists tm.
    + intros H1 H2. destruct (T2 (N _ H1) H2) as [i Hi].
      exists (toggle_body_segment source_key m i k). split; [auto|].
      repeat apply conj; reflexivity.
Qed.

Lemma X4_extract_complete_witness :
  exists s, In s (extract_segments doc_scenario example_key) /\
            from_body (nth 0 (finditer BODY_RX doc_scenario)
                             {| m_start := 0; m_end := 0;
                                m_groups := {| g_tag := []; g_attrs := [];
                                               g_body_start := 0;
                                               g_body := [] |} |}) s.
Proof.
  apply (proj1 (X4_extract_complete doc_scenario example_key)).
  - rewrite scenario_body_matches. now left.
  - rewrite scenario_body_matches. vm_compute. reflexivity.
Defined.

(** X5: the toggle ordinal of a segment is the 0-based position of its
    toggle among the matches of the toggle pattern in the document: that
    match exists, and the segment is the title found in its attributes or
    its body, whose span lies within the match. *)
Theorem X5_toggle_order (text source_key : str) (s : Segment) (k : nat) :
  In s (extract_segments text source_key) ->
  seg_toggle_order s = Some k ->
  exists m,
    nth_error (finditer TOGGLE_RX text) k = Some m /\
    (from_toggle_title k m s \/
     (from_toggle_body k m s /\
      m_start m <= body_start m /\ body_end m <= m_end m)).
Proof.
  intros Hs Ho. pose proof (extract_provenance text source_key) as P.
  rewrite Forall_forall in P.
  destruct (P s Hs) as [(m & Hm & F)|(k' & m & Hk & [F|F])].
  - destruct F as (_ & _ & _ & F & _). congruence.
  - assert (k' = k) by (destruct F as (_ & _ & _ & F & _); congruence).
    subst k'. exists m. auto.
  - assert (k' = k) by (destruct F as (_ & _ & _ & F & _); congruence).
    subst k'. exists m. split; [assumption|]. right. split; [assumption|].
    apply nth_error_In, toggle_matches_shaped, shaped_body in Hk.
    destruct Hk as (_ & _ & L1 & L2 & _). split; assumption.
Qed.

Lemma X5_toggle_order_witness :
  exists m,
    nth_error (finditer TOGGLE_RX doc_scenario) 0 = Some m /\
    (from_toggle_title 0 m (scenario_world example_key) \/
     (from_toggle_body 0 m (scenario_world example_key) /\
      m_start m <= body_start m /\ body_end m <= m_end m)).
Proof.
  apply (@X5_toggle_order doc_scenario example_key).
  - rewrite scenario_segments. right. now left.
  - reflexivity.
Defined.

(** *** The final sort *)

Section SortSorted.
Variables (A K : Type) (key : A -> K) (le : K -> K -> bool).
Hypothesis le_total : forall a b, le a b = true \/ le b a = true.
Hypothesis le_trans :
  forall a b c, le a b = true -> le b c = true -> le a c = true.

Let R (a b : A) : Prop := le (key a) (key b) = true.

Lemma insert_sorted_sorted (x : A) (l : list A) :
  ForallOrdPairs R l -> ForallOrdPairs R (insert_sorted key le x l).
Proof.
  induction 1 as [|y l F H IH]; simpl; [repeat constructor|].
  destruct (le (key x) (key y)) eqn:E.
  - constructor; [|now constructor]. constructor; [exact E|].
    eapply Forall_impl; [|exact F]. intros z Hz. unfold R in *. eauto.
  - constructor; [|exact IH].
    eapply Permutation_Forall;
      [symmetry; apply (insert_sorted_perm key le x l)|].
    constructor; [|exact F]. unfold R.
    destruct (le_total (key x) (key y)); congruence.
Qed.

Lemma sort_by_sorted (l : list A) : ForallOrdPairs R (sort_by key le l).
Proof.
  induction l as [|x l IH]; simpl; [constructor|].
  now apply insert_sorted_sorted.
Qed.

(** Stability: a class [f] of elements none of which sorts after
    another keeps its order. *)
Lemma sort_by_stable (f : A -> bool) (l : list A) :
  (forall x y, In x l -> In y l -> f x = true -> f y = true ->
               le (key x) (key y) = true) ->
  filter f (sort_by key le l) = filter f l.
Proof.
  induction l as [|x l IH]; intros H; [reflexivity|]. simpl.
  assert (IH' : filter f (sort_by key le l) = filter f l).
  { apply IH. intros a b Ha Hb. apply H; now right. }
  assert (I : forall t,
            (forall y, In y t -> f x = true -> f y = true ->
                       le (key x) (key y) = true) ->
            filter f (insert_sorted key le x t)
            = if f x then x :: filter f t else filter f t).
  { induction t as [|y t IHt]; intros Ht; [reflexivity|]. simpl.
    destruct (le (key x) (key y)) eqn:E; [reflexivity|].
    simpl. rewrite IHt by (intros z Hz; apply Ht; now right).
    destruct (f x) eqn:Fx, (f y) eqn:Fy; try reflexivity.
    rewrite (Ht y (or_introl eq_refl) eq_refl Fy) in E. discriminate. }
  rewrite I, IH'; [reflexivity|].
  intros y Hy. apply H; [now left|right].
  eapply Permutation_in; [apply sort_by_perm|exact Hy].
Qed.

End SortSorted.

Lemma tuple_le_total (a b : Z * Z) : tuple_le a b = true \/ tuple_le b a = true.
Proof.
  unfold tuple_le. destruct a as [a1 a2], b as [b1 b2]. cbn [fst snd].
  destruct (Z.ltb_spec a1 b1), (Z.ltb_spec b1 a1), (Z.eqb_spec a1 b1),
    (Z.eqb_spec b1 a1), (Z.leb_spec a2 b2), (Z.leb_spec b2 a2);
    simpl; auto; lia.
Qed.

Lemma tuple_le_trans (a b c : Z * Z) :
  tuple_le a b = true -> tuple_le b c = true -> tuple_le a c = true.
Proof.
  unfold tuple_le. destruct a as [a1 a2], b as [b1 b2], c as [c1 c2].
  cbn [fst snd].
  destruct (Z.ltb_spec a1 b1), (Z.eqb_spec a1 b1), (Z.leb_spec a2 b2),
    (Z.ltb_spec b1 c1), (Z.eqb_spec b1 c1), (Z.leb_spec b2 c2),
    (Z.ltb_spec a1 c1), (Z.eqb_spec a1 c1), (Z.leb_spec a2 c2);
    simpl; intros; try reflexivity; try discriminate; lia.
Qed.

Lemma title_has_no_span (text : str) (s : Segment) :
  provenance text s -> is_title s = true ->
  seg_start s = None /\ seg_end s = None.
Proof.
  intros [P|(k & m & _ & [F|F])] T.
  - apply of_body_scan_kind in P as (_ & P & _). congruence.
  - destruct F as (_ & F1 & F2 & _). auto.
  - destruct F as (F & _). unfold is_title in T. rewrite F in T. discriminate.
Qed.

Lemma FOP_nth_lt (A : Type) (R : A -> A -> Prop) (l : list A) :
  ForallOrdPairs R l ->
  forall i j a b, i < j -> nth_error l i = Some a -> nth_error l j = Some b ->
                  R a b.
Proof.
  induction 1 as [|x l F H IH]; intros i j a b L Hi Hj.
  - destruct i; discriminate.
  - destruct j as [|j]; [lia|]. destruct i as [|i]; simpl in *.
    + injection Hi as <-. rewrite Forall_forall in F. apply F.
      eapply nth_error_In; eassumption.
    + apply (IH i j); auto. lia.
Qed.

Lemma extract_sorted (text source_key : str) :
  ForallOrdPairs (fun a b => tuple_le (sort_key a) (sort_key b) = true)
                 (extract_segments text source_key).
Proof.
  rewrite extract_segments_emitted.
  apply sort_by_sorted; [apply tuple_le_total|apply tuple_le_trans].
Qed.

(** X6: the returned list is the appended list sorted by the key (start,
    end), absent offsets counting as 10^18, by a stable sort: it is a
    permutation of the appended segments, every segment sorts no later
    than the ones after it, and the title segments keep the order in
    which they were appended. *)
Theorem X6_sorted_output (text source_key : str) :
  let segs := extract_segments text source_key in
  Permutation segs (emitted_segments text source_key) /\
  ForallOrdPairs (fun a b => tuple_le (sort_key a) (sort_key b) = true) segs /\
  filter is_title segs = filter is_title (emitted_segments text source_key).
Proof.
  cbv zeta. split; [apply extract_emitted_perm|].
  split; [apply extract_sorted|].
  rewrite extract_segments_emitted.
  { apply sort_by_stable. intros x y Hx Hy Tx Ty.
    pose proof (extract_provenance text source_key) as P.
    rewrite Forall_forall in P.
    assert (I : forall s, In s (emitted_segments text source_key) ->
                          provenance text s).
    { intros s Hs. apply P. eapply Permutation_in;
        [symmetry; apply extract_emitted_perm|exact Hs]. }
    destruct (title_has_no_span (I x Hx) Tx) as [X1 X2].
    destruct (title_has_no_span (I y Hy) Ty) as [Y1 Y2].
    unfold sort_key. rewrite X1, X2, Y1, Y2. reflexivity. }
Qed.

(** X7: in a document shorter than 10^18 characters the segments with
    offsets come first and the title segments last: no segment without
    offsets precedes a segment with offsets, and the offset-bearing
    segments are in ascending order of start. *)
Theorem X7_titles_last (text source_key : str) (i j : nat) (a b : Segment) :
  let segs := extract_segments text source_key in
  (Z.of_nat (length text) < sentinel)%Z ->
  i < j -> nth_error segs i = Some a -> nth_error segs j = Some b ->
  forall sb eb, span b = Some (sb, eb) ->
  exists sa ea, span a = Some (sa, ea) /\ sa <= sb.
Proof.
  cbv zeta. intros L Hij Ha Hb sb eb Sb.
  pose proof (extract_provenance text source_key) as P.
  rewrite Forall_forall in P.
  assert (Ia : In a (extract_segments text source_key))
    by (eapply nth_error_In; eassumption).
  assert (Ib : In b (extract_segments text source_key))
    by (eapply nth_error_In; eassumption).
  pose proof (FOP_nth_lt (extract_sorted text source_key) Hij Ha Hb) as O.
  cbv beta in O.
  assert (Eb : seg_start b = Some sb /\ seg_end b = Some eb).
  { unfold span in Sb. destruct (seg_start b), (seg_end b); try discriminate.
    injection Sb as -> ->. auto. }
  destruct (provenance_span (P b Ib) Sb) as (tag & m & Hm & Hsb & Heb & _).
  apply shaped_body in Hm as (_ & L1 & L2 & _ & L3).
  assert (Sa : exists sa ea, span a = Some (sa, ea)).
  { destruct (P a Ia) as [(m' & _ & F)|(k & m' & _ & [F|F])].
    - rewrite (span_of_body F). eauto.
    - exfalso. destruct F as (_ & F1 & F2 & _).
      unfold sort_key, tuple_le in O. destruct Eb as [E1 E2].
      rewrite F1, F2, E1, E2 in O. cbn [fst snd] in O.
      destruct (Z.ltb_spec sentinel (Z.of_nat sb)),
        (Z.eqb_spec sentinel (Z.of_nat sb)); try lia; discriminate.
    - rewrite (span_of_toggle_body F). eauto. }
  destruct Sa as (sa & ea & Sa). exists sa, ea. split; [exact Sa|].
  unfold span in Sa. unfold sort_key, tuple_le in O. destruct Eb as [E1 E2].
  rewrite E1, E2 in O.
  destruct (seg_start a), (seg_end a); try discriminate.
  injection Sa as -> ->. cbn [fst snd] in O.
  destruct (Z.ltb_spec (Z.of_nat sa) (Z.of_nat sb)),
    (Z.eqb_spec (Z.of_nat sa) (Z.of_nat sb)); try lia; discriminate.
Qed.

Lemma X7_titles_last_witness :
  exists sa ea, span (scenario_hello example_key) = Some (sa, ea) /\ sa <= 62.
Proof.
  apply (@X7_titles_last doc_scenario example_key 0 1
           (scenario_hello example_key) (scenario_world example_key))
    with (eb := 67).
  - vm_compute. reflexivity.
  - lia.
  - rewrite scenario_segments. reflexivity.
  - rewrite scenario_segments. reflexivity.
  - reflexivity.
Defined.


(** *** The skip test *)

(** X19: the skip test is a substring test that ignores letter case.  A
    text is skipped exactly when some stretch of it, put in lower case,
    is one of the two skip markers. *)
Theorem X19_should_skip_iff (text : str) :
  should_skip text = true <->
  exists marker pre mid post,
    In marker SKIP_IF_CONTAINS /\ text = pre ++ mid ++ post /\
    lower mid = marker.
Proof.
  unfold should_skip. rewrite existsb_exists. split.
  - intros (marker & Hm & C). apply contains_true in C as (a & b & C).
    unfold lower in C. apply map_eq_app in C as (pre & r & -> & <- & C).
    apply map_eq_app in C as (mid & post & -> & <- & <-).
    exists (map lower_char mid), pre, mid, post. auto.
  - intros (marker & pre & mid & post & Hm & -> & <-).
    exists (lower mid). split; [exact Hm|]. apply contains_true.
    exists (lower pre), (lower post). unfold lower. now rewrite !map_app.
Qed.

Lemma X19_should_skip_iff_witness :
  should_skip (lit "a <SCRipt>b") = true.
Proof.
  apply (proj2 (X19_should_skip_iff (lit "a <SCRipt>b"))).
  exists (lit "<script"), (lit "a "), (lit "<SCRipt"), (lit ">b").
  repeat split. now left.
Defined.

End ExtractMore.

(** ** More about the applier *)

Module ApplyMore.

Import Py Re PyFacts ReFacts Segments ExtractProps ApplyProps SegmentsMore.
Import ExtractMore.

(** *** Splicing from right to left *)

Lemma firstn_slice (raw : str) (a b : nat) :
  a <= b -> firstn a raw ++ slice raw a b = firstn b raw.
Proof.
  intros L. unfold slice.
  rewrite <- (firstn_skipn a (firstn b raw)).
  rewrite firstn_firstn, Nat.min_l by lia. f_equal.
  now rewrite skipn_firstn_comm.
Qed.

(** Replacing from the last edit to the first, each at its original
    offsets, gives the text with every edit in place. *)
Lemma splice_all_patched (raw : str) (edits : list edit) :
  forall from,
  chained (length raw) from edits ->
  splice_all raw edits = firstn from raw ++ patched raw from edits.
Proof.
  unfold splice_all.
  induction edits as [|[[a b] t] edits IH]; intros from C.
  - symmetry. apply firstn_skipn.
  - destruct C as (L1 & L2 & L3 & C). cbn [rev patched].
    rewrite fold_left_app. cbn [fold_left].
    rewrite (IH b C). unfold apply_edit, splice. cbn [fst snd].
    rewrite firstn_app, firstn_firstn, Nat.min_l by lia.
    rewrite length_firstn, Nat.min_l by lia.
    replace (a - b) with 0 by lia. cbn [firstn]. rewrite app_nil_r.
    rewrite skipn_app, length_firstn, Nat.min_l by lia.
    rewrite Nat.sub_diag. cbn [skipn].
    rewrite skipn_all2 by (rewrite length_firstn; lia). cbn [app].
    rewrite <- (firstn_slice raw L1). now rewrite <- app_assoc.
Qed.

Lemma for_each_span_steps (tr_map : dict JSeg) (new_text : Segment -> str)
    (l : list Segment) :
  forall out,
  (forall s, In s l ->
             has_span s = true /\
             translated_text tr_map (seg_id s) = Ok (new_text s)) ->
  for_each (span_step tr_map) l out
  = Ok (fold_left apply_edit (map (edit_of new_text) l) out).
Proof.
  induction l as [|s l IH]; intros out H; [reflexivity|].
  cbn [for_each map fold_left].
  destruct (H s (or_introl eq_refl)) as [Sp T].
  unfold span_step at 1. rewrite T. cbn [bind].
  unfold has_span in Sp. unfold edit_of at 2.
  destruct (seg_start s), (seg_end s); try discriminate.
  unfold apply_edit at 2. cbn [bind fst snd].
  apply IH. intros s' Hs'. apply H. now right.
Qed.

(** Sorted, pairwise disjoint spans within the text form a chain. *)
Lemma sorted_disjoint_chained (n : nat) (new_text : Segment -> str)
    (l : list Segment) :
  Forall (fun s => exists a b, span s = Some (a, b) /\ a <= b /\ b <= n) l ->
  ForallOrdPairs (fun a b => tuple_le (sort_key a) (sort_key b) = true) l ->
  ForallOrdPairs disjoint l ->
  forall from,
  (forall s a b, In s l -> span s = Some (a, b) -> from <= a) ->
  chained n from (map (edit_of new_text) l).
Proof.
  induction l as [|s l IH]; intros B O D from F; [exact I|].
  inversion B as [|? ? (a & b & Sp & L1 & L2) B']; subst.
  inversion O as [|? ? O1 O']; subst. inversion D as [|? ? D1 D']; subst.
  assert (E : seg_start s = Some a /\ seg_end s = Some b).
  { unfold span in Sp. destruct (seg_start s), (seg_end s); try discriminate.
    injection Sp as -> ->. auto. }
  destruct E as [E1 E2].
  cbn [map chained]. unfold edit_of at 1. rewrite E1, E2.
  repeat apply conj; auto.
  - apply (F s a b); [now left|assumption].
  - apply IH; auto. intros s' a' b' Hs' Sp'.
    rewrite Forall_forall in O1, D1, B'.
    specialize (O1 s' Hs'). specialize (D1 s' Hs' a b a' b' Sp Sp').
    destruct (B' s' Hs') as (a1 & b1 & Sp1 & L3 & L4).
    rewrite Sp' in Sp1. injection Sp1 as <- <-.
    unfold span in Sp'. unfold sort_key, tuple_le in O1. rewrite E1, E2 in O1.
    destruct (seg_start s'), (seg_end s'); try discriminate.
    injection Sp' as -> ->. cbn [fst snd] in O1.
    destruct (Z.ltb_spec (Z.of_nat a) (Z.of_nat a')),
      (Z.eqb_spec (Z.of_nat a) (Z.of_nat a')),
      (Z.leb_spec (Z.of_nat b) (Z.of_nat b')); try discriminate; lia.
Qed.

Lemma missing_none (source_key raw : str) (translated : Payload) :
  (forall s, In s (extract_segments raw source_key) ->
             exists t, translated_text (id_map (get_segments translated))
                                       (seg_id s) = Ok t) ->
  filter (fun sid => negb (dict_mem sid (id_map (get_segments translated))))
         (dict_keys (id_map (get_segments (extract_payload source_key raw))))
  = [].
Proof.
  intros H. apply filter_nil. intros k Hk.
  apply id_map_keys in Hk as (j & Hj & <-).
  unfold extract_payload, get_segments in Hj. cbn [p_segments] in Hj.
  apply in_map_iff in Hj as (s & <- & Hs). cbn [j_id].
  destruct (H s Hs) as [t Ht]. now rewrite (translated_text_mem _ _ Ht).
Qed.

(** X8: the splicing loop is correct when the spans cannot overlap.  If
    the document yields no title segment and all its segments come from
    one scan (for instance a document without toggles), and the
    translated file has a text for every segment, then the applier
    returns the document in which each segment's span holds its new text
    and everything outside the spans is unchanged; the spans form a chain
    in document order. *)
Theorem X8_splice_correct (raw source_key : str) (translated : Payload)
    (new_text : Segment -> str) :
  let segs := extract_segments raw source_key in
  (forall s, In s segs -> is_title s = false) ->
  (forall a b, In a segs -> In b segs -> same_scan a b) ->
  (forall s, In s segs ->
             translated_text (id_map (get_segments translated)) (seg_id s)
             = Ok (new_text s)) ->
  chained (length raw) 0 (map (edit_of new_text) segs) /\
  apply_document source_key raw (extract_payload source_key raw) translated
  = Ok (patched raw 0 (map (edit_of new_text) segs)).
Proof.
  cbv zeta. intros NT SS TT.
  set (segs := extract_segments raw source_key) in *.
  pose proof (extract_provenance raw source_key) as P. fold segs in P.
  rewrite Forall_forall in P.
  assert (Sp : forall s, In s segs ->
                 exists a b, span s = Some (a, b) /\ a <= b /\ b <= length raw).
  { intros s Hs. destruct (P s Hs) as [B|T].
    - apply of_body_scan_kind in B as (_ & _ & a & b & Sp).
      exists a, b. split; [exact Sp|].
      destruct (provenance_span (P s Hs) Sp) as (tag & m & Hm & -> & -> & _).
      apply shaped_body in Hm as (_ & L1 & L2 & _ & L3). lia.
    - apply of_toggle_scan_kind in T as [(_ & _ & a & b & Sp)|(_ & T & _)].
      + exists a, b. split; [exact Sp|].
        destruct (provenance_span (P s Hs) Sp) as (tag & m & Hm & -> & -> & _).
        apply shaped_body in Hm as (_ & L1 & L2 & _ & L3). lia.
      + rewrite (NT s Hs) in T. discriminate. }
  assert (C : chained (length raw) 0 (map (edit_of new_text) segs)).
  { apply sorted_disjoint_chained.
    - apply Forall_forall. exact Sp.
    - apply extract_sorted.
    - pose proof (extract_apart raw source_key) as A. fold segs in A.
      clear - A SS. induction A as [|x l F A IH]; constructor.
      + rewrite Forall_forall in *. intros y Hy. apply F; [exact Hy|].
        apply SS; [now left|now right].
      + apply IH. intros a b Ha Hb. apply SS; now right.
    - intros; lia. }
  split; [exact C|].
  unfold apply_document. rewrite missing_none by eauto.
  fold segs.
  assert (F1 : filter has_span segs = segs).
  { clear - Sp. induction segs as [|s l IH]; [reflexivity|]. simpl.
    destruct (Sp s (or_introl eq_refl)) as (a & b & E & _).
    unfold has_span. unfold span in E.
    destruct (seg_start s), (seg_end s); try discriminate.
    f_equal. apply IH. intros s' Hs'. apply Sp. now right. }
  rewrite F1, (filter_nil _ _ NT).
  rewrite (@for_each_span_steps _ new_text).
  - cbn [bind for_each]. f_equal. rewrite map_rev.
    exact (splice_all_patched raw _ 0 C).
  - intros s Hs. apply in_rev in Hs. split; [|now apply TT].
    destruct (Sp s Hs) as (a & b & E & _). unfold has_span. unfold span in E.
    now destruct (seg_start s), (seg_end s).
Qed.

Lemma X8_splice_correct_witness :
  apply_document example_key doc_two_blocks
    (extract_payload example_key doc_two_blocks)
    (marked_payload example_key doc_two_blocks)
  = Ok (lit "[fusion_text]Xa[/fusion_text][fusion_text]Xb[/fusion_text]").
Proof.
  refine (eq_trans (proj2 (@X8_splice_correct doc_two_blocks example_key
                             (marked_payload example_key doc_two_blocks)
                             marked _ _ _)) _).
  - intros s Hs. vm_compute in Hs.
    destruct Hs as [<-|[<-|[]]]; reflexivity.
  - intros a b Ha Hb. vm_compute in Ha, Hb.
    destruct Ha as [<-|[<-|[]]], Hb as [<-|[<-|[]]]; reflexivity.
  - intros s Hs. vm_compute in Hs.
    destruct Hs as [<-|[<-|[]]]; vm_compute; reflexivity.
  - vm_compute. reflexivity.
Defined.

(** *** The run over the files *)

Lemma apply_files_app (done rest : list ContainerFile) (outs : list str) :
  Forall2 (fun g out => apply_file g = Ok out) done outs ->
  forall written,
  apply_files (done ++ rest) written
  = apply_files rest (written ++ combine (map rel done) outs).
Proof.
  induction 1 as [|g out done outs H F IH]; intros written.
  - now rewrite app_nil_r.
  - cbn [app apply_files map combine]. rewrite H, IH, <- app_assoc.
    reflexivity.
Qed.

(** X9: a run of the applier writes the containers in order and stops at
    the first one that fails.  When every container is processed without
    error, each is written under its relative path.  When a container
    fails, the run ends with its exception, the containers before it have
    been written and none after it is touched, whatever they are. *)
Theorem X9_apply_stops_at_first_error :
  (forall files outs,
     files <> [] ->
     Forall2 (fun g out => apply_file g = Ok out) files outs ->
     cmd_apply files = (combine (map rel files) outs, Ok tt)) /\
  (forall done outs f e rest,
     Forall2 (fun g out => apply_file g = Ok out) done outs ->
     apply_file f = Raise e ->
     cmd_apply (done ++ f :: rest) = (combine (map rel done) outs, Raise e)).
Proof.
  split.
  - intros files outs N F. unfold cmd_apply.
    destruct files as [|f files]; [congruence|].
    pose proof (apply_files_app [] F []) as A. rewrite app_nil_r in A.
    rewrite A. reflexivity.
  - intros done outs f e rest F H. unfold cmd_apply.
    destruct (done ++ f :: rest) eqn:E;
      [destruct done; discriminate|]. rewrite <- E.
    rewrite (apply_files_app (f :: rest) F). cbn [apply_files app].
    now rewrite H.
Qed.

Lemma X9_apply_stops_at_first_error_witness :
  exists e, cmd_apply [scenario_incomplete; scenario_incomplete] = ([], Raise e).
Proof.
  eexists.
  apply (proj2 X9_apply_stops_at_first_error [] [] scenario_incomplete _
               [scenario_incomplete]).
  - constructor.
  - vm_compute. reflexivity.
Defined.

(** *** Extract, then apply *)

Lemma id_map_get (l : list JSeg) (k : str) (j : JSeg) :
  dict_get k (id_map l) = Some j -> In j l /\ j_id j = k.
Proof.
  unfold id_map.
  enough (G : forall d,
             dict_get k (fold_left (fun d s => dict_set (j_id s) s d) l d)
             = Some j ->
             (In j l /\ j_id j = k) \/ dict_get k d = Some j).
  { intros H. destruct (G [] H) as [G'|G']; [exact G'|discriminate]. }
  induction l as [|x l IH]; intros d H; simpl in H; [now right|].
  apply IH in H as [[H1 H2]|H]; [left; split; [now right|assumption]|].
  rewrite dict_get_set in H. destruct (str_eqb k (j_id x)) eqn:E; [|now right].
  injection H as <-. apply str_eqb_true in E. left. split; [now left|auto].
Qed.

Lemma own_text (source_key raw : str) (s : Segment) :
  (forall a b, In a (extract_segments raw source_key) ->
               In b (extract_segments raw source_key) ->
               seg_id a = seg_id b -> seg_text a = seg_text b) ->
  In s (extract_segments raw source_key) ->
  translated_text (id_map (get_segments (extract_payload source_key raw)))
                  (seg_id s)
  = Ok (seg_text s).
Proof.
  intros U Hs. unfold translated_text.
  set (js := get_segments (extract_payload source_key raw)).
  assert (M : dict_mem (seg_id s) (id_map js) = true).
  { apply id_map_mem.
    exists {| j_id := seg_id s; j_kind := seg_kind s;
              j_text := Some (seg_text s) |}.
    split; [|reflexivity]. unfold js, extract_payload, get_segments.
    cbn [p_segments]. apply in_map_iff. exists s. auto. }
  unfold dict_mem in M.
  destruct (dict_get (seg_id s) (id_map js)) as [j|] eqn:G; [|discriminate].
  apply id_map_get in G as [Hj Hi].
  unfold js, extract_payload, get_segments in Hj. cbn [p_segments] in Hj.
  apply in_map_iff in Hj as (s' & <- & Hs'). cbn [j_id j_text] in *.
  now rewrite (U s' s Hs' Hs Hi).
Qed.

Lemma apply_own_extract (source_key raw : str) :
  (forall a b, In a (extract_segments raw source_key) ->
               In b (extract_segments raw source_key) ->
               seg_id a = seg_id b -> seg_text a = seg_text b) ->
  apply_document source_key raw (extract_payload source_key raw)
                 (extract_payload source_key raw)
  = Ok raw.
Proof.
  intros U. unfold apply_document.
  rewrite missing_none
    by (intros s Hs; exists (seg_text s); now apply own_text).
  pose proof (extract_provenance raw source_key) as P.
  rewrite Forall_forall in P.
  rewrite for_each_fixed.
  - cbn [bind]. apply for_each_fixed. intros s Hs.
    apply filter_In in Hs as [Hs Ht].
    apply title_step_same; auto. now apply own_text.
  - intros s Hs. apply in_rev, filter_In in Hs as [Hs Hp].
    apply span_step_same; auto. now apply own_text.
Qed.

(** X10: extract followed by apply is the identity on a whole folder.
    When no two segments of a container share an id while their texts
    differ, running the applier with the files written by the extractor
    in the place of the translated files writes every container back
    unchanged, under its own path and in the same order. *)
Theorem X10_extract_then_apply (files : list (str * str)) :
  files <> [] ->
  (forall f a b,
     In f files ->
     In a (extract_segments (snd f) (fst f)) ->
     In b (extract_segments (snd f) (fst f)) ->
     seg_id a = seg_id b -> seg_text a = seg_text b) ->
  snd (cmd_extract files) = Ok tt /\
  cmd_apply (untranslated files) = (files, Ok tt).
Proof.
  intros N U. unfold untranslated.
  assert (X : cmd_extract files
              = (map (fun f => (fst f, extract_payload (fst f) (snd f))) files,
                 Ok tt))
    by (destruct files; [congruence|reflexivity]).
  rewrite X. cbn [fst snd]. split; [reflexivity|].
  assert (C : combine files
                (map (fun f => (fst f, extract_payload (fst f) (snd f))) files)
              = map (fun f => (f, (fst f, extract_payload (fst f) (snd f))))
                    files).
  { clear. induction files as [|f l IH]; [reflexivity|]. simpl. now rewrite IH. }
  rewrite C, map_map. cbn [fst snd].
  set (cf := fun f : str * str =>
               {| rel := fst f; raw := snd f;
                  extracted_file := Some (extract_payload (fst f) (snd f));
                  translated_file := Some (extract_payload (fst f) (snd f)) |}).
  assert (F : Forall2 (fun g out => apply_file g = Ok out)
                      (map cf files) (map snd files)).
  { clear C N X. induction files as [|f l IH]; [constructor|].
    cbn [map]. constructor.
    - unfold apply_file, cf. cbn [extracted_file translated_file rel Segments.raw].
      apply apply_own_extract. intros a b. apply U. now left.
    - apply IH. intros g a b Hg. apply U. now right. }
  unfold cmd_apply. destruct (map cf files) eqn:M.
  - destruct files; [congruence|discriminate].
  - pose proof (apply_files_app [] F []) as A.
    rewrite app_nil_r in A. rewrite A. cbn [apply_files app].
    rewrite <- M. f_equal. rewrite map_map. unfold cf. cbn [rel].
    clear. induction files as [|[k r] l IH]; [reflexivity|].
    simpl. now rewrite IH.
Qed.

Lemma X10_extract_then_apply_witness :
  cmd_apply (untranslated [(example_key, doc_scenario)])
  = ([(example_key, doc_scenario)], Ok tt).
Proof.
  apply (proj2 (@X10_extract_then_apply [(example_key, doc_scenario)]
                  ltac:(discriminate)
                  ltac:(intros f a b [<-|[]] Ha Hb; cbn [fst snd] in Ha, Hb;
                        rewrite scenario_segments in Ha, Hb;
                        destruct Ha as [<-|[<-|[<-|[]]]];
                        destruct Hb as [<-|[<-|[<-|[]]]];
                        try reflexivity; intros E; vm_compute in E;
                        discriminate E))).
Defined.

(** *** Writing a title and reading it back *)

Lemma find_char_first (c : ascii) (a b : str) :
  ~ In c a -> find_char c (a ++ c :: b) = Some (length a).
Proof.
  induction a as [|x a IH]; intros N; cbn [app find_char length].
  - now rewrite eqc_refl.
  - destruct (eqc c x) eqn:E.
    + apply eqc_true in E. exfalso. apply N. now left.
    + rewrite IH; [reflexivity|]. intros H. apply N. now right.
Qed.

Section Search.
Variables (G : Type) (rx : regex G).

Lemma prev_at_cons (prev : option ascii) (c : ascii) (s : str) (k : nat) :
  prev_at prev (c :: s) (S k) = prev_at (Some c) s k.
Proof. destruct k; reflexivity. Qed.

(** The match that [search] reports, with the character before it. *)
Lemma search_from_prev (m : Match G) :
  forall s prev pos,
  search_from rx prev pos s = Some m ->
  exists k len,
    k < length s /\
    rx (prev_at prev s k) (skipn k s) = Some (m_groups m, len) /\
    m_start m = pos + k /\ m_end m = pos + k + len.
Proof.
  induction s as [|c s IH]; intros prev pos H; cbn [search_from] in H;
    [discriminate|].
  destruct (rx prev (c :: s)) as [[g len]|] eqn:E.
  - injection H as <-. exists 0, len. cbn [m_groups m_start m_end length].
    repeat split; try lia. exact E.
  - apply IH in H as (k & len & H1 & H2 & H3 & H4).
    exists (S k), len. rewrite prev_at_cons. cbn [skipn length].
    repeat split; try lia. exact H2.
Qed.

(** A position that matches, with none before it, is what [search]
    reports. *)
Lemma search_from_intro :
  forall s prev pos k g len,
  (forall j, j < k -> rx (prev_at prev s j) (skipn j s) = None) ->
  rx (prev_at prev s k) (skipn k s) = Some (g, len) ->
  k < length s ->
  search_from rx prev pos s
  = Some {| m_start := pos + k; m_end := pos + k + len; m_groups := g |}.
Proof.
  induction s as [|c s IH]; intros prev pos k g len N R L;
    [simpl in L; lia|].
  cbn [search_from]. destruct k as [|k].
  - cbn [prev_at skipn] in R. rewrite R, Nat.add_0_r. reflexivity.
  - pose proof (N 0 ltac:(lia)) as N0. cbn [prev_at skipn] in N0. rewrite N0.
    rewrite prev_at_cons in R. cbn [skipn] in R.
    rewrite (IH (Some c) (S pos) k g len).
    + do 2 f_equal; lia.
    + intros j Hj. specialize (N (S j) ltac:(lia)).
      now rewrite prev_at_cons in N.
    + exact R.
    + simpl in L. lia.
Qed.

End Search.

(** Before the place of a title attribute, what follows its opening
    quote does not decide whether the pattern matches. *)
Lemma TITLE_before (p : option ascii) (u x x' : str) :
  u <> [] -> In dquote x ->
  TITLE_ATTR_RX p (u ++ title_prefix ++ x) = None ->
  TITLE_ATTR_RX p (u ++ title_prefix ++ x') = None.
Proof.
  intros U Q H. unfold TITLE_ATTR_RX in *.
  assert (Hd : hd_error (u ++ title_prefix ++ x')
               = hd_error (u ++ title_prefix ++ x))
    by (destruct u; [congruence|reflexivity]).
  rewrite Hd. destruct (boundary p _); [|reflexivity].
  destruct (strip_prefix title_prefix (u ++ title_prefix ++ x')) as [r'|] eqn:S';
    [|reflexivity].
  exfalso. rewrite app_assoc in S'.
  apply strip_prefix_shorten in S' as (w & S & ->).
  2:{ rewrite length_app. lia. }
  apply (strip_prefix_ext _ _ x) in S. rewrite <- app_assoc in S.
  rewrite S in H.
  destruct (find_char dquote (w ++ x)) as [n|] eqn:F; [discriminate|].
  apply find_char_None in F. apply F. apply in_or_app. now right.
Qed.

Lemma prev_at_app (pre y : str) (j : nat) :
  j <= length pre -> prev_at None (pre ++ y) j = prev_at None pre j.
Proof.
  intros L. destruct j as [|j]; [reflexivity|]. cbn [prev_at].
  apply nth_error_app1. lia.
Qed.

Lemma skipn_app_le' (pre y : str) (j : nat) :
  j <= length pre -> skipn j (pre ++ y) = skipn j pre ++ y.
Proof.
  intros L. rewrite skipn_app. replace (j - length pre) with 0 by lia.
  reflexivity.
Qed.

(** X20: writing a title and reading it back.  When a block has a title
    attribute, [replace_toggle_title] changes nothing before it and
    nothing after its closing quote, and the title that the pattern then
    finds, at the same place, is the new title up to its first double
    quote: the new title itself when it has none (in which case writing
    the old title again restores the block), a truncated one
    otherwise. *)
Theorem X20_title_read_back (block new_title : str) (m : Match str) :
  search TITLE_ATTR_RX block = Some m ->
  exists m',
    search TITLE_ATTR_RX (replace_toggle_title block new_title) = Some m' /\
    m_start m' = m_start m /\
    m_groups m' = kept_title new_title /\
    firstn (m_start m) (replace_toggle_title block new_title)
    = firstn (m_start m) block /\
    (~ In dquote new_title ->
     skipn (m_end m') (replace_toggle_title block new_title)
     = skipn (m_end m) block /\
     replace_toggle_title (replace_toggle_title block new_title) (m_groups m)
     = block).
Proof.
  intros H.
  assert (Hr : replace_toggle_title block new_title
               = firstn (m_start m) block
                 ++ (title_prefix ++ new_title ++ [dquote])
                 ++ skipn (m_end m) block)
    by (unfold replace_toggle_title; now rewrite H).
  rewrite Hr. clear Hr.
  pose proof (search_from_leftmost _ _ _ _ H) as Lm.
  apply search_from_prev in H as (k & len & Lk & R & Hs & He).
  cbn [Nat.add] in Hs, He, Lm. rewrite Hs, He. rewrite Hs in Lm.
  pose proof R as R'.
  apply TITLE_Some in R' as (B & NQ & Hl & rest & E).
  set (v := m_groups m) in *. set (pre := firstn k block).
  assert (Lp : length pre = k) by (apply firstn_length_le; lia).
  assert (Eb : block = pre ++ title_prefix ++ v ++ dquote :: rest)
    by (rewrite <- E; symmetry; apply firstn_skipn).
  assert (Er : skipn (k + len) block = rest).
  { rewrite Nat.add_comm, <- skipn_skipn, E, Hl.
    replace (title_prefix ++ v ++ dquote :: rest)
      with ((title_prefix ++ v ++ [dquote]) ++ rest)
      by (now rewrite <- !app_assoc).
    rewrite skipn_app, skipn_all2 by (rewrite !length_app; simpl; lia).
    replace (length title_prefix + length v + 1
             - length (title_prefix ++ v ++ [dquote])) with 0
      by (rewrite !length_app; simpl; lia).
    reflexivity. }
  rewrite Er.
  set (block' := pre ++ (title_prefix ++ new_title ++ [dquote]) ++ rest).
  assert (Eb' : block' = pre ++ title_prefix ++ new_title ++ dquote :: rest)
    by (unfold block'; now rewrite <- !app_assoc).
  (* what the pattern finds at offset [k] of the new block *)
  assert (F : exists n,
            find_char dquote (new_title ++ dquote :: rest) = Some n /\
            firstn n (new_title ++ dquote :: rest) = kept_title new_title /\
            (~ In dquote new_title -> n = length new_title)).
  { unfold kept_title.
    destruct (find_char dquote new_title) as [n|] eqn:Fn.
    - exists n. split; [now apply find_char_ext|].
      apply find_char_Some in Fn as (Fn1 & _ & Fn3).
      split.
      + rewrite firstn_app. replace (n - length new_title) with 0 by lia.
        cbn [firstn]. apply app_nil_r.
      + intros N. exfalso. apply N. rewrite Fn1. apply in_or_app.
        right. now left.
    - apply find_char_None in Fn. exists (length new_title).
      split; [now apply find_char_first|].
      split; [|reflexivity].
      now rewrite firstn_app, firstn_all, Nat.sub_diag, firstn_O, app_nil_r. }
  destruct F as (n & Fn & Kn & Ln).
  assert (R1 : TITLE_ATTR_RX (prev_at None block' k) (skipn k block')
               = Some (kept_title new_title, length title_prefix + n + 1)).
  { assert (Sk : skipn k pre = []) by (rewrite <- Lp; apply skipn_all).
    assert (Pk : prev_at None block k = prev_at None pre k)
      by (rewrite Eb at 1; apply prev_at_app; lia).
    rewrite Eb', prev_at_app, skipn_app_le' by lia. rewrite Sk. cbn [app].
    rewrite Pk, E in B. unfold TITLE_ATTR_RX.
    change (hd_error (title_prefix ++ new_title ++ dquote :: rest))
      with (hd_error (title_prefix ++ v ++ dquote :: rest)).
    rewrite B, strip_prefix_app, Fn, Kn. reflexivity. }
  assert (N1 : forall j, j < k ->
               TITLE_ATTR_RX (prev_at None block' j) (skipn j block') = None).
  { intros j Hj. specialize (Lm j Hj).
    rewrite Eb', prev_at_app, skipn_app_le' by lia.
    rewrite Eb, prev_at_app, skipn_app_le' in Lm by lia.
    apply TITLE_before with (x := v ++ dquote :: rest).
    - intros Z. apply (f_equal (@length ascii)) in Z.
      rewrite length_skipn in Z. simpl in Z. lia.
    - apply in_or_app. right. now left.
    - exact Lm. }
  assert (Lb : k < length block')
    by (rewrite Eb', !length_app; change (length title_prefix) with 7; lia).
  pose proof (@search_from_intro _ TITLE_ATTR_RX block' None 0 k _ _ N1 R1 Lb)
    as S'.
  eexists. split; [exact S'|]. cbn [m_start m_end m_groups Nat.add].
  split; [reflexivity|]. split; [reflexivity|]. split.
  - rewrite Eb', <- Lp.
    now rewrite firstn_app, firstn_all, Nat.sub_diag, firstn_O, app_nil_r.
  - intros NQ'. rewrite (Ln NQ') in *.
    assert (Sk : skipn (k + (length title_prefix + length new_title + 1))
                       block' = rest).
    { rewrite Eb'.
      replace (pre ++ title_prefix ++ new_title ++ dquote :: rest)
        with ((pre ++ title_prefix ++ new_title ++ [dquote]) ++ rest)
        by (now rewrite <- !app_assoc).
      replace (k + (length title_prefix + length new_title + 1))
        with (length (pre ++ title_prefix ++ new_title ++ [dquote]))
        by (rewrite !length_app; simpl; lia).
      now rewrite skipn_app, skipn_all, Nat.sub_diag. }
    split; [exact Sk|].
    unfold replace_toggle_title, search. rewrite S'.
    cbn [m_start m_end Nat.add]. rewrite Sk.
    assert (Fk : firstn k block' = pre).
    { rewrite Eb', <- Lp.
      now rewrite firstn_app, firstn_all, Nat.sub_diag, firstn_O, app_nil_r. }
    rewrite Fk, Eb at 1. now rewrite <- !app_assoc.
Qed.

Lemma X20_title_read_back_witness :
  exists m',
    search TITLE_ATTR_RX (replace_toggle_title doc_scenario (lit "Ouvert"))
    = Some m' /\
    m_start m' = 49 /\
    m_groups m' = kept_title (lit "Ouvert") /\
    firstn 49 (replace_toggle_title doc_scenario (lit "Ouvert"))
    = firstn 49 doc_scenario /\
    (~ In dquote (lit "Ouvert") ->
     skipn (m_end m') (replace_toggle_title doc_scenario (lit "Ouvert"))
     = skipn 61 doc_scenario /\
     replace_toggle_title (replace_toggle_title doc_scenario (lit "Ouvert"))
                          (lit "Open")
     = doc_scenario).
Proof.
  apply (@X20_title_read_back doc_scenario (lit "Ouvert")
           {| m_start := 49; m_end := 61; m_groups := lit "Open" |}).
  reflexivity.
Defined.

(** *** Which errors the applier can raise *)

Lemma filter_nil_inv (A : Type) (f : A -> bool) (l : list A) :
  filter f l = [] -> forall x, In x l -> f x = false.
Proof.
  induction l as [|y l IH]; intros H x Hx; [destruct Hx|].
  simpl in H. destruct (f y) eqn:E; [discriminate|].
  destruct Hx as [<-|Hx]; auto.
Qed.

Lemma translated_text_Ok (tr_map : dict JSeg) (sid : str) :
  dict_mem sid tr_map = true -> exists t, translated_text tr_map sid = Ok t.
Proof.
  unfold dict_mem, translated_text.
  destruct (dict_get sid tr_map); [eauto|discriminate].
Qed.

Lemma for_each_span_ok (tr_map : dict JSeg) (l : list Segment) :
  (forall s, In s l ->
             has_span s = true /\ dict_mem (seg_id s) tr_map = true) ->
  forall out, exists out', for_each (span_step tr_map) l out = Ok out'.
Proof.
  induction l as [|s l IH]; intros H out; [now exists out|].
  destruct (H s (or_introl eq_refl)) as [Sp M].
  destruct (translated_text_Ok _ _ M) as [t T].
  cbn [for_each]. unfold span_step at 1. rewrite T. cbn [bind].
  unfold has_span in Sp. destruct (seg_start s), (seg_end s); try discriminate.
  cbn [bind]. apply IH. intros s' Hs'. apply H. now right.
Qed.

Lemma for_each_title_errors (source_key : str) (tr_map : dict JSeg)
    (l : list Segment) :
  (forall s, In s l -> dict_mem (seg_id s) tr_map = true) ->
  forall out e,
  for_each (title_step source_key tr_map) l out = Raise e ->
  e = ValueError_no_toggle_block source_key.
Proof.
  induction l as [|s l IH]; intros H out e R; [discriminate|].
  destruct (translated_text_Ok _ _ (H s (or_introl eq_refl))) as [t T].
  cbn [for_each] in R. unfold title_step at 1 in R. rewrite T in R.
  cbn [bind] in R.
  destruct (finditer toggle_block_rx out) as [|b0 blocks].
  - cbn [bind] in R. congruence.
  - cbn [bind] in R. eapply IH; [|exact R].
    intros s' Hs'. apply H. now right.
Qed.

(** X21: which errors the applier can raise for a document.  With the
    extracted file that the extractor wrote for this very document, the
    only errors are the list of missing ids (never empty) and the missing
    toggle block; no key lookup fails.  With an extracted file that does
    not belong to the document this is no longer so: for an extracted and
    a translated file without segments the missing-ids test passes and
    the lookup of the first replaced segment fails. *)
Theorem X21_apply_errors (source_key : str) :
  (forall raw translated e,
     apply_document source_key raw (extract_payload source_key raw) translated
     = Raise e ->
     (exists ids, ids <> [] /\ e = ValueError_missing_ids source_key ids) \/
     e = ValueError_no_toggle_block source_key) /\
  apply_document source_key doc_scenario (empty_payload source_key)
                 (empty_payload source_key)
  = Raise (KeyError (seg_id (scenario_world source_key))).
Proof.
  split.
  - intros raw translated e. unfold apply_document.
    set (tr_map := id_map (get_segments translated)).
    destruct (filter _ (dict_keys _)) as [|k missing] eqn:F.
    + assert (M : forall s, In s (extract_segments raw source_key) ->
                            dict_mem (seg_id s) tr_map = true).
      { intros s Hs.
        pose proof (filter_nil_inv _ _ F (seg_id s)) as N.
        apply negb_false_iff. apply N. apply id_map_keys.
        exists {| j_id := seg_id s; j_kind := seg_kind s;
                  j_text := Some (seg_text s) |}.
        split; [|reflexivity]. unfold extract_payload, get_segments.
        cbn [p_segments]. apply in_map_iff. exists s. auto. }
      destruct (@for_each_span_ok tr_map
                  (rev (filter has_span (extract_segments raw source_key))))
        with (out := raw) as [out' ->].
      { intros s Hs. apply in_rev, filter_In in Hs as [Hs Sp]. auto. }
      cbn [bind]. intros R. right.
      eapply for_each_title_errors; [|exact R].
      intros s Hs. apply filter_In in Hs as [Hs _]. auto.
    + intros R. injection R as <-. left. eexists. split; [|reflexivity].
      discriminate.
  - unfold apply_document. cbn [filter empty_payload get_segments p_segments
                                  id_map fold_left dict_keys map].
    rewrite scenario_segments. reflexivity.
Qed.

Lemma X21_apply_errors_witness :
  (exists ids,
     ids <> [] /\
     ValueError_missing_ids example_key [seg_id (scenario_open example_key)]
     = ValueError_missing_ids example_key ids) \/
  ValueError_missing_ids example_key [seg_id (scenario_open example_key)]
  = ValueError_no_toggle_block example_key.
Proof.
  apply (proj1 (X21_apply_errors example_key) doc_scenario
               (scenario_partial example_key)).
  vm_compute. reflexivity.
Defined.

End ApplyMore.

(** ** Batching, the file loop and the bracket tokens *)

Module TranslateMore.

Import Py Re PyFacts ReFacts PyMore Translate TranslateFile.
Import Segments(JSeg, j_id, j_kind, j_text, Payload, p_source_key, p_segments,
                dict, dict_set, dict_get, dict_mem).
Import TranslateProps.

(** *** [chunk_list] *)

Section Chunks.
Variables (A : Type) (items : list A) (n : nat).
Hypothesis n_pos : 0 < n.

Let chunk (i : nat) : list A := slice_list items i (i + n).

Lemma chunk_eq (i : nat) : chunk i = firstn n (skipn i items).
Proof. unfold chunk, slice_list. f_equal. lia. Qed.

Lemma chunk_length (i : nat) : length (chunk i) = Nat.min n (length items - i).
Proof. now rewrite chunk_eq, length_firstn, length_skipn. Qed.

(** The chunks cut from offset [i] on. *)
Lemma chunks_from (fuel : nat) :
  forall i,
  length items - i <= fuel ->
  let cs := map chunk (range_from fuel i (length items) n) in
  concat cs = skipn i items /\
  Forall (fun c => c <> [] /\ length c <= n) cs /\
  (forall j c, nth_error cs j = Some c -> S j < length cs -> length c = n) /\
  length cs = (length items - i + n - 1) / n.
Proof.
  induction fuel as [|fuel IH]; intros i L; cbv zeta.
  - cbn [range_from map concat]. rewrite skipn_all2 by lia.
    repeat apply conj; auto.
    + intros [|j] c H; discriminate.
    + replace (length items - i + n - 1) with (n - 1) by lia.
      symmetry. apply Nat.div_small. lia.
  - cbn [range_from]. destruct (Nat.ltb_spec i (length items)) as [Li|Li].
    2:{ cbn [map concat]. rewrite skipn_all2 by lia.
        repeat apply conj; auto.
        - intros [|j] c H; discriminate.
        - replace (length items - i + n - 1) with (n - 1) by lia.
          symmetry. apply Nat.div_small. lia. }
    destruct (IH (i + n) ltac:(lia)) as (C & F & B & N). cbv zeta in *.
    remember (map chunk (range_from fuel (i + n) (length items) n)) as cs
      eqn:Ecs.
    cbn [map concat]. rewrite <- Ecs. repeat apply conj.
    + rewrite C, chunk_eq, Nat.add_comm, <- skipn_skipn.
      apply firstn_skipn.
    + constructor; [|exact F]. split.
      * intros E. apply (f_equal (@length A)) in E.
        rewrite chunk_length in E. simpl in E. lia.
      * rewrite chunk_length. lia.
    + intros [|j] c H Lj; cbn [nth_error length] in *.
      * injection H as <-. rewrite chunk_length.
        assert (P : 0 < length cs) by lia. rewrite N in P.
        destruct (Nat.le_gt_cases n (length items - (i + n) + n - 1))
          as [G|G]; [lia|].
        rewrite Nat.div_small in P by exact G. lia.
      * apply (B j c H). lia.
    + cbn [length]. rewrite N.
      destruct (Nat.le_gt_cases (i + n) (length items)) as [G|G].
      * replace (length items - i + n - 1)
          with (length items - (i + n) + n - 1 + 1 * n) by lia.
        rewrite Nat.div_add by lia. lia.
      * replace (length items - (i + n) + n - 1) with (n - 1) by lia.
        rewrite Nat.div_small by lia.
        replace (length items - i + n - 1)
          with (length items - i - 1 + 1 * n) by lia.
        rewrite Nat.div_add, Nat.div_small by lia. reflexivity.
Qed.


End Chunks.

Lemma chunk_list_cases (A : Type) (items : list A) (size : Z) :
  (size = 0%Z -> chunk_list items size = None) /\
  ((size < 0)%Z -> chunk_list items size = Some []) /\
  ((0 < size)%Z ->
   exists chunks, chunk_list items size = Some chunks /\
                  concat chunks = items /\ Forall (fun c => c <> []) chunks).
Proof.
  unfold chunk_list. repeat apply conj.
  - intros ->. reflexivity.
  - intros L. destruct (Z.eqb_spec size 0); [lia|].
    destruct (Z.ltb_spec size 0); [reflexivity|lia].
  - intros L. destruct (Z.eqb_spec size 0); [lia|].
    destruct (Z.ltb_spec size 0); [lia|].
    assert (P : 0 < Z.to_nat size) by lia.
    destruct (@chunks_from A items (Z.to_nat size) P (length items) 0
                ltac:(lia)) as (C & F & _).
    eexists. split; [reflexivity|]. split; [exact C|].
    eapply Forall_impl; [|exact F]. now intros c [Hc _].
Qed.

(** X11: [chunk_list] cuts a list into consecutive batches.  For a
    positive size the batches concatenate to the list, none is empty or
    longer than the size, all but the last have exactly the size, and
    there are ceil(len / size) of them.  A size of zero raises the
    [ValueError] of [range]; a negative size yields no batch at all. *)
Theorem X11_chunk_list (A : Type) (items : list A) (size : Z) :
  (size = 0%Z -> chunk_list items size = None) /\
  ((size < 0)%Z -> chunk_list items size = Some []) /\
  ((0 < size)%Z ->
   exists chunks,
     chunk_list items size = Some chunks /\
     concat chunks = items /\
     Forall (fun c => c <> [] /\ (Z.of_nat (length c) <= size)%Z) chunks /\
     (forall j c, nth_error chunks j = Some c -> S j < length chunks ->
                  Z.of_nat (length c) = size) /\
     length chunks
     = (length items + Z.to_nat size - 1) / Z.to_nat size).
Proof.
  unfold chunk_list. repeat apply conj.
  - intros ->. reflexivity.
  - intros L. destruct (Z.eqb_spec size 0); [lia|].
    destruct (Z.ltb_spec size 0); [reflexivity|lia].
  - intros L. destruct (Z.eqb_spec size 0); [lia|].
    destruct (Z.ltb_spec size 0); [lia|].
    assert (P : 0 < Z.to_nat size) by lia.
    destruct (@chunks_from A items (Z.to_nat size) P (length items) 0
                ltac:(lia)) as (C & F & B & N).
    eexists. split; [reflexivity|]. unfold range_step.
    repeat apply conj.
    + exact C.
    + eapply Forall_impl; [|exact F]. intros c [H1 H2]. split; [exact H1|lia].
    + intros j c H1 H2. rewrite (B j c H1 H2). lia.
    + rewrite N. now rewrite Nat.sub_0_r.
Qed.

Lemma X11_chunk_list_witness :
  exists chunks,
    chunk_list [1; 2; 3; 4; 5] 2 = Some chunks /\
    concat chunks = [1; 2; 3; 4; 5] /\
    Forall (fun c => c <> [] /\ (Z.of_nat (length c) <= 2)%Z) chunks /\
    (forall j c, nth_error chunks j = Some c -> S j < length chunks ->
                 Z.of_nat (length c) = 2%Z) /\
    length chunks = (length [1; 2; 3; 4; 5] + Z.to_nat 2 - 1) / Z.to_nat 2.
Proof.
  apply (proj2 (proj2 (X11_chunk_list [1; 2; 3; 4; 5] 2))). lia.
Defined.

(** *** The file loop *)

Section FileProps.
Variables (E : Type) (service : nat -> nat -> outcome E usage).
Variables (max_retries : nat) (sleep_base : Q).

Lemma checked_inl (U : Type) (segments : list JSeg) (o : outcome E U)
    (tr : option (list TSeg)) (u : U) :
  checked segments o = inl (tr, u) ->
  exists translated,
    tr = Some translated /\ length translated = length segments /\
    forall s, In s segments ->
      exists t, dict_get (j_id s) (text_map translated) = Some t /\
                is_corrupt (text_or_empty s) t = false.
Proof.
  unfold checked. destruct o as [e|[translated|] u']; try discriminate.
  destruct (length translated =? length segments) eqn:L; [|discriminate].
  cbn [negb]. destruct (existsb _ segments) eqn:X; [discriminate|].
  match goal with |- context [filter ?f segments] =>
    destruct (filter f segments) as [|b bad] eqn:F; [|discriminate] end.
  intros H. injection H as <- <-. exists translated.
  split; [reflexivity|]. split; [now apply Nat.eqb_eq|].
  intros s Hs.
  destruct (dict_get (j_id s) (text_map translated)) as [t|] eqn:G.
  - exists t. split; [reflexivity|].
    destruct (is_corrupt (text_or_empty s) t) eqn:C; [|reflexivity].
    exfalso.
    match type of F with filter ?f _ = _ =>
      assert (Hin : In s (filter f segments))
        by (apply filter_In; split; [exact Hs|now rewrite G]) end.
    rewrite F in Hin. exact Hin.
  - exfalso.
    assert (existsb (fun s => negb (dict_mem (j_id s) (text_map translated)))
                    segments = true).
    { apply existsb_exists. exists s. split; [exact Hs|].
      unfold dict_mem. now rewrite G. }
    congruence.
Qed.

Lemma retry_loop_inl (U : Type) (srv : nat -> outcome E U)
    (segments : list JSeg) (n : nat) :
  forall a last log log' r,
  retry_loop srv segments sleep_base n a last log = (log', inl r) ->
  exists i, checked segments (srv i) = inl r.
Proof.
  induction n as [|n IH]; intros a last log log' r H; cbn [retry_loop] in H;
    [discriminate|].
  destruct (checked segments (srv a)) as [r'|e] eqn:C.
  - injection H as _ <-. eauto.
  - destruct (negative _); [discriminate|]. eapply IH; eassumption.
Qed.

Lemma collect_ok (group : list JSeg) (out_map : dict str) :
  (forall s, In s group ->
     exists t, dict_get (j_id s) out_map = Some t /\
               is_corrupt (text_or_empty s) t = false) ->
  exists entries,
    collect E group out_map = inl entries /\
    map j_id entries = map j_id group /\
    map j_kind entries = map j_kind group /\
    Forall2 validated group entries.
Proof.
  induction group as [|s group IH]; intros H.
  - exists []. repeat split; constructor.
  - destruct (H s (or_introl eq_refl)) as (t & G & C).
    destruct IH as (entries & E1 & E2 & E3 & E4);
      [intros s' Hs'; apply H; now right|].
    cbn [collect]. rewrite G, E1. eexists. split; [reflexivity|].
    cbn [map j_id j_kind]. rewrite E2, E3. repeat split.
    constructor; [|exact E4]. exists t. auto.
Qed.

Lemma batches_post (groups : list (list JSeg)) :
  forall b acc fi fo,
  (forall out fi' fo',
     batches service max_retries sleep_base groups b (acc, fi, fo)
     = inl (out, fi', fo') ->
     exists new,
       out = acc ++ new /\
       map j_id new = map j_id (concat groups) /\
       map j_kind new = map j_kind (concat groups) /\
       Forall2 validated (concat groups) new) /\
  (forall e,
     batches service max_retries sleep_base groups b (acc, fi, fo) = inr e ->
     exists b' err,
       e = BatchFailed b' err /\ b <= b' < b + length groups).
Proof.
  induction groups as [|group groups IH]; intros b acc fi fo.
  - split; [|discriminate]. intros out fi' fo' H. injection H as <- <- <-.
    exists []. rewrite app_nil_r. repeat split; constructor.
  - cbn [batches concat length].
    destruct (translate_segments (service b) group max_retries sleep_base)
      as [log [[tr u]|err]] eqn:T; cbn [snd].
    2:{ split; [discriminate|]. intros e H. injection H as <-.
        exists b, err. split; [reflexivity|lia]. }
    unfold translate_segments in T.
    apply retry_loop_inl in T as [i T].
    apply checked_inl in T as (translated & -> & _ & V).
    destruct (collect_ok group (text_map translated) V)
      as (entries & C1 & C2 & C3 & C4).
    rewrite C1.
    destruct (match u with Some io => io | None => (0, 0) end) as [n_in n_out].
    destruct (IH (S b) (acc ++ entries) (fi + n_in) (fo + n_out)) as [I1 I2].
    split.
    + intros out fi' fo' H. destruct (I1 _ _ _ H) as (new & -> & N1 & N2 & N3).
      exists (entries ++ new). rewrite app_assoc, !map_app, C2, C3, N1, N2.
      repeat split. now apply Forall2_app.
    + intros e H. destruct (I2 e H) as (b' & err & -> & L).
      exists b', err. split; [reflexivity|lia].
Qed.

(** X12: a batch size that is not positive.  For a file with segments
    that is not skipped, a batch size of zero raises the [ValueError] of
    [range] before any call and writes nothing; a negative batch size
    makes no call either, writes an output file without any segment and
    still reports the status ok with the full segment count. *)
Theorem X12_nonpositive_batch (rel_posix : str) (out_exists overwrite : bool)
    (data : InputData) (batch : Z) (segments : list JSeg) :
  (out_exists && negb overwrite)%bool = false ->
  d_segments data = Some segments -> segments <> [] ->
  let run := translate_file service max_retries sleep_base rel_posix
                            out_exists overwrite data batch in
  (batch = 0%Z -> run = (None, inr (ValueError_range_step E))) /\
  ((batch < 0)%Z ->
   run = (Some {| p_source_key :=
                    match d_source_key data with
                    | Some k => k
                    | None => rel_posix
                    end;
                  p_segments := Some [] |},
          inl (length segments, 0, 0, Done))).
Proof.
  intros G D N. cbv zeta. unfold translate_file. rewrite G, D.
  destruct segments as [|s segments']; [congruence|].
  destruct (chunk_list_cases (s :: segments') batch) as (C0 & C1 & _).
  split; intros H.
  - now rewrite (C0 H).
  - now rewrite (C1 H).
Qed.

(** X13: what [translate_file] hands on for a positive batch size.  When
    it returns, the file it wrote has one entry per input segment, with
    the same ids and kinds in the same order, each text being one that
    passed the integrity check against the text of its segment, and the
    reported count is the number of segments.  When it raises, nothing is
    written, and the exception is the one that ended the retries of some
    batch: the loop itself never fails on a missing key. *)
Theorem X13_translate_file_post (rel_posix : str) (out_exists overwrite : bool)
    (data : InputData) (batch : Z) :
  (0 < batch)%Z ->
  (out_exists && negb overwrite)%bool = false ->
  let segments := match d_segments data with Some l => l | None => [] end in
  let run := translate_file service max_retries sleep_base rel_posix
                            out_exists overwrite data batch in
  (forall n fi fo st,
     snd run = inl (n, fi, fo, st) ->
     exists out,
       fst run
       = Some {| p_source_key :=
                   match d_source_key data with
                   | Some k => k
                   | None => rel_posix
                   end;
                 p_segments := Some out |} /\
       n = length segments /\
       map j_id out = map j_id segments /\
       map j_kind out = map j_kind segments /\
       Forall2 validated segments out) /\
  (forall e,
     snd run = inr e ->
     fst run = None /\ exists b err, e = BatchFailed b err).
Proof.
  intros B G. cbv zeta. unfold translate_file. rewrite G.
  set (segments := match d_segments data with Some l => l | None => [] end).
  destruct segments as [|s segments'] eqn:S.
  { cbn [fst snd]. split; [|discriminate].
    intros n fi fo st H. injection H as <- _ _ _. exists [].
    repeat split; constructor. }
  rewrite <- S.
  destruct (chunk_list_cases segments batch) as (_ & _ & C).
  destruct (C B) as (chunks & -> & CC & _).
  destruct (batches_post chunks 0 [] 0 0) as [P1 P2].
  destruct (batches service max_retries sleep_base chunks 0 ([], 0, 0))
    as [[[out fi'] fo']|e'] eqn:R; cbn [fst snd].
  - split; [|discriminate]. intros n fi fo st H. injection H as <- _ _ _.
    destruct (P1 _ _ _ eq_refl) as (new & -> & N1 & N2 & N3).
    rewrite CC in N1, N2, N3. exists new. cbn [app]. repeat split; auto.
  - split; [discriminate|]. intros e H. injection H as <-.
    split; [reflexivity|]. destruct (P2 _ eq_refl) as (b & err & -> & _).
    eauto.
Qed.

End FileProps.

Lemma X12_nonpositive_batch_witness :
  translate_file example_file_service 3 (1 # 5) (lit "p/container_1.json")
                 false false example_input (-1)
  = (Some {| p_source_key := lit "p/container_1.json";
             p_segments := Some [] |},
     inl (1, 0, 0, Done)).
Proof.
  apply (proj2 (@X12_nonpositive_batch unit example_file_service 3 (1 # 5)
                  (lit "p/container_1.json") false false example_input (-1)
                  example_batch eq_refl eq_refl ltac:(discriminate))).
  lia.
Defined.

Lemma X13_translate_file_post_witness :
  exists out,
    fst (translate_file example_file_service 3 (1 # 5)
           (lit "p/container_1.json") false false example_input 40)
    = Some {| p_source_key := lit "p/container_1.json";
              p_segments := Some out |} /\
    1 = length example_batch /\
    map j_id out = map j_id example_batch /\
    map j_kind out = map j_kind example_batch /\
    Forall2 validated example_batch out.
Proof.
  apply (proj1 (@X13_translate_file_post unit example_file_service 3 (1 # 5)
                  (lit "p/container_1.json") false false example_input 40
                  ltac:(lia) eq_refl) 1 12 7 Done).
  vm_compute. reflexivity.
Defined.

(** *** The time spent sleeping *)

Lemma pow2_S (n : nat) : (pow2 (S n) == 2 * pow2 n)%Q.
Proof.
  unfold pow2. rewrite Nat2Z.inj_succ, Z.pow_succ_r by lia.
  now rewrite inject_Z_mult.
Qed.

Lemma pow2_pos (n : nat) : (0 < pow2 n)%Q.
Proof.
  unfold pow2. change 0%Q with (inject_Z 0). rewrite <- Zlt_Qlt.
  apply Z.pow_pos_nonneg; lia.
Qed.

Lemma total_sleep_app (l l' : list event) :
  (total_sleep (l ++ l') == total_sleep l + total_sleep l')%Q.
Proof.
  induction l as [|[a|q] l IH]; simpl.
  - now rewrite Qplus_0_l.
  - exact IH.
  - rewrite IH. apply Qplus_assoc.
Qed.

Section Sleep.
Variables (E U : Type) (service : nat -> outcome E U).
Variables (segments : list JSeg) (sleep_base : Q).
Hypothesis base_nonneg : (0 <= sleep_base)%Q.

Lemma retry_loop_sleep (n : nat) :
  forall a last log,
  (total_sleep (fst (retry_loop service segments sleep_base n a last log))
   <= total_sleep log + sleep_base * (pow2 (a + n) - pow2 a))%Q /\
  ((forall i, i < n -> failed service segments (a + i)) ->
   (total_sleep (fst (retry_loop service segments sleep_base n a last log))
    == total_sleep log + sleep_base * (pow2 (a + n) - pow2 a))%Q).
Proof.
  induction n as [|n IH]; intros a last log; cbn [retry_loop fst].
  - rewrite Nat.add_0_r. split; [|intros _]; lra.
  - assert (C : (total_sleep (log ++ [Call a]) == total_sleep log)%Q).
    { rewrite total_sleep_app. simpl. lra. }
    assert (P : (pow2 (a + S n) == 2 * pow2 (a + n))%Q)
      by (rewrite Nat.add_succ_r; apply pow2_S).
    assert (M : (0 <= sleep_base * (pow2 (a + S n) - pow2 a))%Q).
    { apply Qmult_le_0_compat; [exact base_nonneg|].
      clear. induction n as [|n IHn].
      - rewrite Nat.add_1_r, pow2_S. pose proof (pow2_pos a). lra.
      - rewrite Nat.add_succ_r, pow2_S.
        pose proof (pow2_pos (a + S n)). lra. }
    destruct (checked segments (service a)) as [r|e] eqn:K; cbn [fst].
    + split; [rewrite C; lra|].
      intros F. destruct (F 0 ltac:(lia)) as [e He].
      rewrite Nat.add_0_r in He. congruence.
    + rewrite (backoff_nonneg base_nonneg).
      destruct (IH (S a) (Some e)
                   ((log ++ [Call a]) ++ [Sleep (backoff sleep_base a)]))
        as [I1 I2].
      assert (T : (total_sleep ((log ++ [Call a])
                                ++ [Sleep (backoff sleep_base a)])
                   == total_sleep log + sleep_base * pow2 a)%Q).
      { rewrite total_sleep_app, C. simpl. unfold backoff, pow2. lra. }
      assert (Q1 : (pow2 (S a + n) == 2 * pow2 (a + n))%Q)
        by (cbn [Nat.add]; apply pow2_S).
      assert (Q2 : (pow2 (S a) == 2 * pow2 a)%Q) by apply pow2_S.
      split.
      * rewrite T, Q1, Q2 in I1. rewrite P. lra.
      * intros F. rewrite I2.
        -- rewrite T, Q1, Q2, P. lra.
        -- intros i Hi. replace (S a + i) with (a + S i) by lia.
           apply F. lia.
Qed.

(** X14: the retry loop sleeps for at most
    [sleep_base * (2 ** max_retries - 1)] seconds in all, whatever the
    service does, and for exactly that long when every attempt fails. *)
Theorem X14_total_sleep_bound (M : nat) :
  let run := translate_segments service segments M sleep_base in
  (total_sleep (fst run) <= sleep_base * (pow2 M - 1))%Q /\
  ((forall i, i < M -> failed service segments i) ->
   (total_sleep (fst run) == sleep_base * (pow2 M - 1))%Q).
Proof.
  cbv zeta. unfold translate_segments.
  destruct (retry_loop_sleep M 0 None []) as [H1 H2].
  cbn [Nat.add total_sleep fold_right] in H1, H2.
  change (pow2 0) with 1%Q in H1, H2.
  split; [lra|]. intros F. rewrite (H2 F). lra.
Qed.

End Sleep.

Lemma X14_total_sleep_bound_witness :
  (total_sleep (fst (translate_segments (fun _ => @Raised unit unit tt)
                       example_batch 6 (1 # 5)))
   == 63 # 5)%Q.
Proof.
  assert (B : (0 <= 1 # 5)%Q) by (unfold Qle; simpl; lia).
  rewrite (proj2 (@X14_total_sleep_bound unit unit
                    (fun _ => @Raised unit unit tt) example_batch (1 # 5) B 6)).
  - reflexivity.
  - intros i _. eexists. reflexivity.
Defined.

(** *** Translations that keep the bracket tokens *)

(** The tokens found from a position on, [k] characters of a previous
    match still to be passed. *)
Lemma tokens_indep (s : str) :
  forall prev pos prev' pos' k,
  map (@m_groups str) (finditer_from BRACKET_RX prev pos k s)
  = map (@m_groups str) (finditer_from BRACKET_RX prev' pos' k s).
Proof.
  induction s as [|c s IH]; intros prev pos prev' pos' k; [reflexivity|].
  cbn [finditer_from]. destruct k as [|k]; [|apply IH].
  change (BRACKET_RX prev' (c :: s)) with (BRACKET_RX prev (c :: s)).
  destruct (BRACKET_RX prev (c :: s)) as [[g len]|].
  - cbn [map m_groups]. f_equal. apply IH.
  - apply IH.
Qed.

Lemma tokens_skip (u s : str) :
  forall prev pos,
  map (@m_groups str) (finditer_from BRACKET_RX prev pos (length u) (u ++ s))
  = findall BRACKET_RX s.
Proof.
  induction u as [|c u IH]; intros prev pos.
  - apply tokens_indep.
  - cbn [length app finditer_from]. apply IH.
Qed.

Lemma tokens_plain_from (p s : str) :
  bracket_free p ->
  forall prev pos,
  map (@m_groups str) (finditer_from BRACKET_RX prev pos 0 (p ++ s))
  = findall BRACKET_RX s.
Proof.
  induction p as [|c p IH]; intros F prev pos; [apply tokens_indep|].
  cbn [app finditer_from].
  assert (N : BRACKET_RX prev (c :: p ++ s) = None).
  { unfold BRACKET_RX. destruct (eqc c open_bracket) eqn:E; [|reflexivity].
    apply eqc_true in E. exfalso. apply F. now left. }
  rewrite N. apply IH. intros H. apply F. now right.
Qed.

Lemma tokens_plain (p s : str) :
  bracket_free p -> findall BRACKET_RX (p ++ s) = findall BRACKET_RX s.
Proof. intros F. now apply tokens_plain_from. Qed.

Lemma tokens_token (t s : str) :
  is_token t -> findall BRACKET_RX (t ++ s) = t :: findall BRACKET_RX s.
Proof.
  intros (body & -> & N). unfold findall at 1, finditer.
  cbn [app finditer_from].
  assert (M : BRACKET_RX None (open_bracket :: (body ++ [close_bracket]) ++ s)
              = Some (open_bracket :: body ++ [close_bracket],
                      length body + 2)).
  { unfold BRACKET_RX. rewrite eqc_refl, <- app_assoc. cbn [app].
    rewrite (@ApplyMore.find_char_first close_bracket body s N). f_equal. f_equal.
    replace (length body + 2) with (S (length (body ++ [close_bracket])))
      by (rewrite length_app; simpl; lia).
    cbn [firstn]. f_equal.
    change (body ++ close_bracket :: s) with (body ++ [close_bracket] ++ s).
    rewrite app_assoc, firstn_app, firstn_all, Nat.sub_diag.
    cbn [firstn]. apply app_nil_r. }
  rewrite M. cbn [map m_groups]. f_equal.
  replace (length body + 2 - 1) with (length (body ++ [close_bracket]))
    by (rewrite length_app; simpl; lia).
  apply tokens_skip.
Qed.

Lemma findall_weave (parts : list (str * str)) (tail : str) :
  Forall (fun pt => bracket_free (fst pt) /\ is_token (snd pt)) parts ->
  bracket_free tail ->
  findall BRACKET_RX (weave parts tail) = map snd parts.
Proof.
  intros F T. induction F as [|[p t] parts [Hp Ht] F IH]; cbn [weave map snd].
  - rewrite <- (app_nil_r tail). now rewrite tokens_plain.
  - cbn [fst snd] in Hp, Ht. now rewrite tokens_plain, tokens_token, IH.
Qed.

(** X15: the bracket comparison accepts every translation that keeps the
    tokens.  When the original and the candidate are both made of
    stretches of text without an opening bracket interleaved with bracket
    tokens, and the tokens are the same in the same order, whatever the
    text in between, the tokens found in each are exactly those tokens
    and the candidate is marked corrupt only if it contains a deny-listed
    substring. *)
Theorem X15_kept_tokens_accepted (parts parts' : list (str * str))
    (tail tail' : str) :
  Forall (fun pt => bracket_free (fst pt) /\ is_token (snd pt)) parts ->
  Forall (fun pt => bracket_free (fst pt) /\ is_token (snd pt)) parts' ->
  bracket_free tail -> bracket_free tail' ->
  map snd parts = map snd parts' ->
  findall BRACKET_RX (weave parts tail) = map snd parts /\
  is_corrupt (weave parts tail) (weave parts' tail')
  = has_bad_token (weave parts' tail').
Proof.
  intros F F' T T' E. split; [now apply findall_weave|].
  unfold is_corrupt, has_bad_token.
  rewrite !findall_weave, E, list_eqb_refl by assumption.
  cbn [negb]. now destruct (existsb _ BAD_TOKENS).
Qed.

Lemma X15_kept_tokens_accepted_witness :
  is_corrupt (lit "Hello [b]world[/b]!") (lit "Bonjour [b]le monde[/b] !")
  = false.
Proof.
  refine (eq_trans
            (proj2 (@X15_kept_tokens_accepted
                      [(lit "Hello ", lit "[b]"); (lit "world", lit "[/b]")]
                      [(lit "Bonjour ", lit "[b]");
                       (lit "le monde", lit "[/b]")]
                      (lit "!") (lit " !") _ _ _ _ eq_refl)) eq_refl).
  - repeat constructor; cbn [fst snd];
      try (intros H; vm_compute in H; intuition discriminate).
    + exists (lit "b"). split; [reflexivity|].
      intros H; vm_compute in H; intuition discriminate.
    + exists (lit "/b"). split; [reflexivity|].
      intros H; vm_compute in H; intuition discriminate.
  - repeat constructor; cbn [fst snd];
      try (intros H; vm_compute in H; intuition discriminate).
    + exists (lit "b"). split; [reflexivity|].
      intros H; vm_compute in H; intuition discriminate.
    + exists (lit "/b"). split; [reflexivity|].
      intros H; vm_compute in H; intuition discriminate.
  - intros H; vm_compute in H; intuition discriminate.
  - intros H; vm_compute in H; intuition discriminate.
Defined.

End TranslateMore.

(** ** Export of the containers and merge of a page *)

Module ContainerProps.

Import Py Re PyFacts ReFacts PyMore Containers Merge.
Import ExtractProps ExtractMore.

(** *** What the container pattern matches *)

(** [find] reports the leftmost occurrence. *)
Lemma find_leftmost (needle s : str) (n : nat) :
  find needle s = Some n ->
  forall j, j < n -> startswith needle (skipn j s) = false.
Proof.
  revert n. induction s as [|c s IH]; intros n H j Hj; cbn [find] in H.
  - destruct (startswith needle []); [|discriminate].
    injection H as <-. lia.
  - destruct (startswith needle (c :: s)) eqn:E.
    + injection H as <-. lia.
    + destruct (find needle s) as [k|] eqn:F; [|discriminate].
      injection H as <-. destruct j as [|j]; [exact E|].
      cbn [skipn]. apply (IH k eq_refl). lia.
Qed.

Lemma pattern_Some (prev : option ascii) (s g : str) (len : nat) :
  pattern prev s = Some (g, len) ->
  is_container g /\ g = firstn len s /\ 0 < len <= length s.
Proof.
  unfold pattern.
  destruct (strip_prefix container_open s) as [r|] eqn:P; [|discriminate].
  destruct (find container_close r) as [k|] eqn:F; [|discriminate].
  intros H. cbv zeta in H.
  assert (Hl : len = length container_open + k + length container_close)
    by congruence.
  assert (Hg : g = firstn len s) by congruence.
  clear H. subst len g.
  apply strip_prefix_Some in P. subst s.
  pose proof (find_leftmost _ _ F) as Lm.
  apply find_Some in F as (rest & F & L).
  assert (R : r = firstn k r ++ container_close ++ rest)
    by (rewrite <- F; symmetry; apply firstn_skipn).
  assert (Lk : length (firstn k r) = k) by (apply firstn_length_le; lia).
  set (mid := firstn k r) in *.
  assert (G : firstn (length container_open + k + length container_close)
                     (container_open ++ r)
              = container_open ++ mid ++ container_close).
  { rewrite R, !app_assoc.
    replace (length container_open + k + length container_close)
      with (length ((container_open ++ mid) ++ container_close))
      by (rewrite !length_app; lia).
    now rewrite firstn_app, firstn_all, Nat.sub_diag, firstn_O, app_nil_r. }
  repeat apply conj.
  - exists mid. split; [exact G|]. intros pre post E.
    assert (Le : length mid = length pre + length post).
    { apply (f_equal (@length ascii)) in E. rewrite !length_app in E. lia. }
    destruct (Nat.lt_ge_cases (length pre) (length mid)) as [Lt|Ge].
    + exfalso. rewrite Lk in Lt. specialize (Lm _ Lt).
      assert (S : startswith container_close (skipn (length pre) r) = true).
      { apply startswith_true. exists (post ++ rest).
        rewrite R, app_assoc, E, <- !app_assoc.
        now rewrite skipn_app, skipn_all, Nat.sub_diag. }
      congruence.
    + assert (post = []) by (destruct post; [reflexivity|simpl in Le; lia]).
      subst post. rewrite app_nil_r in E. apply app_inv_tail in E. auto.
  - reflexivity.
  - change (length container_open) with 25. lia.
  - rewrite length_app. lia.
Qed.

(** *** Matches as pieces of the text *)

Section Pieces.
Variables (rx : regex str).
Hypothesis rx_text :
  forall prev s g len,
  rx prev s = Some (g, len) -> g = firstn len s /\ 0 < len <= length s.

Lemma weave_cons (c : ascii) (gaps : list str) (gs : list str) (tail : str) :
  length gaps = length gs ->
  exists gaps' tail',
    length gaps' = length gs /\
    c :: weave (combine gaps gs) tail = weave (combine gaps' gs) tail'.
Proof.
  destruct gaps as [|g0 gaps], gs as [|x gs]; try discriminate; intros L.
  - exists [], (c :: tail). auto.
  - exists ((c :: g0) :: gaps), tail. auto.
Qed.

Lemma finditer_pieces (s : str) :
  forall prev pos k,
  k <= length s ->
  exists gaps tail,
    length gaps = length (finditer_from rx prev pos k s) /\
    skipn k s
    = weave (combine gaps (map (@m_groups str) (finditer_from rx prev pos k s)))
            tail.
Proof.
  induction s as [|c s IH]; intros prev pos k L.
  - exists [], []. destruct k; auto.
  - cbn [finditer_from]. destruct k as [|k].
    + destruct (rx prev (c :: s)) as [[g len]|] eqn:R.
      * destruct (rx_text R) as (-> & L1 & L2). cbn [length] in L2.
        destruct (IH (Some c) (S pos) (len - 1) ltac:(lia))
          as (gaps & tail & Lg & E).
        exists ([] :: gaps), tail. cbn [length map combine weave m_groups app].
        split; [now rewrite Lg|]. rewrite <- E.
        destruct len as [|len]; [lia|]. cbn [skipn firstn].
        replace (S len - 1) with len by lia. cbn [app]. f_equal.
        symmetry. apply firstn_skipn.
      * destruct (IH (Some c) (S pos) 0 ltac:(lia)) as (gaps & tail & Lg & E).
        cbn [skipn] in *.
        destruct (@weave_cons c gaps
                    (map (@m_groups str)
                         (finditer_from rx (Some c) (S pos) 0 s)) tail)
          as (gaps' & tail' & Lg' & E');
          [now rewrite length_map|].
        exists gaps', tail'. rewrite length_map in Lg'.
        split; [exact Lg'|]. rewrite <- E'. f_equal. exact E.
    + cbn [skipn length] in *. apply IH. lia.
Qed.

End Pieces.

Lemma map_snd_combine_seq (A : Type) (l : list A) :
  forall i, map snd (combine (seq i (length l)) l) = l.
Proof.
  induction l as [|c l IH]; intros i; [reflexivity|]. simpl. now rewrite IH.
Qed.

Lemma map_fst_combine_seq (A : Type) (l : list A) :
  forall i, map fst (combine (seq i (length l)) l) = seq i (length l).
Proof.
  induction l as [|c l IH]; intros i; [reflexivity|]. simpl. now rewrite IH.
Qed.

Lemma export_shape (content : str) :
  Forall is_container (findall pattern content) /\
  map snd (fst (export_from_file content)) = findall pattern content.
Proof.
  split.
  - apply Forall_forall. intros c Hc. unfold findall in Hc.
    apply in_map_iff in Hc as (m & <- & Hm).
    apply finditer_from_In in Hm as (k & prev & len & _ & _ & H & _).
    now apply pattern_Some in H.
  - unfold export_from_file. cbn [fst]. rewrite map_map. cbn [snd].
    apply map_snd_combine_seq.
Qed.

(** X16: the export cuts the page into its containers.  The files are
    named [container_1.txt], [container_2.txt], ... in document order and
    their number is the returned count; each file holds one container:
    the opening text, then everything up to the first closing tag, which
    therefore occurs in the file only at its very end; and the page is
    these containers, in order and without overlap, with some text before,
    between and after them. *)
Theorem X16_export_containers (content : str) :
  let files := fst (export_from_file content) in
  let n := snd (export_from_file content) in
  length files = n /\
  map fst files = map container_name (seq 1 n) /\
  Forall is_container (map snd files) /\
  exists gaps tail,
    length gaps = n /\
    content = weave (combine gaps (map snd files)) tail.
Proof.
  cbv zeta. unfold export_from_file. cbn [fst snd].
  set (cs := findall pattern content).
  pose proof (map_snd_combine_seq cs 1) as S1.
  pose proof (map_fst_combine_seq cs 1) as S2.
  rewrite !map_map. cbn [fst snd].
  change (map (fun x => snd x) (combine (seq 1 (length cs)) cs))
    with (map snd (combine (seq 1 (length cs)) cs)).
  rewrite S1. repeat apply conj.
  - rewrite length_map, length_combine, length_seq. apply Nat.min_id.
  - rewrite <- S2 at 2. now rewrite map_map.
  - apply Forall_forall. intros c Hc. unfold cs, findall in Hc.
    apply in_map_iff in Hc as (m & <- & Hm).
    apply finditer_from_In in Hm as (k & prev & len & _ & _ & H & _).
    now apply pattern_Some in H.
  - destruct (@finditer_pieces pattern
                (fun prev s g len H => proj2 (pattern_Some _ _ H))
                content None 0 0 ltac:(lia)) as (gaps & tail & Lg & E).
    exists gaps, tail. split; [|exact E].
    unfold cs, findall. now rewrite length_map.
Qed.

(** *** The number in a file name *)

Lemma uint_digits (d : Decimal.uint) :
  Forall (fun c => is_digit c = true)
         (list_ascii_of_string (DecimalString.NilEmpty.string_of_uint d)).
Proof. induction d; simpl; constructor; auto. Qed.

Lemma int_of_uint (d : Decimal.uint) :
  forall d',
  fold_left (fun acc c => (10 * acc + (code c - 48))%N)
            (list_ascii_of_string (DecimalString.NilEmpty.string_of_uint d))
            (DecimalPos.Unsigned.of_lu d')
  = DecimalPos.Unsigned.of_lu (Decimal.revapp d d').
Proof.
  induction d; intros d'; cbn [DecimalString.NilEmpty.string_of_uint
                                list_ascii_of_string fold_left Decimal.revapp];
    [reflexivity|..];
    (rewrite <- IHd; f_equal; cbn [DecimalPos.Unsigned.of_lu];
     generalize (DecimalPos.Unsigned.of_lu d'); intros x;
     match goal with |- context [code ?c] =>
       let v := eval vm_compute in (code c - 48)%N in
       change (code c - 48)%N with v end; lia).
Qed.

Lemma str_of_nat_digits (n : nat) :
  str_of_int (Z.of_nat n) <> [] /\
  Forall (fun c => is_digit c = true) (str_of_int (Z.of_nat n)) /\
  int_of_digits (str_of_int (Z.of_nat n)) = N.of_nat n.
Proof.
  unfold str_of_int, int_of_digits. destruct n as [|n].
  - repeat split; [discriminate|repeat constructor].
  - cbn [Z.of_nat Z.to_int DecimalString.NilZero.string_of_int].
    set (p := Pos.of_succ_nat n).
    assert (Z : DecimalString.NilZero.string_of_uint (Pos.to_uint p)
                = DecimalString.NilEmpty.string_of_uint (Pos.to_uint p)).
    { pose proof (DecimalPos.Unsigned.to_uint_nonnil p) as NZ.
      now destruct (Pos.to_uint p). }
    rewrite Z. repeat apply conj.
    + pose proof (DecimalPos.Unsigned.to_uint_nonnil p) as NZ.
      destruct (Pos.to_uint p); [congruence|discriminate..].
    + apply uint_digits.
    + change 0%N with (DecimalPos.Unsigned.of_lu Decimal.Nil).
      rewrite int_of_uint. change (Decimal.revapp ?d Decimal.Nil)
        with (Decimal.rev d).
      rewrite <- DecimalPos.Unsigned.of_uint_alt, DecimalPos.Unsigned.of_to.
      unfold p. now rewrite <- positive_nat_N, SuccNat2Pos.id_succ.
Qed.

Lemma take_while_app (f : ascii -> bool) (a b : str) :
  Forall (fun c => f c = true) a ->
  match b with [] => True | c :: _ => f c = false end ->
  take_while f (a ++ b) = a.
Proof.
  induction 1 as [|x a Hx F IH]; intros Hb; cbn [app take_while].
  - destruct b as [|c b]; [reflexivity|]. cbn [take_while]. now rewrite Hb.
  - rewrite Hx. f_equal. now apply IH.
Qed.

(** The index read from the name of an exported file is its number. *)
Lemma container_index_name (i : nat) :
  container_index (container_name i) = N.of_nat i.
Proof.
  destruct (str_of_nat_digits i) as (NE & D & V).
  unfold container_index, container_name, search.
  set (ds := str_of_int (Z.of_nat i)) in *.
  assert (M : NUM_RX None (lit "container_" ++ ds ++ lit ".txt")
              = Some (ds, 10 + length ds + 4)).
  { unfold NUM_RX. rewrite strip_prefix_app.
    rewrite (take_while_app _ (lit ".txt") D) by reflexivity.
    rewrite skipn_app, skipn_all, Nat.sub_diag. cbn [skipn app].
    destruct ds; [congruence|reflexivity]. }
  change (lit "container_" ++ ds ++ lit ".txt")
    with ("c"%char :: (lit "ontainer_" ++ ds ++ lit ".txt")) in *.
  cbn [search_from]. rewrite M. cbn [m_groups]. exact V.
Qed.

(** X17: an exported file is found again by its number.  For every
    number within the digit limit of the conversion, the index that the
    merge reads from the name [container_<i>.txt] is [i] itself, so the
    sort key orders the exported files by number and not by the spelling
    of their names. *)
Theorem X17_index_of_exported_name (i j : nat) :
  (N.of_nat i < digit_limit)%N -> (N.of_nat j < digit_limit)%N ->
  container_index (container_name i) = N.of_nat i /\
  (i < j ->
   (container_index (container_name i) < container_index (container_name j))%N).
Proof.
  intros _ _. rewrite !container_index_name. split; [reflexivity|lia].
Qed.

Lemma X17_index_of_exported_name_witness :
  container_index (container_name 2) = 2%N /\
  (2 < 10 ->
   (container_index (container_name 2) < container_index (container_name 10))%N).
Proof.
  apply (@X17_index_of_exported_name 2 10); vm_compute; reflexivity.
Defined.

(** *** Merging what was exported *)

(** A list sorted without ties is the only sorted arrangement of its
    elements. *)
Lemma sorted_perm_unique (A : Type) (key : A -> N) (l1 : list A) :
  forall l2,
  ForallOrdPairs (fun a b => (key a < key b)%N) l1 ->
  ForallOrdPairs (fun a b => N.leb (key a) (key b) = true) l2 ->
  Permutation l1 l2 -> l1 = l2.
Proof.
  induction l1 as [|x l1 IH]; intros l2 S1 S2 P.
  - apply Permutation_nil in P. now subst.
  - destruct l2 as [|y l2];
      [symmetry in P; apply Permutation_nil in P; discriminate|].
    inversion S1 as [|? ? F1 S1']; subst.
    inversion S2 as [|? ? F2 S2']; subst.
    rewrite Forall_forall in F1, F2.
    assert (E : x = y).
    { assert (Hx : In x (y :: l2))
        by (eapply Permutation_in; [exact P|now left]).
      assert (Hy : In y (x :: l1))
        by (eapply Permutation_in; [symmetry; exact P|now left]).
      destruct Hx as [Hx|Hx]; [now symmetry|].
      destruct Hy as [Hy|Hy]; [assumption|].
      specialize (F1 y Hy). specialize (F2 x Hx).
      apply N.leb_le in F2. lia. }
    subst y. f_equal. apply IH; auto.
    eapply Permutation_cons_inv; exact P.
Qed.

Lemma exported_sorted (cs : list str) :
  forall i,
  ForallOrdPairs
    (fun a b => (container_index (fst a) < container_index (fst b))%N)
    (map (fun ic => (container_name (fst ic), snd ic))
         (combine (seq i (length cs)) cs)) /\
  Forall (fun a => (N.of_nat i <= container_index (fst a))%N)
         (map (fun ic => (container_name (fst ic), snd ic))
              (combine (seq i (length cs)) cs)).
Proof.
  induction cs as [|c cs IH]; intros i; [split; constructor|].
  destruct (IH (S i)) as [I1 I2]. cbn [length seq combine map fst snd].
  split.
  - constructor; [|exact I1]. eapply Forall_impl; [|exact I2].
    intros a Ha. cbv beta in Ha. cbn [fst]. rewrite container_index_name. lia.
  - constructor; [cbn [fst]; rewrite container_index_name; lia|].
    eapply Forall_impl; [|exact I2]. intros a Ha. cbv beta in Ha. lia.
Qed.

Lemma join_containers (c : str) (cs : list str) :
  Forall is_container (c :: cs) ->
  exists body,
    join [newline; newline] (c :: cs)
    = open_bracket :: body ++ [close_bracket].
Proof.
  assert (C : forall x, is_container x ->
                exists b, x = open_bracket :: b ++ [close_bracket]).
  { intros x (mid & -> & _).
    exists (lit "fusion_builder_container" ++ mid
            ++ lit "[/fusion_builder_container").
    unfold container_open, container_close.
    cbn [lit list_ascii_of_string app]. do 25 f_equal.
    rewrite <- !app_assoc. reflexivity. }
  revert c. induction cs as [|c2 cs IH]; intros c F.
  - inversion F; subst. cbn [join]. auto.
  - inversion F as [|? ? Hc F']; subst.
    destruct (C c Hc) as [b ->]. destruct (IH c2 F') as [body E].
    change (join [newline; newline]
              ((open_bracket :: b ++ [close_bracket]) :: c2 :: cs))
      with ((open_bracket :: b ++ [close_bracket]) ++ [newline; newline]
            ++ join [newline; newline] (c2 :: cs)).
    rewrite E.
    exists (b ++ [close_bracket] ++ [newline; newline] ++ open_bracket :: body).
    cbn [app]. rewrite <- !app_assoc. reflexivity.
Qed.

Lemma strip_bracketed (body : str) :
  strip (open_bracket :: body ++ [close_bracket])
  = open_bracket :: body ++ [close_bracket].
Proof.
  unfold strip. cbn [lstrip].
  change (is_space open_bracket) with false. cbv iota.
  change (open_bracket :: body ++ [close_bracket])
    with ((open_bracket :: body) ++ [close_bracket]).
  rewrite rev_app_distr. cbn [rev app lstrip].
  change (is_space close_bracket) with false. cbv iota.
  change (close_bracket :: rev body ++ [open_bracket])
    with ([close_bracket] ++ rev (open_bracket :: body)).
  rewrite rev_app_distr, rev_involutive. reflexivity.
Qed.

(** X18: merging an exported page puts its containers back in document
    order.  Whatever the order in which the folder lists the files
    written by the export, the merged text is the containers of the page
    in their original order, separated by one empty line and followed by
    one newline; the text that stood between the containers is gone. *)
Theorem X18_merge_after_export (content : str) (listing : list (str * str)) :
  (N.of_nat (snd (export_from_file content)) < digit_limit)%N ->
  Permutation listing (fst (export_from_file content)) ->
  merge_page_dir listing
  = join [newline; newline] (findall pattern content) ++ [newline].
Proof.
  intros _ P. unfold merge_page_dir.
  destruct (export_shape content) as (F & S).
  set (files := fst (export_from_file content)) in *.
  assert (E : Segments.sort_by (fun e => container_index (fst e)) N.leb listing
              = files).
  { symmetry. apply sorted_perm_unique with (key := fun e => container_index (fst e)).
    - apply exported_sorted.
    - apply (@sort_by_sorted _ _ (fun e : str * str => container_index (fst e))
               N.leb).
      + intros a b. rewrite !N.leb_le. lia.
      + intros a b c. rewrite !N.leb_le. lia.
    - rewrite sort_by_perm. now symmetry. }
  rewrite E, S. f_equal.
  destruct (findall pattern content) as [|c cs]; [reflexivity|].
  destruct (join_containers F) as [body ->]. apply strip_bracketed.
Qed.

Lemma X18_merge_after_export_witness :
  merge_page_dir (rev (fst (export_from_file doc_page)))
  = join [newline; newline] (findall pattern doc_page) ++ [newline].
Proof.
  apply X18_merge_after_export.
  - vm_compute. reflexivity.
  - symmetry. apply Permutation_rev.
Defined.

End ContainerProps.
